(** * SecureSync: encrypted vault, key derivation and sync engine

    A shallow embedding of the extension's core modules

    - [src/sync/conflict-resolver.js]   (modules [ConflictResolver],
                                         [MergeBranches])
    - [src/crypto/vault.js]             (modules [Vault], [VaultAccess])
    - [src/crypto/encryption.js]        (modules [Encryption],
                                         [PasswordHash])
    - [src/sync/sync-service.js]        (module [SyncService])

    together with the part of the JavaScript platform they rely on
    (module [JS]: values, objects, [Map], [Date], [JSON.stringify]), and of
    the modules around them

    - [backend/routes/sync.js]          (module [SyncRoutes])
    - [src/storage/local-storage.js]    (module [LocalStorage])
    - [src/popup/popup.js]              (module [Popup])
    - [src/capture/bookmark-capture.js] (module [BookmarkCapture])
    - [src/auth/auth-service.js]        (module [AuthService]). *)

From Stdlib Require Import ZArith List String Ascii Bool Lia ZifyBool
  DecimalString.
Import ListNotations.

Local Open Scope Z_scope.

(* ===================================================================== *)
(** * The JavaScript platform: values, objects, Map, Date                 *)
(* ===================================================================== *)

Module JS.

(** Primitive values held in the properties of a vault item.  Numbers are
    the integral ones (timestamps, versions); [NaN] only arises as the
    result of [Date.prototype.getTime] and is modelled there. *)
Inductive value : Type :=
| VUndefined
| VNull
| VBool (b : bool)
| VNum (n : Z)
| VStr (s : string).

(** [SameValueZero], the equality used by [Map] and [Set] keys, and [===]
    coincide on these values with structural equality. *)
Definition value_eqb (a b : value) : bool :=
  match a, b with
  | VUndefined, VUndefined => true
  | VNull, VNull => true
  | VBool x, VBool y => Bool.eqb x y
  | VNum x, VNum y => Z.eqb x y
  | VStr x, VStr y => String.eqb x y
  | _, _ => false
  end.

(** A plain object: its own enumerable string-keyed properties in
    insertion order. *)
Definition obj : Type := list (string * value).

(** [o.k] / [o[k]]: [undefined] when the property is absent. *)
Fixpoint get (k : string) (o : obj) : value :=
  match o with
  | [] => VUndefined
  | (k', v) :: o' => if String.eqb k' k then v else get k o'
  end.

(** [o.hasOwnProperty(k)]. *)
Fixpoint has (k : string) (o : obj) : bool :=
  match o with
  | [] => false
  | (k', _) :: o' => String.eqb k' k || has k o'
  end.

(** [o[k] = v]: an existing property keeps its position and takes the new
    value, a new one is added last. *)
Fixpoint set (k : string) (v : value) (o : obj) : obj :=
  match o with
  | [] => [(k, v)]
  | (k', v') :: o' =>
      if String.eqb k' k then (k', v) :: o' else (k', v') :: set k v o'
  end.

(** [{ ...target, ...source }]: every property of [source] is assigned onto
    [target] in order. *)
Definition spread (target source : obj) : obj :=
  fold_left (fun acc kv => set (fst kv) (snd kv) acc) source target.

(** An object names each of its properties once. *)
Definition well_formed (o : obj) : Prop := NoDup (map fst o).

(** ** Numbers that may be [NaN] *)

(** The result of [getTime()]: [None] is [NaN]. *)
Definition number : Type := option Z.

(** [a !== b] on numbers: [NaN] differs from everything, itself included. *)
Definition strict_neq (a b : number) : bool :=
  match a, b with
  | Some x, Some y => negb (Z.eqb x y)
  | _, _ => true
  end.

(** [a > b] on numbers: false as soon as one side is [NaN]. *)
Definition gt (a b : number) : bool :=
  match a, b with
  | Some x, Some y => Z.ltb y x
  | _, _ => false
  end.

(** ** [Date] *)

Definition digit (c : ascii) : option Z :=
  let n := Z.of_N (N_of_ascii c) in
  if (48 <=? n) && (n <=? 57) then Some (n - 48) else None.

Fixpoint digits_from (acc : Z) (l : list ascii) : option Z :=
  match l with
  | [] => Some acc
  | c :: l' =>
      match digit c with
      | Some d => digits_from (10 * acc + d) l'
      | None => None
      end
  end.

(** The number the tokenizer reads at the head of [l]: the value of the
    longest run of digits, how many digits it has, and what follows. *)
Fixpoint number_token (l : list ascii) (acc : Z) (len : nat)
  : Z * nat * list ascii :=
  match l with
  | c :: l' =>
      match digit c with
      | Some d => number_token l' (10 * acc + d) (S len)
      | None => (acc, len, l)
      end
  | [] => (acc, len, [])
  end.

(** A number of exactly [n] digits, between [lo] and [hi]. *)
Definition fixed_number (n : nat) (lo hi : Z) (l : list ascii)
  : option (Z * list ascii) :=
  let '(v, len, rest) := number_token l 0 0 in
  if Nat.eqb len n && (lo <=? v) && (v <=? hi) then Some (v, rest) else None.

Definition symbol (c : ascii) (l : list ascii) : option (list ascii) :=
  match l with
  | x :: l' => if Ascii.eqb x c then Some l' else None
  | [] => None
  end.

(** Days between 1970-01-01 and the civil date [y]-[m]-[d]; a day past the
    end of the month [m] counts on into the next one. *)
Definition days_from_civil (y m d : Z) : Z :=
  let y' := if m <=? 2 then y - 1 else y in
  let era := y' / 400 in
  let yoe := y' - era * 400 in
  let mp := if 2 <? m then m - 3 else m + 9 in
  let doy := (153 * mp + 2) / 5 + d - 1 in
  let doe := yoe * 365 + yoe / 4 - yoe / 100 + doy in
  era * 146097 + doe - 719468.

(** The date of a date-time text: [YYYY], [YYYY-MM] or [YYYY-MM-DD], a month
    or a day that is not written being the first.  The day is any from 01
    to 31, whatever the month. *)
Definition parse_date (l : list ascii) : option (Z * Z * Z * list ascii) :=
  match fixed_number 4 0 9999 l with
  | None => None
  | Some (y, l1) =>
      match symbol "-" l1 with
      | None => Some (y, 1, 1, l1)
      | Some l2 =>
          match fixed_number 2 1 12 l2 with
          | None => None
          | Some (mo, l3) =>
              match symbol "-" l3 with
              | None => Some (y, mo, 1, l3)
              | Some l4 =>
                  match fixed_number 2 1 31 l4 with
                  | None => None
                  | Some (d, l5) => Some (y, mo, d, l5)
                  end
              end
          end
      end
  end.

(** The milliseconds a fraction of [len] digits with value [v] stands for:
    its first three digits. *)
Definition milliseconds (v : Z) (len : nat) : Z :=
  match len with
  | 1%nat => v * 100
  | 2%nat => v * 10
  | _ => v / 10 ^ (Z.of_nat len - 3)
  end.

(** The fraction of a second, if one is written: a point and one to nine
    digits. *)
Definition parse_fraction (l : list ascii) : option (Z * list ascii) :=
  match symbol "." l with
  | None => Some (0, l)
  | Some l1 =>
      let '(v, len, rest) := number_token l1 0 0 in
      if Nat.leb 1 len && Nat.leb len 9 then Some (milliseconds v len, rest)
      else None
  end.

(** The seconds and their fraction, if written: [:ss] or [:ss.sss]. *)
Definition parse_seconds (l : list ascii) : option (Z * Z * list ascii) :=
  match symbol ":" l with
  | None => Some (0, 0, l)
  | Some l1 =>
      match fixed_number 2 0 59 l1 with
      | None => None
      | Some (sc, l2) =>
          match parse_fraction l2 with
          | None => None
          | Some (ms, l3) => Some (sc, ms, l3)
          end
      end
  end.

(** The time of day after [T], in milliseconds: [HH:mm], [HH:mm:ss] or
    [HH:mm:ss.sss].  The hour 24 is the end of the day and is followed by
    zeros only. *)
Definition parse_time (l : list ascii) : option (Z * list ascii) :=
  match fixed_number 2 0 24 l with
  | None => None
  | Some (h, l1) =>
      match symbol ":" l1 with
      | None => None
      | Some l2 =>
          match fixed_number 2 0 59 l2 with
          | None => None
          | Some (mi, l3) =>
              match parse_seconds l3 with
              | None => None
              | Some (sc, ms, l4) =>
                  if (h =? 24) && negb ((mi =? 0) && (sc =? 0) && (ms =? 0))
                  then None
                  else Some (((h * 60 + mi) * 60 + sc) * 1000 + ms, l4)
              end
          end
      end
  end.

(** The offset from UTC that ends a date-time text, in minutes: [Z], [+HH:mm]
    or [-HH:mm]. *)
Definition parse_offset (l : list ascii) : option Z :=
  match l with
  | ["Z"%char] => Some 0
  | c :: l1 =>
      if Ascii.eqb c "+" || Ascii.eqb c "-" then
        match fixed_number 2 0 23 l1 with
        | None => None
        | Some (h, l2) =>
            match symbol ":" l2 with
            | None => None
            | Some l3 =>
                match fixed_number 2 0 59 l3 with
                | Some (mi, []) =>
                    Some (if Ascii.eqb c "+" then h * 60 + mi
                          else - (h * 60 + mi))
                | _ => None
                end
            end
        end
      else None
  | [] => None
  end.

(** [Date.parse] on the texts of the date-time string format that name an
    instant by themselves: a date alone, which is read as midnight UTC, and a
    date, [T], a time and an offset from UTC.  [Date.prototype.toISOString]
    writes [YYYY-MM-DDTHH:mm:ss.sssZ], which is one of them.

    A date-time without offset is read in the time zone of the host, and on
    a text outside the format the host falls back on heuristics of its own;
    neither is modelled.  Such a text is given [NaN] here, and the properties
    below that rest on the order of two dates are stated for the values
    [Date_reads] accepts. *)
Definition Date_parse (s : string) : number :=
  match parse_date (list_ascii_of_string s) with
  | None => None
  | Some (y, mo, d, rest) =>
      let day := days_from_civil y mo d in
      match rest with
      | [] => Some (day * 86400000)
      | c :: l1 =>
          if Ascii.eqb c "T" then
            match parse_time l1 with
            | None => None
            | Some (t, l2) =>
                match parse_offset l2 with
                | Some offset => Some (day * 86400000 + t - offset * 60000)
                | None => None
                end
            end
          else None
      end
  end.

(** The range of time values a [Date] can hold. *)
Definition max_time : Z := 8640000000000000.

(** [new Date(v).getTime()]. *)
Definition Date_getTime (v : value) : number :=
  match v with
  | VUndefined => None
  | VNull => Some 0
  | VBool b => Some (if b then 1 else 0)
  | VNum n => if (- max_time <=? n) && (n <=? max_time) then Some n else None
  | VStr s => Date_parse s
  end.

(** The values whose time this model knows: every value but a text
    [Date_parse] does not read.  A property that is absent ([undefined]) is
    one of them, and is no date. *)
Definition Date_reads (v : value) : bool :=
  match v with
  | VStr s => match Date_parse s with Some _ => true | None => false end
  | _ => true
  end.

(** ** [JSON.stringify] on flat objects *)

Definition hex_digit (n : Z) : ascii :=
  ascii_of_N (Z.to_N (if n <? 10 then 48 + n else 87 + n)).

Definition dquote : ascii := "034"%char.

(** One character of a JSON string literal. *)
Definition quote_char (c : ascii) : string :=
  let n := Z.of_N (N_of_ascii c) in
  if n =? 34 then String "\" (String dquote EmptyString)
  else if n =? 92 then "\\"
  else if n =? 8 then "\b"
  else if n =? 9 then "\t"
  else if n =? 10 then "\n"
  else if n =? 12 then "\f"
  else if n =? 13 then "\r"
  else if n <? 32 then
    "\u00" ++ String (hex_digit (n / 16))
                 (String (hex_digit (n mod 16)) EmptyString)
  else String c EmptyString.

Fixpoint quote_body (s : string) : string :=
  match s with
  | EmptyString => EmptyString
  | String c s' => quote_char c ++ quote_body s'
  end.

Definition quote (s : string) : string :=
  String dquote (quote_body s ++ String dquote EmptyString).

Definition JSON_value (v : value) : string :=
  match v with
  | VUndefined => "undefined"
  | VNull => "null"
  | VBool true => "true"
  | VBool false => "false"
  | VNum n => NilZero.string_of_int (Z.to_int n)
  | VStr s => quote s
  end.

Definition is_undefined (v : value) : bool :=
  match v with VUndefined => true | _ => false end.

Definition JSON_member (kv : string * value) : string :=
  (quote (fst kv) ++ ":" ++ JSON_value (snd kv))%string.

(** An array index: the canonical decimal text of an integer below
    [2^32 - 1]. *)
Definition array_index (k : string) : option Z :=
  match list_ascii_of_string k with
  | [] => None
  | c :: rest =>
      if Ascii.eqb c "0" && negb (Nat.eqb (List.length rest) 0) then None
      else match digits_from 0 (c :: rest) with
           | Some n => if n <? 4294967295 then Some n else None
           | None => None
           end
  end.

Fixpoint insert_index (n : Z) (kv : string * value)
  (l : list (Z * (string * value))) : list (Z * (string * value)) :=
  match l with
  | [] => [(n, kv)]
  | (m, kv') :: l' =>
      if n <? m then (n, kv) :: l else (m, kv') :: insert_index n kv l'
  end.

(** The own properties of [o] in the order the platform enumerates them:
    those named by an array index first, by ascending index, then the others
    in the order of their creation. *)
Definition own_properties (o : obj) : obj :=
  map snd
    (fold_left (fun acc kv => match array_index (fst kv) with
                              | Some n => insert_index n kv acc
                              | None => acc
                              end) o [])
  ++ filter (fun kv => match array_index (fst kv) with
                       | Some _ => false
                       | None => true
                       end) o.

(** [JSON.stringify(o)]: the members in the order of enumeration, those
    whose value is [undefined] left out. *)
Definition JSON_stringify (o : obj) : string :=
  ("{" ++ String.concat ","
       (map JSON_member
            (filter (fun kv => negb (is_undefined (snd kv)))
                    (own_properties o)))
   ++ "}")%string.

(** ** [Map] and [Set]

    Both iterate in insertion order, so a [Map] is the list of its entries
    and a [Set] the list of its elements, without repeated keys. *)

Section MapSet.
Context {V : Type}.

Definition Map : Type := list (value * V).

Fixpoint Map_get (m : Map) (k : value) : option V :=
  match m with
  | [] => None
  | (k', v) :: m' => if value_eqb k' k then Some v else Map_get m' k
  end.

(** [m.set(k, v)]: a key already present keeps its place. *)
Fixpoint Map_set (k : value) (v : V) (m : Map) : Map :=
  match m with
  | [] => [(k, v)]
  | (k', v') :: m' =>
      if value_eqb k' k then (k', v) :: m' else (k', v') :: Map_set k v m'
  end.

(** [new Map(entries)]. *)
Definition Map_of (entries : list (value * V)) : Map :=
  fold_left (fun m kv => Map_set (fst kv) (snd kv) m) entries [].

Definition Map_keys (m : Map) : list value := List.map fst m.
Definition Map_values (m : Map) : list V := List.map snd m.
End MapSet.

Arguments Map V : clear implicits.

Definition Set_has (s : list value) (k : value) : bool :=
  existsb (value_eqb k) s.

Definition Set_add (k : value) (s : list value) : list value :=
  if Set_has s k then s else (s ++ [k])%list.

(** [new Set(elements)]. *)
Definition Set_of (elements : list value) : list value :=
  fold_left (fun s k => Set_add k s) elements [].

(** ** Exceptions and stateful computations

    [throw new Error(message)]; an [async] function that rejects is a
    computation that ends in [Threw]. *)
Inductive exn : Type :=
| Error (message : string)
| TypeError
| SyntaxError
| InvalidCharacterError
| OperationError
| DataError.

Inductive result (A : Type) : Type :=
| Ok (a : A)
| Threw (e : exn).
Arguments Ok {A} a.
Arguments Threw {A} e.

(** A computation over the module-level variables [S]. *)
Definition M (S A : Type) : Type := S -> result A * S.

Definition ret {S A} (a : A) : M S A := fun s => (Ok a, s).
Definition throw {S A} (e : exn) : M S A := fun s => (Threw e, s).
Definition bind {S A B} (c : M S A) (k : A -> M S B) : M S B :=
  fun s => match c s with
           | (Ok a, s') => k a s'
           | (Threw e, s') => (Threw e, s')
           end.
Definition read {S} : M S S := fun s => (Ok s, s).
Definition write {S} (s : S) : M S unit := fun _ => (Ok tt, s).

(** [try { c } catch (error) { h error }]. *)
Definition try_catch {S A} (c : M S A) (h : exn -> M S A) : M S A :=
  fun s => match c s with
           | (Ok a, s') => (Ok a, s')
           | (Threw e, s') => h e s'
           end.

Declare Scope js_scope.
Delimit Scope js_scope with js.
Notation "x <- c ;; k" := (bind c (fun x => k))
  (at level 61, c at next level, right associativity) : js_scope.
Notation "c ;;; k" := (bind c (fun _ => k))
  (at level 61, right associativity) : js_scope.

(** What the program reads from outside: the [k]-th reading of the clock
    as [new Date().toISOString()] returns it, and the [k]-th identifier
    [crypto.randomUUID()] draws. *)
Record World : Type := mkWorld {
  clock : nat -> string;
  randomUUID : nat -> string
}.

End JS.

(* ===================================================================== *)
(** * src/sync/conflict-resolver.js                                       *)
(* ===================================================================== *)

Module ConflictResolver.
Import JS.

(** A vault item (credential or bookmark) is a plain object. *)
Definition item : Type := obj.

Definition item_id (it : item) : value := get "id" it.
Definition updatedAt (it : item) : value := get "updatedAt" it.

Record Conflict : Type := mkConflict {
  conflict_id : value;
  conflict_local : item;
  conflict_remote : item;
  localTime : number;
  remoteTime : number
}.

Definition by_id (items : list item) : Map item :=
  Map_of (map (fun it => (item_id it, it)) items).

(** [detectConflicts(localItems, remoteItems)]. *)
Definition detectConflicts (localItems remoteItems : list item)
  : list Conflict :=
  let remoteMap := by_id remoteItems in
  flat_map
    (fun localItem =>
       match Map_get remoteMap (item_id localItem) with
       | Some remoteItem =>
           let lt := Date_getTime (updatedAt localItem) in
           let rt := Date_getTime (updatedAt remoteItem) in
           if negb (String.eqb (JSON_stringify localItem)
                               (JSON_stringify remoteItem))
              && strict_neq lt rt
           then [mkConflict (item_id localItem) localItem remoteItem lt rt]
           else []
       | None => []
       end)
    localItems.

Record Resolution : Type := mkResolution {
  keepLocal : list item;
  keepRemote : list item
}.

(** [resolveConflictsLastWriteWins(conflicts)]. *)
Definition resolveConflictsLastWriteWins (conflicts : list Conflict)
  : Resolution :=
  fold_left
    (fun resolved conflict =>
       if gt (localTime conflict) (remoteTime conflict)
       then mkResolution (keepLocal resolved ++ [conflict_local conflict])
                         (keepRemote resolved)
       else mkResolution (keepLocal resolved)
                         (keepRemote resolved ++ [conflict_remote conflict]))
    conflicts (mkResolution [] []).

Record MergeResult : Type := mkMergeResult {
  merged : list item;
  conflicts : list Conflict
}.

(** The branch of [mergeItems] taken when no conflict was detected. *)
Definition simple_merge (localItems remoteItems : list item) : list item :=
  let localMap := by_id localItems in
  let remoteMap := by_id remoteItems in
  let allIds := Set_of (Map_keys localMap ++ Map_keys remoteMap) in
  flat_map
    (fun i =>
       match Map_get localMap i, Map_get remoteMap i with
       | Some local, Some remote =>
           let lt := Date_getTime (updatedAt local) in
           let rt := Date_getTime (updatedAt remote) in
           [if gt lt rt then local else remote]
       | Some local, None => [local]
       | None, Some remote => [remote]
       | None, None => []
       end)
    allIds.

(** The [last-write-wins] branch of [mergeItems]. *)
Definition lww_merge (localItems remoteItems : list item)
  (detected : list Conflict) : list item :=
  let resolution := resolveConflictsLastWriteWins detected in
  let conflictIds := Set_of (map conflict_id detected) in
  let nonConflictLocal :=
    filter (fun it => negb (Set_has conflictIds (item_id it))) localItems in
  let nonConflictRemote :=
    filter (fun it => negb (Set_has conflictIds (item_id it))) remoteItems in
  let all :=
    nonConflictLocal ++ nonConflictRemote
      ++ keepLocal resolution ++ keepRemote resolution in
  Map_values (by_id all).

(** [mergeItems(localItems, remoteItems, strategy)]; [strategy] is [None]
    when the caller passes [undefined], which selects the default. *)
Definition mergeItems (localItems remoteItems : list item)
  (strategy : option string) : MergeResult :=
  let strategy :=
    match strategy with Some s => s | None => "last-write-wins"%string end in
  let detected := detectConflicts localItems remoteItems in
  if Nat.eqb (List.length detected) 0
  then mkMergeResult (simple_merge localItems remoteItems) []
  else if String.eqb strategy "last-write-wins"
  then mkMergeResult (lww_merge localItems remoteItems detected) []
  else mkMergeResult localItems detected.

(** ** Notions used to state the properties of the merge *)

Definition with_id (k : value) (l : list item) : list item :=
  filter (fun x => value_eqb (item_id x) k) l.

(** Every entry of the map sits under the id of its item, and no key
    occurs twice. *)
Definition keyed (m : Map item) : Prop :=
  NoDup (Map_keys m) /\ Forall (fun kv => fst kv = item_id (snd kv)) m.

Definition option_list {A} (o : option A) : list A :=
  match o with Some a => [a] | None => [] end.

(** The last item of [l] whose id is [k], or [acc] when there is none. *)
Definition last_with (k : value) (l : list item) (acc : option item)
  : option item :=
  fold_left (fun acc x => if value_eqb (item_id x) k then Some x else acc)
            l acc.

(** What [detectConflicts] does with one local item. *)
Definition detect_one (remoteMap : Map item) (localItem : item)
  : list Conflict :=
  match Map_get remoteMap (item_id localItem) with
  | Some remoteItem =>
      let lt := Date_getTime (updatedAt localItem) in
      let rt := Date_getTime (updatedAt remoteItem) in
      if negb (String.eqb (JSON_stringify localItem)
                          (JSON_stringify remoteItem))
         && strict_neq lt rt
      then [mkConflict (item_id localItem) localItem remoteItem lt rt]
      else []
  | None => []
  end.

(** A conflict pairs a local item with the remote item of the same id. *)
Definition pairs_up (c : Conflict) : Prop :=
  item_id (conflict_local c) = conflict_id c
  /\ item_id (conflict_remote c) = conflict_id c.

Definition local_newer (c : Conflict) : bool :=
  gt (localTime c) (remoteTime c).

(** The merged result the manual policy is said to give: the items of both
    sides whose id is in no conflict. *)
Definition non_conflicting_subset (A B : list item) : list item :=
  let conflictIds := map conflict_id (detectConflicts A B) in
  filter (fun it => negb (Set_has conflictIds (item_id it))) (A ++ B).

(** Three items: two versions of one credential and another credential. *)
Definition newer_item : item :=
  [("id", VStr "1"); ("url", VStr "b.com");
   ("updatedAt", VStr "2024-01-01T10:05:00.000Z")]%string.
Definition older_item : item :=
  [("id", VStr "1"); ("url", VStr "a.com");
   ("updatedAt", VStr "2024-01-01T10:00:00.000Z")]%string.
Definition other_item : item :=
  [("id", VStr "2"); ("url", VStr "c.com");
   ("updatedAt", VStr "2024-01-01T09:00:00.000Z")]%string.

End ConflictResolver.

(* ===================================================================== *)
(** * src/crypto/vault.js                                                 *)
(* ===================================================================== *)

Module Vault.
Import JS.
Local Open Scope js_scope.

Definition item : Type := obj.

Record vault : Type := mkVault {
  passwords : list item;
  bookmarks : list item;
  metadata : obj
}.

(** What [saveVault] hands to storage: the snapshot it sealed and the
    master password it sealed it under. *)
Record sealed : Type := mkSealed {
  sealed_vault : vault;
  sealed_under : string
}.

(** The module-level variables of vault.js, the two storage keys it
    writes, and how much of the outside world has been consumed. *)
Record state : Type := mkState {
  vaultCache : option vault;
  masterPasswordCache : option string;
  autoLockTimer : bool;
  secure_vault : option sealed;
  vault_backup : list (string * sealed);
  clockReads : nat;
  uuidsDrawn : nat
}.

Definition with_cache (v : option vault) (s : state) : state :=
  mkState v (masterPasswordCache s) (autoLockTimer s) (secure_vault s)
          (vault_backup s) (clockReads s) (uuidsDrawn s).

Section Operations.
Variable w : World.

(** [new Date().toISOString()]. *)
Definition now : M state string :=
  fun s => (Ok (clock w (clockReads s)),
            mkState (vaultCache s) (masterPasswordCache s) (autoLockTimer s)
                    (secure_vault s) (vault_backup s)
                    (S (clockReads s)) (uuidsDrawn s)).

(** [crypto.randomUUID()]. *)
Definition newUUID : M state string :=
  fun s => (Ok (randomUUID w (uuidsDrawn s)),
            mkState (vaultCache s) (masterPasswordCache s) (autoLockTimer s)
                    (secure_vault s) (vault_backup s)
                    (clockReads s) (S (uuidsDrawn s))).

(** [ensureUnlocked()]: both caches must be truthy; the empty master
    password is falsy.  Returns the resident vault. *)
Definition ensureUnlocked : M state (vault * string) :=
  fun s => match vaultCache s, masterPasswordCache s with
           | Some v, Some (String c p) => (Ok (v, String c p), s)
           | _, _ => (Threw (Error "Vault is locked. Please unlock first."), s)
           end.

(** [resetAutoLockTimer()]: the pending timer is cleared and a new one
    armed. *)
Definition resetAutoLockTimer : M state unit :=
  fun s => (Ok tt,
            mkState (vaultCache s) (masterPasswordCache s) true
                    (secure_vault s) (vault_backup s)
                    (clockReads s) (uuidsDrawn s)).

(** [createBackup(encrypted)] of local-storage.js: the new backup goes
    last and the five most recent are kept. *)
Definition createBackup (encrypted : sealed) : M state unit :=
  timestamp <- now ;;
  fun s =>
    let backups := (vault_backup s ++ [(timestamp, encrypted)])%list in
    let recentBackups := skipn (List.length backups - 5) backups in
    (Ok tt,
     mkState (vaultCache s) (masterPasswordCache s) (autoLockTimer s)
             (secure_vault s) recentBackups (clockReads s) (uuidsDrawn s)).

(** [saveVault()]. *)
Definition saveVault : M state unit :=
  vm <- ensureUnlocked ;;
  let encrypted := mkSealed (fst vm) (snd vm) in
  (fun s => (Ok tt,
             mkState (vaultCache s) (masterPasswordCache s) (autoLockTimer s)
                     (Some encrypted) (vault_backup s)
                     (clockReads s) (uuidsDrawn s))) ;;;
  createBackup encrypted.

(** [vaultCache.passwords = ps] and the like: the resident vault with one
    of its arrays replaced. *)
Definition set_passwords (ps : list item) : M state unit :=
  fun s => match vaultCache s with
           | Some v => (Ok tt, with_cache
                          (Some (mkVault ps (bookmarks v) (metadata v))) s)
           | None => (Threw TypeError, s)
           end.

Definition set_bookmarks (bs : list item) : M state unit :=
  fun s => match vaultCache s with
           | Some v => (Ok tt, with_cache
                          (Some (mkVault (passwords v) bs (metadata v))) s)
           | None => (Threw TypeError, s)
           end.

(** [getPasswords()]. *)
Definition getPasswords : M state (list item) :=
  vm <- ensureUnlocked ;;
  resetAutoLockTimer ;;;
  ret (passwords (fst vm)).

(** [getBookmarks()]. *)
Definition getBookmarks : M state (list item) :=
  vm <- ensureUnlocked ;;
  resetAutoLockTimer ;;;
  ret (bookmarks (fst vm)).

(** The object literal of [addPassword] and [addBookmark]:
    [{ id, ...entry, createdAt, updatedAt, deletedAt: null }]. *)
Definition new_entry (uuid : string) (given : obj)
  (createdAt updatedAt : string) : item :=
  set "deletedAt" VNull
    (set "updatedAt" (VStr updatedAt)
       (set "createdAt" (VStr createdAt)
          (spread [("id"%string, VStr uuid)] given))).

(** [addPassword(passwordEntry)]. *)
Definition addPassword (passwordEntry : obj) : M state item :=
  vm <- ensureUnlocked ;;
  uuid <- newUUID ;;
  createdAt <- now ;;
  updatedAt <- now ;;
  let entry := new_entry uuid passwordEntry createdAt updatedAt in
  set_passwords (passwords (fst vm) ++ [entry]) ;;;
  saveVault ;;;
  resetAutoLockTimer ;;;
  ret entry.

(** [addBookmark(bookmarkEntry)]. *)
Definition addBookmark (bookmarkEntry : obj) : M state item :=
  vm <- ensureUnlocked ;;
  uuid <- newUUID ;;
  createdAt <- now ;;
  updatedAt <- now ;;
  let entry := new_entry uuid bookmarkEntry createdAt updatedAt in
  set_bookmarks (bookmarks (fst vm) ++ [entry]) ;;;
  saveVault ;;;
  resetAutoLockTimer ;;;
  ret entry.

(** [items.findIndex(p => p.id === id)]; [None] is [-1]. *)
Fixpoint findIndex (i : value) (items : list item) : option nat :=
  match items with
  | [] => None
  | it :: rest =>
      if value_eqb (get "id" it) i then Some O
      else option_map S (findIndex i rest)
  end.

(** [items[index] = it] for an index within the array. *)
Fixpoint assign (index : nat) (it : item) (items : list item) : list item :=
  match items, index with
  | [], _ => []
  | _ :: rest, O => it :: rest
  | x :: rest, S n => x :: assign n it rest
  end.

(** [updatePassword(id, updates)]. *)
Definition updatePassword (i : value) (updates : obj) : M state item :=
  vm <- ensureUnlocked ;;
  match findIndex i (passwords (fst vm)) with
  | None => throw (Error "Password not found")
  | Some index =>
      updatedAt <- now ;;
      let updated :=
        set "updatedAt" (VStr updatedAt)
          (spread (spread [] (nth index (passwords (fst vm)) [])) updates) in
      set_passwords (assign index updated (passwords (fst vm))) ;;;
      saveVault ;;;
      resetAutoLockTimer ;;;
      ret updated
  end.

(** [deletePassword(id)]: a soft delete. *)
Definition deletePassword (i : value) : M state unit :=
  vm <- ensureUnlocked ;;
  match findIndex i (passwords (fst vm)) with
  | None => throw (Error "Password not found")
  | Some index =>
      deletedAt <- now ;;
      let deleted :=
        set "deletedAt" (VStr deletedAt)
          (nth index (passwords (fst vm)) []) in
      set_passwords (assign index deleted (passwords (fst vm))) ;;;
      saveVault ;;;
      resetAutoLockTimer
  end.

(** [updateBookmark(id, updates)]. *)
Definition updateBookmark (i : value) (updates : obj) : M state item :=
  vm <- ensureUnlocked ;;
  match findIndex i (bookmarks (fst vm)) with
  | None => throw (Error "Bookmark not found")
  | Some index =>
      updatedAt <- now ;;
      let updated :=
        set "updatedAt" (VStr updatedAt)
          (spread (spread [] (nth index (bookmarks (fst vm)) [])) updates) in
      set_bookmarks (assign index updated (bookmarks (fst vm))) ;;;
      saveVault ;;;
      resetAutoLockTimer ;;;
      ret updated
  end.

(** [deleteBookmark(id)]: a soft delete. *)
Definition deleteBookmark (i : value) : M state unit :=
  vm <- ensureUnlocked ;;
  match findIndex i (bookmarks (fst vm)) with
  | None => throw (Error "Bookmark not found")
  | Some index =>
      deletedAt <- now ;;
      let deleted :=
        set "deletedAt" (VStr deletedAt)
          (nth index (bookmarks (fst vm)) []) in
      set_bookmarks (assign index deleted (bookmarks (fst vm))) ;;;
      saveVault ;;;
      resetAutoLockTimer
  end.

(** [lockVault()]. *)
Definition lockVault : M state unit :=
  fun s => (Ok tt,
            mkState None None false (secure_vault s) (vault_backup s)
                    (clockReads s) (uuidsDrawn s)).
End Operations.

(** ** Notions used to state the properties of the vault *)

Local Open Scope string_scope.
Local Open Scope list_scope.

(** The vault is unlocked: both caches are truthy. *)
Definition unlocked (s : state) : Prop :=
  exists v c p,
    vaultCache s = Some v /\ masterPasswordCache s = Some (String c p).

Definition resident_passwords (s : state) : list item :=
  match vaultCache s with Some v => passwords v | None => [] end.

Definition resident_bookmarks (s : state) : list item :=
  match vaultCache s with Some v => bookmarks v | None => [] end.

(** The item [entry] stored for the entry [given]: the id of [given] when
    it has one, the generated UUID otherwise, and the stamps of the call. *)
Definition stored_for (w : World) (s : state) (given : obj) (entry : item)
  : Prop :=
  (has "id" given = true -> get "id" entry = get "id" given)
  /\ (has "id" given = false ->
      get "id" entry = VStr (randomUUID w (uuidsDrawn s)))
  /\ get "createdAt" entry = VStr (clock w (clockReads s))
  /\ get "updatedAt" entry = VStr (clock w (S (clockReads s)))
  /\ get "deletedAt" entry = VNull.

(** A world, an unlocked empty vault and an entry to run the operations
    on. *)
Definition example_world : World :=
  mkWorld (fun k => match k with
                    | O => "2024-01-01T10:00:00.000Z"
                    | 1%nat => "2024-01-01T10:00:00.001Z"
                    | 2%nat => "2024-01-01T10:00:00.002Z"
                    | _ => "2024-01-02T08:30:00.000Z"
                    end)
          (fun k => match k with
                    | O => "3f2b8c1e-0000-4000-8000-000000000001"
                    | _ => "3f2b8c1e-0000-4000-8000-000000000002"
                    end).

Definition empty_unlocked : state :=
  mkState (Some (mkVault [] [] [("version", VStr "1.0.0")]))
          (Some "correct horse") true None [] O O.

Definition captured_entry : obj :=
  [("id", VStr "from-another-device"); ("url", VStr "a.com");
   ("username", VStr "u"); ("password", VStr "p");
   ("createdAt", VStr "1999-12-31T23:59:59.000Z");
   ("deletedAt", VStr "1999-12-31T23:59:59.000Z")].

End Vault.

(* ===================================================================== *)
(** * Text and binary encodings of the platform                           *)
(* ===================================================================== *)

Module Encoding.
Import JS.

(** A JavaScript string is a sequence of 16-bit code units. *)
Definition jsstring : Type := list Z.

(** A string literal of the source (ASCII). *)
Definition js (s : string) : jsstring :=
  map (fun c => Z.of_N (N_of_ascii c)) (list_ascii_of_string s).

(** The contents of an [ArrayBuffer] or [Uint8Array]. *)
Definition bytes : Type := list Byte.byte.

Definition Z_of_byte (b : Byte.byte) : Z := Z.of_N (Byte.to_N b).

(** Storing a number into a [Uint8Array] keeps it modulo 256. *)
Definition byte_of_Z (z : Z) : Byte.byte :=
  match Byte.of_N (Z.to_N (z mod 256)) with
  | Some b => b
  | None => Byte.x00
  end.

(** ** [TextEncoder.prototype.encode]: UTF-8 of the string's scalar values *)

Definition is_lead (u : Z) : bool := (0xD800 <=? u) && (u <=? 0xDBFF).
Definition is_trail (u : Z) : bool := (0xDC00 <=? u) && (u <=? 0xDFFF).

(** Conversion to scalar values: a surrogate pair is one code point, a
    surrogate on its own becomes U+FFFD. *)
Fixpoint scalar_values (s : jsstring) : list Z :=
  match s with
  | [] => []
  | u :: rest =>
      if is_lead u then
        match rest with
        | l :: rest' =>
            if is_trail l
            then (0x10000 + (u - 0xD800) * 0x400 + (l - 0xDC00))
                   :: scalar_values rest'
            else 0xFFFD :: scalar_values rest
        | [] => [0xFFFD]
        end
      else if is_trail u then 0xFFFD :: scalar_values rest
      else u :: scalar_values rest
  end.

Definition utf8_encode_scalar (c : Z) : list Z :=
  if c <=? 0x7F then [c]
  else if c <=? 0x7FF then [0xC0 + c / 64; 0x80 + c mod 64]
  else if c <=? 0xFFFF then
    [0xE0 + c / 4096; 0x80 + (c / 64) mod 64; 0x80 + c mod 64]
  else
    [0xF0 + c / 262144; 0x80 + (c / 4096) mod 64;
     0x80 + (c / 64) mod 64; 0x80 + c mod 64].

Definition TextEncoder_encode (s : jsstring) : bytes :=
  map byte_of_Z (flat_map utf8_encode_scalar (scalar_values s)).

(** ** [TextDecoder.prototype.decode]: the UTF-8 decoder with replacement *)

Record decoder : Type := mkDecoder {
  code_point : Z;
  bytes_needed : Z;
  lower_boundary : Z;
  upper_boundary : Z
}.

Definition decoder_init : decoder := mkDecoder 0 0 0x80 0xBF.

(** A byte read while no sequence is open. *)
Definition decoder_start (b : Z) : decoder * list Z :=
  if b <=? 0x7F then (decoder_init, [b])
  else if (0xC2 <=? b) && (b <=? 0xDF) then
    (mkDecoder (b mod 32) 1 0x80 0xBF, [])
  else if (0xE0 <=? b) && (b <=? 0xEF) then
    (mkDecoder (b mod 16) 2
               (if b =? 0xE0 then 0xA0 else 0x80)
               (if b =? 0xED then 0x9F else 0xBF), [])
  else if (0xF0 <=? b) && (b <=? 0xF4) then
    (mkDecoder (b mod 8) 3
               (if b =? 0xF0 then 0x90 else 0x80)
               (if b =? 0xF4 then 0x8F else 0xBF), [])
  else (decoder_init, [0xFFFD]).

(** One byte of input: the new state and the code points emitted.  A byte
    that cannot continue the open sequence ends it with U+FFFD and is read
    again as the start of a new one. *)
Definition decoder_step (d : decoder) (b : Z) : decoder * list Z :=
  if bytes_needed d =? 0 then decoder_start b
  else if (b <? lower_boundary d) || (upper_boundary d <? b) then
    let (d', out) := decoder_start b in (d', 0xFFFD :: out)
  else
    let cp := code_point d * 64 + b mod 64 in
    if bytes_needed d =? 1 then (decoder_init, [cp])
    else (mkDecoder cp (bytes_needed d - 1) 0x80 0xBF, []).

Fixpoint decoder_run (d : decoder) (input : list Z) : list Z :=
  match input with
  | [] => if bytes_needed d =? 0 then [] else [0xFFFD]
  | b :: rest =>
      let (d', out) := decoder_step d b in out ++ decoder_run d' rest
  end.

(** With the default [ignoreBOM: false] a leading byte order mark is
    dropped. *)
Definition strip_BOM (input : list Z) : list Z :=
  match input with
  | b0 :: b1 :: b2 :: rest =>
      if (b0 =? 0xEF) && (b1 =? 0xBB) && (b2 =? 0xBF) then rest else input
  | _ => input
  end.

Definition utf16_of_scalar (c : Z) : list Z :=
  if c <=? 0xFFFF then [c]
  else [0xD800 + (c - 0x10000) / 1024; 0xDC00 + (c - 0x10000) mod 1024].

Definition TextDecoder_decode (b : bytes) : jsstring :=
  flat_map utf16_of_scalar
    (decoder_run decoder_init (strip_BOM (map Z_of_byte b))).

(** ** [btoa] and [atob] *)

(** The character of a 6-bit group in the base64 alphabet. *)
Definition base64_char (n : Z) : Z :=
  if n <? 26 then 65 + n
  else if n <? 52 then 71 + n
  else if n <? 62 then n - 4
  else if n =? 62 then 43
  else 47.

Definition base64_value (c : Z) : option Z :=
  if (65 <=? c) && (c <=? 90) then Some (c - 65)
  else if (97 <=? c) && (c <=? 122) then Some (c - 71)
  else if (48 <=? c) && (c <=? 57) then Some (c + 4)
  else if c =? 43 then Some 62
  else if c =? 47 then Some 63
  else None.

Fixpoint base64_encode (l : list Z) : list Z :=
  match l with
  | [] => []
  | [a] => [base64_char (a / 4); base64_char (a mod 4 * 16); 61; 61]
  | [a; b] =>
      [base64_char (a / 4); base64_char (a mod 4 * 16 + b / 16);
       base64_char (b mod 16 * 4); 61]
  | a :: b :: c :: rest =>
      base64_char (a / 4) :: base64_char (a mod 4 * 16 + b / 16)
        :: base64_char (b mod 16 * 4 + c / 64) :: base64_char (c mod 64)
        :: base64_encode rest
  end.

(** [btoa(s)]: fails on a code unit above U+00FF. *)
Definition btoa (s : jsstring) : result jsstring :=
  if forallb (fun u => (0 <=? u) && (u <=? 255)) s
  then Ok (base64_encode s)
  else Threw InvalidCharacterError.

Definition is_ascii_whitespace (c : Z) : bool :=
  (c =? 9) || (c =? 10) || (c =? 12) || (c =? 13) || (c =? 32).

(** One or two [=] at the end are dropped. *)
Definition strip_padding (l : list Z) : list Z :=
  match rev l with
  | a :: b :: r =>
      if a =? 61 then (if b =? 61 then rev r else rev (b :: r)) else l
  | [a] => if a =? 61 then [] else l
  | [] => l
  end.

Fixpoint base64_values (l : list Z) : option (list Z) :=
  match l with
  | [] => Some []
  | c :: rest =>
      match base64_value c, base64_values rest with
      | Some v, Some vs => Some (v :: vs)
      | _, _ => None
      end
  end.

(** Groups of four 6-bit values give three bytes; of a last group of three
    or two the surplus low bits are discarded. *)
Fixpoint base64_decode (l : list Z) : list Z :=
  match l with
  | s1 :: s2 :: s3 :: s4 :: rest =>
      (s1 * 4 + s2 / 16) :: (s2 mod 16 * 16 + s3 / 4) :: (s3 mod 4 * 64 + s4)
        :: base64_decode rest
  | [s1; s2; s3] => [s1 * 4 + s2 / 16; s2 mod 16 * 16 + s3 / 4]
  | [s1; s2] => [s1 * 4 + s2 / 16]
  | _ => []
  end.

(** [atob(s)]: the forgiving base64 decoding. *)
Definition atob (s : jsstring) : result jsstring :=
  let data := filter (fun c => negb (is_ascii_whitespace c)) s in
  let data :=
    if Nat.eqb (Nat.modulo (List.length data) 4) 0
    then strip_padding data else data in
  if Nat.eqb (Nat.modulo (List.length data) 4) 1
  then Threw InvalidCharacterError
  else match base64_values data with
       | Some vs => Ok (base64_decode vs)
       | None => Threw InvalidCharacterError
       end.

(** ** Notions used to state the properties of the encodings *)

(** The 6-bit groups of a byte string, the last one padded with zero
    bits. *)
Fixpoint sextets (l : list Z) : list Z :=
  match l with
  | [] => []
  | [a] => [a / 4; a mod 4 * 16]
  | [a; b] => [a / 4; a mod 4 * 16 + b / 16; b mod 16 * 4]
  | a :: b :: c :: rest =>
      a / 4 :: (a mod 4 * 16 + b / 16) :: (b mod 16 * 4 + c / 64)
        :: c mod 64 :: sextets rest
  end.

(** The [=] signs that complete the last group of four characters. *)
Fixpoint padding (l : list Z) : list Z :=
  match l with
  | [] => []
  | [_] => [61; 61]
  | [_; _] => [61]
  | _ :: _ :: _ :: rest => padding rest
  end.

Definition octet (z : Z) : Prop := 0 <= z < 256.
Definition sextet (z : Z) : Prop := 0 <= z < 64.

(** A text in which every surrogate is half of a pair, and every code unit
    is one (16 bits). *)
Fixpoint well_formed_text (s : jsstring) : bool :=
  match s with
  | [] => true
  | u :: rest =>
      if is_lead u then
        match rest with
        | l :: rest' => is_trail l && well_formed_text rest'
        | [] => false
        end
      else negb (is_trail u) && (0 <=? u) && (u <=? 0xFFFF)
           && well_formed_text rest
  end.

Definition starts_with_BOM (s : jsstring) : bool :=
  match s with
  | u :: _ => u =? 0xFEFF
  | [] => false
  end.

(** The texts UTF-8 carries unchanged. *)
Definition carried_by_utf8 (s : jsstring) : bool :=
  well_formed_text s && negb (starts_with_BOM s).

Definition scalar (c : Z) : Prop :=
  0 <= c <= 0xD7FF \/ 0xE000 <= c <= 0x10FFFF.

End Encoding.

(* ===================================================================== *)
(** * The Web Crypto API and [JSON.parse], as an interface                 *)
(* ===================================================================== *)

Module Platform.
Import JS Encoding.

Inductive hash : Type := SHA_256 | SHA_512.

(** The value [JSON.parse] returns. *)
#[local] Set Warnings "-register-all".
Inductive json : Type :=
| JNull
| JBool (b : bool)
| JNum (n : Z)
| JStr (s : jsstring)
| JArr (elements : list json)
| JObj (members : list (jsstring * json)).

(** The primitives the program calls and what it relies on from them.  A
    key is the byte string [exportKey('raw', ...)] gives; [None] stands for
    the rejection of the promise. *)
Class WebCrypto : Type := {
  (** [deriveKey({name: 'PBKDF2', salt, iterations, hash}, key,
      {name: 'AES-GCM', length}, ...)] on the key imported from
      [password]. *)
  PBKDF2 : hash -> bytes -> bytes -> Z -> Z -> option bytes;
  (** [digest('SHA-256', data)]. *)
  SHA256 : bytes -> bytes;
  (** [encrypt({name: 'AES-GCM', iv}, key, data)] and its inverse, which
      rejects whatever does not authenticate. *)
  AES_GCM_encrypt : bytes -> bytes -> bytes -> option bytes;
  AES_GCM_decrypt : bytes -> bytes -> bytes -> option bytes;
  (** [sign('HMAC', key, data)] with hash SHA-512. *)
  HMAC_SHA512 : bytes -> bytes -> bytes;
  (** [JSON.parse(text)]. *)
  JSON_parse : jsstring -> option json;
  (** [String(v)] for a number, an array or an object. *)
  ToString_other : json -> result jsstring;

  PBKDF2_derives :
    forall h password salt iterations,
      0 < iterations < 2 ^ 32 ->
      exists key, PBKDF2 h password salt iterations 256 = Some key
                  /\ List.length key = 32%nat;
  AES_GCM_opens_sealed :
    forall key iv data,
      List.length key = 32%nat -> List.length iv = 12%nat ->
      exists ciphertext,
        AES_GCM_encrypt key iv data = Some ciphertext
        /\ AES_GCM_decrypt key iv ciphertext = Some data;
  HMAC_SHA512_length :
    forall key data, List.length (HMAC_SHA512 key data) = 64%nat
}.

End Platform.

(* ===================================================================== *)
(** * src/crypto/encryption.js                                            *)
(* ===================================================================== *)

Module Encryption.
Import JS Encoding Platform.

Definition KEY_LENGTH : Z := 256.
Definition PBKDF2_ITERATIONS : Z := 600000.
Definition SALT_LENGTH : nat := 32.
Definition IV_LENGTH : nat := 12.
Definition PEPPER : jsstring := js "SecureSync-v1-pepper-2026".

(** The encrypted envelope; [iterations] is [None] in an envelope written
    before the field existed. *)
Record envelope : Type := mkEnvelope {
  ciphertext : jsstring;
  salt : jsstring;
  iv : jsstring;
  iterations : option Z
}.

(** Computations of this module have no variables of their own. *)
Definition lift {A} (e : exn) (o : option A) : result A :=
  match o with
  | Some a => Ok a
  | None => Threw e
  end.

Definition and_then {A B} (r : result A) (k : A -> result B) : result B :=
  match r with
  | Ok a => k a
  | Threw e => Threw e
  end.

Notation "x <- c ;; k" := (and_then c (fun x => k))
  (at level 61, c at next level, right associativity).

(** [arrayBufferToBase64(buffer)]. *)
Definition arrayBufferToBase64 (buffer : bytes) : result jsstring :=
  let binary := map Z_of_byte buffer in
  btoa binary.

(** [base64ToArrayBuffer(base64)]. *)
Definition base64ToArrayBuffer (base64 : jsstring) : result bytes :=
  binary <- atob base64 ;;
  Ok (map byte_of_Z binary).

(** [constantTimeCompare(a, b)] on two strings. *)
Definition constantTimeCompare (a b : jsstring) : bool :=
  if negb (Nat.eqb (List.length a) (List.length b)) then false
  else
    let result :=
      fold_left (fun result ab => Z.lor result (Z.lxor (fst ab) (snd ab)))
                (combine a b) 0 in
    result =? 0.

Section WithPlatform.
Context {crypto : WebCrypto}.

(** [deriveKey(masterPassword, salt, iterations)]. *)
Definition deriveKey (masterPassword : jsstring) (salt : bytes)
  (iterations : Z) : result bytes :=
  let pepperedPassword := masterPassword ++ PEPPER in
  let passwordBuffer := TextEncoder_encode pepperedPassword in
  let keyMaterial := passwordBuffer in
  intermediateKey <-
    lift OperationError
      (PBKDF2 SHA_256 keyMaterial salt iterations KEY_LENGTH) ;;
  let exportedKey := intermediateKey in
  let round2Suffix := TextEncoder_encode (js "round2") in
  let combinedSalt := salt ++ round2Suffix in
  let secondSalt := SHA256 combinedSalt in
  let secondKeyMaterial := exportedKey in
  lift OperationError
    (PBKDF2 SHA_512 secondKeyMaterial secondSalt (iterations / 2)
            KEY_LENGTH).

(** [encrypt(plaintext, masterPassword)]; [salt] and [iv] are what
    [generateSalt()] and [generateIV()] drew. *)
Definition encrypt (plaintext masterPassword : jsstring)
  (salt iv : bytes) : result envelope :=
  let data := TextEncoder_encode plaintext in
  key <- deriveKey masterPassword salt PBKDF2_ITERATIONS ;;
  ciphertext <- lift OperationError (AES_GCM_encrypt key iv data) ;;
  c64 <- arrayBufferToBase64 ciphertext ;;
  s64 <- arrayBufferToBase64 salt ;;
  i64 <- arrayBufferToBase64 iv ;;
  Ok (mkEnvelope c64 s64 i64 (Some PBKDF2_ITERATIONS)).

(** [iterations || 100000]. *)
Definition iterations_or_legacy (iterations : option Z) : Z :=
  match iterations with
  | Some n => if n =? 0 then 100000 else n
  | None => 100000
  end.

(** [decrypt(encryptedData, masterPassword)]. *)
Definition decrypt (encryptedData : envelope) (masterPassword : jsstring)
  : result jsstring :=
  ciphertextBuffer <- base64ToArrayBuffer (ciphertext encryptedData) ;;
  saltBuffer <- base64ToArrayBuffer (salt encryptedData) ;;
  ivBuffer <- base64ToArrayBuffer (iv encryptedData) ;;
  let iterCount := iterations_or_legacy (iterations encryptedData) in
  key <- deriveKey masterPassword saltBuffer iterCount ;;
  match AES_GCM_decrypt key ivBuffer ciphertextBuffer with
  | Some decrypted => Ok (TextDecoder_decode decrypted)
  | None =>
      Threw (Error "Decryption failed. Invalid password or corrupted data.")
  end.

(** [v.name]: reading a property of a parsed value.  A string and an
    array have their [length]; an object has the members it was written
    with. *)
Definition member (name : jsstring) (v : json) : result (option json) :=
  let is_length :=
    if list_eq_dec Z.eq_dec name (js "length") then true else false in
  match v with
  | JNull => Threw TypeError
  | JStr s =>
      Ok (if is_length then Some (JNum (Z.of_nat (List.length s))) else None)
  | JArr elements =>
      Ok (if is_length then Some (JNum (Z.of_nat (List.length elements)))
          else None)
  | JObj members =>
      Ok (option_map snd
            (find (fun kv => if list_eq_dec Z.eq_dec (fst kv) name
                             then true else false) members))
  | _ => Ok None
  end.

(** [String(v)], as applied to the argument of [atob]; [None] is
    [undefined]. *)
Definition ToString (v : option json) : result jsstring :=
  match v with
  | None => Ok (js "undefined")
  | Some JNull => Ok (js "null")
  | Some (JBool true) => Ok (js "true")
  | Some (JBool false) => Ok (js "false")
  | Some (JStr s) => Ok s
  | Some other => ToString_other other
  end.

(** [constantTimeCompare(a, b)] when [b] is whatever the stored record
    holds under [hash].  Reading [b.length] throws on [undefined] and
    [null]; when it is not the number [a.length] the answer is [false];
    otherwise the loop calls [b.charCodeAt], which only a string has. *)
Definition constantTimeCompare_any (a : jsstring) (b : option json)
  : result bool :=
  match b with
  | None | Some JNull => Threw TypeError
  | Some v =>
      b_length <- member (js "length") v ;;
      match b_length with
      | Some (JNum n) =>
          if negb (Z.of_nat (List.length a) =? n) then Ok false
          else match v with
               | JStr s => Ok (constantTimeCompare a s)
               | _ => if Nat.eqb (List.length a) 0 then Ok true
                      else Threw TypeError
               end
      | _ => Ok false
      end
  end.

(** The body of [verifyPassword] up to [computedHash]. *)
Definition recompute (password : jsstring) (hashData : json)
  : result jsstring :=
  let pepperedPassword := password ++ PEPPER in
  let data := TextEncoder_encode pepperedPassword in
  storedSalt <- member (js "salt") hashData ;;
  saltText <- ToString storedSalt ;;
  salt <- base64ToArrayBuffer saltText ;;
  key <- (if Nat.eqb (List.length salt) 0 then Threw DataError
          else Ok salt) ;;
  let signature := HMAC_SHA512 key data in
  arrayBufferToBase64 signature.

(** The [try] block of [verifyPassword]. *)
Definition verifyPassword_try (password storedHash : jsstring)
  : result bool :=
  hashData <- lift SyntaxError (JSON_parse storedHash) ;;
  computedHash <- recompute password hashData ;;
  storedValue <- member (js "hash") hashData ;;
  constantTimeCompare_any computedHash storedValue.

(** [verifyPassword(password, storedHash)]: whatever the [try] block
    throws is caught and answered with [false]. *)
Definition verifyPassword (password storedHash : jsstring) : result bool :=
  match verifyPassword_try password storedHash with
  | Ok b => Ok b
  | Threw _ => Ok false
  end.
End WithPlatform.

(** ** Notions used to state the properties of encryption.js *)

Definition decryption_failed : exn :=
  Error "Decryption failed. Invalid password or corrupted data.".

(** The derivation the specification describes: the peppered secret is
    stretched by a first round of PBKDF2 with SHA-256, the given salt and
    [n] iterations; its output is stretched by a second round with SHA-512,
    the hash of the salt followed by [round2] as salt and [n / 2] iterations.  Both
    rounds ask for 256 bits. *)
Definition two_rounds {crypto : WebCrypto} (secret : jsstring) (salt : bytes)
  (n : Z) : result bytes :=
  match PBKDF2 SHA_256 (TextEncoder_encode (secret ++ PEPPER)) salt n 256 with
  | Some round1 =>
      match PBKDF2 SHA_512 round1
                   (SHA256 (salt ++ TextEncoder_encode (js "round2")))
                   (n / 2) 256 with
      | Some key => Ok key
      | None => Threw OperationError
      end
  | None => Threw OperationError
  end.

(** ** What the rejection of another password asks of the primitives

    That another password is turned away is the work of PBKDF2 and AES-GCM:
    the code derives the key from the password it is given and maps the
    rejection of the cipher to its error.  Two properties are asked of them,
    each for the passwords at hand. *)

(** PBKDF2 with hash [h], salt [salt] and [n] iterations gives the key
    materials [p] and [p'], when they differ, different keys. *)
Definition PBKDF2_separates {crypto : WebCrypto} (h : hash) (salt : bytes)
  (n : Z) (p p' : bytes) : Prop :=
  p <> p' ->
  forall k k',
    PBKDF2 h p salt n 256 = Some k -> PBKDF2 h p' salt n 256 = Some k' ->
    k <> k'.

(** Both rounds of the derivation separate the secrets [s1] and [s2]. *)
Definition derivation_separates {crypto : WebCrypto} (s1 s2 : jsstring)
  (salt : bytes) (n : Z) : Prop :=
  PBKDF2_separates SHA_256 salt n (TextEncoder_encode (s1 ++ PEPPER))
                   (TextEncoder_encode (s2 ++ PEPPER))
  /\ forall r1 r2,
       PBKDF2 SHA_256 (TextEncoder_encode (s1 ++ PEPPER)) salt n 256
       = Some r1 ->
       PBKDF2 SHA_256 (TextEncoder_encode (s2 ++ PEPPER)) salt n 256
       = Some r2 ->
       PBKDF2_separates SHA_512
         (SHA256 (salt ++ TextEncoder_encode (js "round2"))) (n / 2) r1 r2.

(** AES-GCM with the nonce [iv] authenticates [data] between the keys of
    [s1] and of [s2]: when they differ, what it sealed under the first it
    rejects under the second. *)
Definition cipher_rejects_other_key {crypto : WebCrypto} (s1 s2 : jsstring)
  (salt iv : bytes) (n : Z) (data : bytes) : Prop :=
  forall key1 key2 sealed,
    two_rounds s1 salt n = Ok key1 -> two_rounds s2 salt n = Ok key2 ->
    key1 <> key2 ->
    AES_GCM_encrypt key1 iv data = Some sealed ->
    AES_GCM_decrypt key2 iv sealed = None.

(** The envelope [e] with another ciphertext. *)
Definition with_ciphertext (e : envelope) (text : jsstring) : envelope :=
  mkEnvelope text (salt e) (iv e) (iterations e).

(** What [decrypt] makes of the answer of the cipher: the text of the data
    it returned, or the one opaque error when it rejected. *)
Definition opened (answer : option bytes) : result jsstring :=
  match answer with
  | Some data => Ok (TextDecoder_decode data)
  | None => Threw decryption_failed
  end.

End Encryption.

(* ===================================================================== *)
(** * A model of the platform interface                                   *)
(* ===================================================================== *)

Module Platform_Model.
Import JS Encoding Platform.

(** A small instance of the interface: it shows the laws consistent and
    lets the functions of encryption.js be run.  Its cipher writes the key and
    the nonce in front of the data and checks them on opening. *)

Definition zeros (n : nat) : bytes := repeat Byte.x00 n.

Definition fit (n : nat) (b : bytes) : bytes := firstn n (b ++ zeros n).

Definition hash_tag (h : hash) : Byte.byte :=
  match h with SHA_256 => Byte.x01 | SHA_512 => Byte.x02 end.

Definition model_PBKDF2 (h : hash) (password salt : bytes)
  (iterations bits : Z) : option bytes :=
  if (0 <? iterations) && (iterations <? 2 ^ 32) && (bits =? 256)
  then Some (fit 32 (hash_tag h :: byte_of_Z iterations :: password ++ salt))
  else None.

Definition model_SHA256 (data : bytes) : bytes := fit 32 data.

Fixpoint strip_prefix (prefix l : bytes) : option bytes :=
  match prefix, l with
  | [], _ => Some l
  | p :: prefix', x :: l' =>
      if Byte.eqb p x then strip_prefix prefix' l' else None
  | _ :: _, [] => None
  end.

Definition model_encrypt (key iv data : bytes) : option bytes :=
  Some (key ++ iv ++ data).

Definition model_decrypt (key iv ciphertext : bytes) : option bytes :=
  strip_prefix (key ++ iv) ciphertext.

Definition model_HMAC (key data : bytes) : bytes := fit 64 (key ++ data).

(** Texts of the form [{"name":"text",...}], without escapes. *)
Fixpoint until_quote (s : jsstring) : option (jsstring * jsstring) :=
  match s with
  | [] => None
  | c :: rest =>
      if c =? 34 then Some ([], rest)
      else match until_quote rest with
           | Some (text, rest') => Some (c :: text, rest')
           | None => None
           end
  end.

Fixpoint members_from (fuel : nat) (s : jsstring)
  : option (list (jsstring * json)) :=
  match fuel with
  | O => None
  | S fuel' =>
      match s with
      | 34 :: s1 =>
          match until_quote s1 with
          | Some (name, 58 :: 34 :: s2) =>
              match until_quote s2 with
              | Some (text, [125]) => Some [(name, JStr text)]
              | Some (text, 44 :: s3) =>
                  match members_from fuel' s3 with
                  | Some ms => Some ((name, JStr text) :: ms)
                  | None => None
                  end
              | _ => None
              end
          | _ => None
          end
      | _ => None
      end
  end.

Definition model_JSON_parse (s : jsstring) : option json :=
  match s with
  | [110; 117; 108; 108] => Some JNull
  | [123; 125] => Some (JObj [])
  | 123 :: rest => option_map JObj (members_from (List.length rest) rest)
  | _ => None
  end.

(** ** Data to run encryption.js on *)

Import Encryption.

Definition drawn_salt : bytes := zeros 32.
Definition drawn_iv : bytes := zeros 12.

(** The text U+FEFF "hi": a byte order mark followed by two letters. *)
Definition marked_text : jsstring := [0xFEFF; 104; 105].

(** An envelope whose ciphertext is not base64. *)
Definition garbled : envelope :=
  mkEnvelope (js "!") (base64_encode (map Z_of_byte drawn_salt))
             (base64_encode (map Z_of_byte drawn_iv))
             (Some PBKDF2_ITERATIONS).

(** A stored record for the password [pw] with salt [c2FsdA==]. *)
Definition stored_record : jsstring :=
  js "{" ++ [34] ++ js "salt" ++ [34] ++ js ":" ++ [34] ++ js "c2FsdA=="
     ++ [34] ++ js "," ++ [34] ++ js "hash" ++ [34] ++ js ":" ++ [34]
     ++ js "c2FsdHB3U2VjdXJlU3luYy12MS1wZXBwZXItMjAyNg" ++ repeat 65 44
     ++ js "==" ++ [34] ++ js "}".

End Platform_Model.

(* ===================================================================== *)
(** * src/storage/local-storage.js: backups and the device id            *)
(* ===================================================================== *)

Module LocalStorage.
Import JS Vault.
Local Open Scope js_scope.

(** [getBackups()]. *)
Definition getBackups : M state (list (string * sealed)) :=
  s <- read ;; ret (vault_backup s).

(** [restoreFromBackup(backupIndex)], for an integral index. *)
Definition restoreFromBackup (backupIndex : Z) : M state sealed :=
  backups <- getBackups ;;
  if (0 <=? backupIndex) && (backupIndex <? Z.of_nat (List.length backups))
  then match nth_error backups (Z.to_nat backupIndex) with
       | Some backup => ret (snd backup)
       | None => throw TypeError
       end
  else throw (Error "Invalid backup index").

(** The storage key [device_id], and how many identifiers were drawn. *)
Record device : Type := mkDevice {
  device_id : option string;
  identifiersDrawn : nat
}.

Section Device.
Variable w : World.

(** [getDeviceId()]: an empty stored id is falsy. *)
Definition getDeviceId : M device string :=
  result <- read ;;
  match device_id result with
  | Some (String c t) => ret (String c t)
  | _ =>
      let deviceId := randomUUID w (identifiersDrawn result) in
      (fun s => (Ok tt, mkDevice (Some deviceId) (S (identifiersDrawn s)))) ;;;
      ret deviceId
  end.
End Device.

End LocalStorage.

(* ===================================================================== *)
(** * src/sync/sync-service.js                                            *)
(* ===================================================================== *)

Module SyncService.
Import JS.
Local Open Scope js_scope.

Definition item : Type := obj.

Inductive collection : Type := Passwords | Bookmarks.

(** An entry of the offline queue: [{ type, action, data, queuedAt }]. *)
Record queued : Type := mkQueued {
  queued_type : string;
  queued_action : string;
  queued_data : obj;
  queuedAt : string
}.

(** A request that reached the remote store. *)
Inductive request : Type :=
| Fetch (c : collection) (since : option string)
| Upload (c : collection) (items : list item) (deviceId timestamp : string).

(** The remote store as api-client.js sees it: what a fetch returns and
    whether an upload is accepted; [Threw] is a network or server error. *)
Record Remote : Type := mkRemote {
  fetch : collection -> option string -> result (list item);
  upload : collection -> list item -> result unit
}.

(** The variable [isSyncing] of the module, the storage keys it reads and
    writes, the vault it works on, and the requests sent so far. *)
Record state : Type := mkState {
  isSyncing : bool;
  auth_token : option string;
  last_sync_timestamp : option string;
  sync_queue : list queued;
  conflictResolution : option string;
  device_id : option string;
  vault : Vault.state;
  sent : list request
}.

Record counts : Type := mkCounts { synced : nat; conflicts : nat }.

Inductive outcome : Type :=
| in_progress
| success (timestamp : string) (passwords bookmarks : counts).

Section Engine.
Variable w : World.
Variable remote : Remote.

Definition set_isSyncing (b : bool) : M state unit :=
  fun s => (Ok tt,
            mkState b (auth_token s) (last_sync_timestamp s) (sync_queue s)
                    (conflictResolution s) (device_id s) (vault s) (sent s)).

(** A vault operation, run on the vault of this state. *)
Definition on_vault {A} (c : M Vault.state A) : M state A :=
  fun s => let (r, v) := c (vault s) in
           (r, mkState (isSyncing s) (auth_token s) (last_sync_timestamp s)
                       (sync_queue s) (conflictResolution s) (device_id s) v
                       (sent s)).

Definition send (q : request) : M state unit :=
  fun s => (Ok tt,
            mkState (isSyncing s) (auth_token s) (last_sync_timestamp s)
                    (sync_queue s) (conflictResolution s) (device_id s)
                    (vault s) (sent s ++ [q])).

(** [isAuthenticated()] of auth-service.js: [!!accessToken]. *)
Definition isAuthenticated : M state bool :=
  s <- read ;;
  ret (match auth_token s with
       | Some (String _ _) => true
       | _ => false
       end).

(** [getLastSyncTimestamp()]: the stored value [|| null]. *)
Definition getLastSyncTimestamp : M state (option string) :=
  s <- read ;;
  ret (match last_sync_timestamp s with
       | Some (String c t) => Some (String c t)
       | _ => None
       end).

Definition saveLastSyncTimestamp (timestamp : string) : M state unit :=
  fun s => (Ok tt,
            mkState (isSyncing s) (auth_token s) (Some timestamp)
                    (sync_queue s) (conflictResolution s) (device_id s)
                    (vault s) (sent s)).

Definition getSyncQueue : M state (list queued) :=
  s <- read ;; ret (sync_queue s).

Definition clearSyncQueue : M state unit :=
  fun s => (Ok tt,
            mkState (isSyncing s) (auth_token s) (last_sync_timestamp s)
                    [] (conflictResolution s) (device_id s) (vault s) (sent s)).

(** [fetchPasswords(lastSync)] and [fetchBookmarks(lastSync)]. *)
Definition fetchItems (c : collection) (lastSync : option string)
  : M state (list item) :=
  send (Fetch c lastSync) ;;;
  match fetch remote c lastSync with
  | Ok items => ret items
  | Threw e => throw e
  end.

(** [getDeviceId()] of local-storage.js, run on the storage of this state;
    the identifier it draws is the next one [crypto.randomUUID()] gives, as
    for the entries of the vault. *)
Definition getDeviceId : M state string :=
  fun s =>
    let (r, d) :=
      LocalStorage.getDeviceId w
        (LocalStorage.mkDevice (device_id s) (Vault.uuidsDrawn (vault s))) in
    (r, mkState (isSyncing s) (auth_token s) (last_sync_timestamp s)
                (sync_queue s) (conflictResolution s)
                (LocalStorage.device_id d)
                (Vault.mkState (Vault.vaultCache (vault s))
                               (Vault.masterPasswordCache (vault s))
                               (Vault.autoLockTimer (vault s))
                               (Vault.secure_vault (vault s))
                               (Vault.vault_backup (vault s))
                               (Vault.clockReads (vault s))
                               (LocalStorage.identifiersDrawn d))
                (sent s)).

(** [uploadPasswords(items)] and [uploadBookmarks(items)]: the body of the
    request carries the items, the id of the device and the time of the
    upload. *)
Definition uploadItems (c : collection) (items : list item)
  : M state unit :=
  deviceId <- getDeviceId ;;
  timestamp <- on_vault (Vault.now w) ;;
  send (Upload c items deviceId timestamp) ;;;
  match upload remote c items with
  | Ok _ => ret tt
  | Threw e => throw e
  end.

(** [syncPasswords(lastSync, conflictResolution)]. *)
Definition syncPasswords (lastSync strategy : option string)
  : M state counts :=
  try_catch
    (localPasswords <- on_vault Vault.getPasswords ;;
     remotePasswords <- fetchItems Passwords lastSync ;;
     let r := ConflictResolver.mergeItems localPasswords remotePasswords
                strategy in
     uploadItems Passwords (ConflictResolver.merged r) ;;;
     ret (mkCounts (List.length (ConflictResolver.merged r))
                   (List.length (ConflictResolver.conflicts r))))
    (fun error => throw error).

(** [syncBookmarks(lastSync, conflictResolution)]. *)
Definition syncBookmarks (lastSync strategy : option string)
  : M state counts :=
  try_catch
    (localBookmarks <- on_vault Vault.getBookmarks ;;
     remoteBookmarks <- fetchItems Bookmarks lastSync ;;
     let r := ConflictResolver.mergeItems localBookmarks remoteBookmarks
                strategy in
     uploadItems Bookmarks (ConflictResolver.merged r) ;;;
     ret (mkCounts (List.length (ConflictResolver.merged r))
                   (List.length (ConflictResolver.conflicts r))))
    (fun error => throw error).

(** The body of the loop of [processSyncQueue] for one entry. *)
Definition replay (q : queued) : M state unit :=
  try_catch
    (if String.eqb (queued_type q) "password" then
       if String.eqb (queued_action q) "add" then
         on_vault (Vault.addPassword w (queued_data q)) ;;; ret tt
       else if String.eqb (queued_action q) "update" then
         on_vault (Vault.updatePassword w (get "id" (queued_data q))
                                        (queued_data q)) ;;; ret tt
       else ret tt
     else if String.eqb (queued_type q) "bookmark" then
       if String.eqb (queued_action q) "add" then
         on_vault (Vault.addBookmark w (queued_data q)) ;;; ret tt
       else if String.eqb (queued_action q) "update" then
         on_vault (Vault.updateBookmark w (get "id" (queued_data q))
                                        (queued_data q)) ;;; ret tt
       else ret tt
     else ret tt)
    (fun _ => ret tt).

Fixpoint replay_all (queue : list queued) : M state unit :=
  match queue with
  | [] => ret tt
  | q :: rest => replay q ;;; replay_all rest
  end.

(** [processSyncQueue()]. *)
Definition processSyncQueue : M state unit :=
  queue <- getSyncQueue ;;
  match queue with
  | [] => ret tt
  | _ => replay_all queue ;;; clearSyncQueue
  end.

(** [performSync()] from its entry to the first [await]: [Some] is the
    value returned at once, [None] means the call to
    [isAuthenticated()] is pending. *)
Definition performSync_enter : M state (option outcome) :=
  s <- read ;;
  if isSyncing s then ret (Some in_progress) else ret None.

(** [performSync()] from the answer of [isAuthenticated()] to the next
    [await]. *)
Definition performSync_authenticated : M state unit :=
  authenticated <- isAuthenticated ;;
  if negb authenticated
  then throw (Error "Not authenticated. Please login first.")
  else set_isSyncing true.

(** The [try { ... } catch (error) { ... }] of [performSync()]. *)
Definition performSync_pass : M state outcome :=
  try_catch
    (lastSync <- getLastSyncTimestamp ;;
     s <- read ;;
     let strategy := conflictResolution s in
     passwordResult <- syncPasswords lastSync strategy ;;
     bookmarkResult <- syncBookmarks lastSync strategy ;;
     processSyncQueue ;;;
     now <- on_vault (Vault.now w) ;;
     saveLastSyncTimestamp now ;;;
     set_isSyncing false ;;;
     ret (success now passwordResult bookmarkResult))
    (fun error => set_isSyncing false ;;; throw error).

(** [performSync()], run from call to return with no other call in
    between. *)
Definition performSync : M state outcome :=
  returned <- performSync_enter ;;
  match returned with
  | Some r => ret r
  | None => performSync_authenticated ;;; performSync_pass
  end.

(** [isSyncInProgress()]. *)
Definition isSyncInProgress (s : state) : bool := isSyncing s.

(** ** Calls in flight

    A call of [performSync()] suspends at an [await] and other calls run
    meanwhile.  A [call] records where it stands: about to start, waiting
    for [isAuthenticated()], inside the [try] block, or settled.  The
    [try] block is resumed as a whole: the awaits inside it are answered
    before another call is resumed, which is one of the orders the event
    loop allows. *)
Inductive call : Type :=
| Called
| AwaitingAuthentication
| InPass
| Settled (r : result outcome).

(** The call runs until it suspends again or settles. *)
Definition resume (c : call) (s : state) : call * state :=
  match c with
  | Called =>
      match performSync_enter s with
      | (Ok (Some r), s') => (Settled (Ok r), s')
      | (Ok None, s') => (AwaitingAuthentication, s')
      | (Threw e, s') => (Settled (Threw e), s')
      end
  | AwaitingAuthentication =>
      match performSync_authenticated s with
      | (Ok _, s') => (InPass, s')
      | (Threw e, s') => (Settled (Threw e), s')
      end
  | InPass =>
      let (r, s') := performSync_pass s in (Settled r, s')
  | Settled r => (Settled r, s)
  end.

(** The event loop resumes the calls in the order [schedule] lists them,
    by position. *)
Fixpoint run (schedule : list nat) (calls : list call) (s : state)
  : list call * state :=
  match schedule with
  | [] => (calls, s)
  | i :: rest =>
      match nth_error calls i with
      | Some c =>
          let (c', s') := resume c s in
          run rest (firstn i calls ++ c' :: skipn (S i) calls) s'
      | None => run rest calls s
      end
  end.

Definition in_pass (c : call) : bool :=
  match c with InPass => true | _ => false end.
End Engine.

(** ** Notions used to state the properties of the engine *)

Local Open Scope string_scope.
Local Open Scope list_scope.

(** What the remote store answers to a request. *)
Definition response (remote : Remote) (q : request) : result unit :=
  match q with
  | Fetch c since =>
      match fetch remote c since with
      | Ok _ => Ok tt
      | Threw e => Threw e
      end
  | Upload c items _ _ => upload remote c items
  end.

(** The requests a computation added to those of [s]. *)
Definition requests_since (s s' : state) : list request :=
  skipn (List.length (sent s)) (sent s').

(** [s'] differs from [s] in its vault, its queue and its device id at
    most. *)
Definition same_engine (s s' : state) : Prop :=
  isSyncing s' = isSyncing s
  /\ auth_token s' = auth_token s
  /\ last_sync_timestamp s' = last_sync_timestamp s
  /\ conflictResolution s' = conflictResolution s
  /\ sent s' = sent s.

(** A remote store that holds nothing and accepts everything, and one
    whose uploads of passwords fail. *)
Definition empty_remote : Remote :=
  mkRemote (fun _ _ => Ok []) (fun _ _ => Ok tt).

Definition failing_remote : Remote :=
  mkRemote (fun _ _ => Ok [])
           (fun c _ => match c with
                       | Passwords => Threw (Error "Failed to upload passwords")
                       | Bookmarks => Ok tt
                       end).

(** Signed in, idle, never synced, with the vault unlocked and holding one
    credential. *)
Definition idle : state :=
  mkState false (Some "token") None [] None None
          (snd (Vault.addPassword Vault.example_world Vault.captured_entry
                                  Vault.empty_unlocked))
          [].

(** Whether a request uploads, and the collection it is about. *)
Definition request_shape (q : request) : bool * collection :=
  match q with
  | Fetch c _ => (false, c)
  | Upload c _ _ _ => (true, c)
  end.

Section Notions.
Variable w : World.
Variable remote : Remote.

(** The outcome [out] of a computation started in [s] left the flag and
    the watermark alone, and the requests it sent tell its result: all were
    answered if it returned, and if it threw, a request that failed failed
    with what it threw. *)
Definition faithful {A} (s : state) (out : result A * state) : Prop :=
  isSyncing (snd out) = isSyncing s
  /\ last_sync_timestamp (snd out) = last_sync_timestamp s
  /\ conflictResolution (snd out) = conflictResolution s
  /\ exists new,
       sent (snd out) = sent s ++ new
       /\ match fst out with
          | Ok _ => Forall (fun q => response remote q = Ok tt) new
          | Threw e =>
              forall q e', In q new -> response remote q = Threw e' -> e' = e
          end.

(** The common shape of [syncPasswords] and [syncBookmarks]. *)
Definition sync_collection (getLocal : M Vault.state (list item))
  (c : collection) (lastSync strategy : option string) : M state counts :=
  try_catch
    (bind (on_vault getLocal) (fun localItems =>
     bind (fetchItems remote c lastSync) (fun remoteItems =>
     let r := ConflictResolver.mergeItems localItems remoteItems strategy in
     bind (uploadItems w remote c (ConflictResolver.merged r)) (fun _ =>
     ret (mkCounts (List.length (ConflictResolver.merged r))
                   (List.length (ConflictResolver.conflicts r)))))))
    (fun error => throw error).

End Notions.

End SyncService.

(* ===================================================================== *)
(** * src/sync/conflict-resolver.js: the branches of the merge, by id     *)
(* ===================================================================== *)

Module MergeBranches.
Import JS ConflictResolver.

(** What the simple merge pushes for one id. *)
Definition pick (localMap remoteMap : Map item) (i : value) : list item :=
  match Map_get localMap i, Map_get remoteMap i with
  | Some local, Some remote =>
      [if gt (Date_getTime (updatedAt local))
             (Date_getTime (updatedAt remote))
       then local else remote]
  | Some local, None => [local]
  | None, Some remote => [remote]
  | None, None => []
  end.

(** The list the last-write-wins branch builds its map from. *)
Definition gathered (A B : list item) : list item :=
  let detected := detectConflicts A B in
  let resolution := resolveConflictsLastWriteWins detected in
  let conflictIds := Set_of (map conflict_id detected) in
  filter (fun it => negb (Set_has conflictIds (item_id it))) A
    ++ filter (fun it => negb (Set_has conflictIds (item_id it))) B
    ++ keepLocal resolution ++ keepRemote resolution.

(** An item that has no [updatedAt]. *)
Definition unstamped_item : item :=
  [("id", VStr "1"); ("url", VStr "a.com")]%string.

End MergeBranches.

(* ===================================================================== *)
(** * backend/routes/sync.js                                              *)
(* ===================================================================== *)

Module SyncRoutes.
Import JS ConflictResolver.

(** The routes [POST /passwords] and [POST /bookmarks] merge the uploaded
    items into those the account holds and assign the result to the
    document of the user; the items are read through their [id] and
    [updatedAt] only. *)

(** One turn of the loop of the upload routes: the uploaded item is taken
    when the map has none of its id or has one that is strictly older. *)
Definition accept (passwordMap : Map item) (password : item) : Map item :=
  match Map_get passwordMap (item_id password) with
  | Some existing =>
      if gt (Date_getTime (updatedAt password))
            (Date_getTime (updatedAt existing))
      then Map_set (item_id password) password passwordMap
      else passwordMap
  | None => Map_set (item_id password) password passwordMap
  end.

(** The list the upload routes assign: the map of the stored items, after
    the loop over the uploaded ones, as an array. *)
Definition merge_uploaded (stored uploaded : list item) : list item :=
  let passwordMap := by_id stored in
  Map_values (fold_left accept uploaded passwordMap).

(** ** Notions used to state the properties of the routes *)

Local Open Scope list_scope.

(** The uploaded item [p] would not replace what the map holds under its
    id. *)
Definition settled (m : Map item) (p : item) : Prop :=
  exists e, Map_get m (item_id p) = Some e
            /\ gt (Date_getTime (updatedAt p)) (Date_getTime (updatedAt e))
               = false.

(** What one uploaded item makes of the entry under [k]. *)
Definition accept_under (k : value) (acc : option item) (p : item)
  : option item :=
  if value_eqb (item_id p) k then
    match acc with
    | Some existing =>
        if gt (Date_getTime (updatedAt p)) (Date_getTime (updatedAt existing))
        then Some p else Some existing
    | None => Some p
    end
  else acc.

End SyncRoutes.

(* ===================================================================== *)
(** * src/popup/popup.js: the entries that are listed                     *)
(* ===================================================================== *)

Module Popup.
Import JS.

(** [!!v]. *)
Definition truthy (v : value) : bool :=
  match v with
  | VUndefined | VNull => false
  | VBool b => b
  | VNum n => negb (n =? 0)
  | VStr s => negb (String.eqb s EmptyString)
  end.

(** [passwords.filter(p => !p.deletedAt)] of [loadPasswords]. *)
Definition activePasswords (passwords : list obj) : list obj :=
  filter (fun p => negb (truthy (get "deletedAt" p))) passwords.

End Popup.

(* ===================================================================== *)
(** * src/crypto/vault.js: unlocking, the lock flag, export and import    *)
(* ===================================================================== *)

Module VaultAccess.
Import JS Vault.
Local Open Scope js_scope.

(** The state of vault.js together with the storage key [vault_locked]
    ([None]: never written). *)
Record state : Type := mkState {
  resident : Vault.state;
  vault_locked : option bool
}.

Section Access.
Variable w : World.

(** [decryptObject] of encryption.js on a sealed snapshot: the vault it
    held, or the error [decrypt] or [JSON.parse] threw. *)
Variable decryptObject : sealed -> string -> result vault.

Definition on_resident {A} (c : M Vault.state A) : M state A :=
  fun s => let (r, v) := c (resident s) in (r, mkState v (vault_locked s)).

Definition set_vault_locked (b : bool) : M state unit :=
  fun s => (Ok tt, mkState (resident s) (Some b)).

Definition set_vaultCache (v : vault) : M Vault.state unit :=
  fun s => (Ok tt, with_cache (Some v) s).

Definition set_masterPasswordCache (p : string) : M Vault.state unit :=
  fun s => (Ok tt,
            Vault.mkState (vaultCache s) (Some p) (autoLockTimer s)
                          (secure_vault s) (vault_backup s)
                          (clockReads s) (uuidsDrawn s)).

Definition store_vault (encrypted : sealed) : M Vault.state unit :=
  fun s => (Ok tt,
            Vault.mkState (vaultCache s) (masterPasswordCache s)
                          (autoLockTimer s) (Some encrypted) (vault_backup s)
                          (clockReads s) (uuidsDrawn s)).

(** [initializeVault(masterPassword)]. *)
Definition initializeVault (masterPassword : string) : M state bool :=
  try_catch
    (s <- read ;;
     match secure_vault (resident s) with
     | None =>
         createdAt <- on_resident (now w) ;;
         let emptyVault :=
           mkVault [] [] [("createdAt"%string, VStr createdAt);
                          ("version"%string, VStr "1.0.0")] in
         let encrypted := mkSealed emptyVault masterPassword in
         on_resident (store_vault encrypted) ;;;
         set_vault_locked false ;;;
         on_resident (set_vaultCache emptyVault)
     | Some stored =>
         match decryptObject stored masterPassword with
         | Ok v => on_resident (set_vaultCache v)
         | Threw e => throw e
         end
     end ;;;
     on_resident (set_masterPasswordCache masterPassword) ;;;
     set_vault_locked false ;;;
     on_resident resetAutoLockTimer ;;;
     ret true)
    (fun _ => throw (Error "Invalid master password or corrupted vault")).

(** [lockVault()], with the flag it writes. *)
Definition lockVault : M state unit :=
  on_resident Vault.lockVault ;;;
  set_vault_locked true.

(** [isVaultLocked()]: locked unless the flag is [false]. *)
Definition isVaultLocked : M state bool :=
  s <- read ;;
  ret (match vault_locked s with
       | Some false => false
       | _ => true
       end).

(** [exportVault()]. *)
Definition exportVault : M state sealed :=
  vm <- on_resident ensureUnlocked ;;
  ret (mkSealed (fst vm) (snd vm)).

(** [importVault(encryptedData, masterPassword)]. *)
Definition importVault (encryptedData : sealed) (masterPassword : string)
  : M state unit :=
  match decryptObject encryptedData masterPassword with
  | Threw e => throw e
  | Ok v =>
      on_resident (set_vaultCache v) ;;;
      on_resident (set_masterPasswordCache masterPassword) ;;;
      on_resident (saveVault w)
  end.
End Access.

(** ** Notions used to state the properties of unlocking *)

Local Open Scope string_scope.
Local Open Scope list_scope.

Definition locked_error : exn :=
  Error "Vault is locked. Please unlock first.".

(** A [decryptObject] that opens a snapshot under the password it was
    sealed with and under no other. *)
Definition open_with_same (sl : sealed) (p : string) : result vault :=
  if String.eqb (sealed_under sl) p then Ok (sealed_vault sl)
  else Threw (Error "Decryption failed. Invalid password or corrupted data.").

(** A fresh installation: nothing stored, nothing resident. *)
Definition fresh : state :=
  mkState (Vault.mkState None None false None [] O O) None.

(** A vault in use, holding two bookmarks. *)
Definition two_bookmarks : vault :=
  mkVault [] [[("id"%string, VStr "b1"); ("url"%string, VStr "a.com")];
              [("id"%string, VStr "b2"); ("url"%string, VStr "b.com")]]
          [("version"%string, VStr "1.0.0")].

Definition in_use : state :=
  mkState (Vault.mkState (Some two_bookmarks) (Some "correct horse") true
                         (Some (mkSealed two_bookmarks "correct horse"))
                         [] O O)
          (Some false).

End VaultAccess.

(* ===================================================================== *)
(** * The offline queue and src/capture/bookmark-capture.js               *)
(* ===================================================================== *)

Module BookmarkCapture.
Import JS SyncService Popup.
Local Open Scope js_scope.

Section Capture.
Variable w : World.

(** [addToSyncQueue(item)] of local-storage.js. *)
Definition addToSyncQueue (item_type item_action : string) (data : obj)
  : M state unit :=
  queuedAt <- on_vault (Vault.now w) ;;
  fun s =>
    (Ok tt,
     mkState (isSyncing s) (auth_token s) (last_sync_timestamp s)
             (sync_queue s ++ [mkQueued item_type item_action data queuedAt])
             (conflictResolution s) (device_id s) (vault s) (sent s)).

(** [queueForSync(type, action, data)] of sync-service.js. *)
Definition queueForSync (item_type item_action : string) (data : obj)
  : M state unit :=
  addToSyncQueue item_type item_action data.

(** [handleBookmarkCreated(id, bookmark)]; [folder] is the path
    [getBookmarkPath] returned and [tags] the empty array of the entry. *)
Definition handleBookmarkCreated (bookmark : obj) (folder : string)
  (tags : value) : M state unit :=
  try_catch
    (if negb (truthy (get "url" bookmark)) then ret tt
     else
       let entry :=
         [("title"%string, get "title" bookmark);
          ("url"%string, get "url" bookmark);
          ("folder"%string, VStr folder);
          ("tags"%string, tags)] in
       on_vault (Vault.addBookmark w entry) ;;;
       queueForSync "bookmark" "add" entry)
    (fun _ => ret tt).

(** [a || b]. *)
Definition or_else (a b : value) : value := if truthy a then a else b.

(** [handleBookmarkChanged(id, changeInfo)]; [bookmark] is the first node
    [Browser.bookmarks.get(id)] returned, if any. *)
Definition handleBookmarkChanged (changeInfo : obj) (bookmark : option obj)
  : M state unit :=
  try_catch
    (match bookmark with
     | None => throw TypeError
     | Some node =>
         if negb (truthy (get "url" node)) then ret tt
         else
           let updates :=
             [("title"%string, or_else (get "title" changeInfo)
                                       (get "title" node));
              ("url"%string, or_else (get "url" changeInfo)
                                     (get "url" node))] in
           queueForSync "bookmark" "update" updates
     end)
    (fun _ => ret tt).

(** [handleBookmarkRemoved(id, removeInfo)]. *)
Definition handleBookmarkRemoved (id : string) : M state unit :=
  try_catch
    (queueForSync "bookmark" "delete" [("id"%string, VStr id)])
    (fun _ => ret tt).
End Capture.

(** ** Notions used to state the properties of the queue *)

Local Open Scope list_scope.

Definition held_bookmarks (s : state) : list item :=
  Vault.resident_bookmarks (vault s).

Definition held_passwords (s : state) : list item :=
  Vault.resident_passwords (vault s).

(** The entry [handleBookmarkCreated] builds. *)
Definition captured (bookmark : obj) (folder : string) (tags : value) : obj :=
  [("title"%string, get "title" bookmark);
   ("url"%string, get "url" bookmark);
   ("folder"%string, VStr folder);
   ("tags"%string, tags)].

(** A bookmark of the browser. *)
Definition browser_bookmark : obj :=
  [("id", VStr "17"); ("title", VStr "Example");
   ("url", VStr "https://example.org/")]%string.

End BookmarkCapture.

(* ===================================================================== *)
(** * src/sync/sync-service.js: notions for whole passes                  *)
(* ===================================================================== *)

Module Engine_Notions.
Import JS SyncService.
Local Open Scope string_scope.
Local Open Scope list_scope.

(** No access token is stored, or an empty one. *)
Definition signed_out (s : state) : Prop :=
  auth_token s = None \/ auth_token s = Some EmptyString.

(** The watermark as [getLastSyncTimestamp] returns it. *)
Definition watermark (s : state) : option string :=
  match last_sync_timestamp s with
  | Some (String c t) => Some (String c t)
  | _ => None
  end.

(** What a pass uploads for a collection, given what the fetch returned. *)
Definition to_upload (localItems remoteItems : list item) (s : state)
  : list item :=
  ConflictResolver.merged
    (ConflictResolver.mergeItems localItems remoteItems
                                 (conflictResolution s)).

(** The id of the device: the one that is stored or, when none is (or an
    empty one), the next identifier that is drawn. *)
Definition device_of (w : World) (s : state) : string :=
  match device_id s with
  | Some (String c t) => String c t
  | _ => randomUUID w (Vault.uuidsDrawn (vault s))
  end.

(** A remote store that holds one credential and accepts everything. *)
Definition holding_remote : Remote :=
  mkRemote (fun c _ => match c with
                       | Passwords => Ok [ConflictResolver.other_item]
                       | Bookmarks => Ok []
                       end)
           (fun _ _ => Ok tt).

Definition signed_out_state : state :=
  mkState false None None [] None None (vault idle) [].

End Engine_Notions.

(* ===================================================================== *)
(** * src/crypto/encryption.js: hashing a password                        *)
(* ===================================================================== *)

Module PasswordHash.
Import JS Encoding Platform Encryption.

(** ** [JSON.stringify] on parsed values *)

Definition hex_unit (n : Z) : Z := if n <? 10 then 48 + n else 87 + n.

(** [\uXXXX], with lower-case digits. *)
Definition escape_unit (u : Z) : jsstring :=
  [92; 117; hex_unit (u / 4096); hex_unit ((u / 256) mod 16);
   hex_unit ((u / 16) mod 16); hex_unit (u mod 16)].

(** A code unit that is not a surrogate, inside a string literal. *)
Definition quote_unit (u : Z) : jsstring :=
  if u =? 34 then [92; 34]
  else if u =? 92 then [92; 92]
  else if u =? 8 then [92; 98]
  else if u =? 9 then [92; 116]
  else if u =? 10 then [92; 110]
  else if u =? 12 then [92; 102]
  else if u =? 13 then [92; 114]
  else if u <? 32 then escape_unit u
  else [u].

(** The characters of a string literal: a surrogate that is not half of a
    pair is escaped. *)
Fixpoint quote_units (s : jsstring) : jsstring :=
  match s with
  | [] => []
  | u :: rest =>
      if is_lead u then
        match rest with
        | l :: rest' =>
            if is_trail l then u :: l :: quote_units rest'
            else escape_unit u ++ quote_units rest
        | [] => escape_unit u
        end
      else if is_trail u then escape_unit u ++ quote_units rest
      else quote_unit u ++ quote_units rest
  end.

Definition quote_text (s : jsstring) : jsstring :=
  [34] ++ quote_units s ++ [34].

Fixpoint join (parts : list jsstring) : jsstring :=
  match parts with
  | [] => []
  | [p] => p
  | p :: rest => p ++ [44] ++ join rest
  end.

(** [JSON.stringify(v)]. *)
Fixpoint JSON_stringify (v : json) : jsstring :=
  match v with
  | JNull => js "null"
  | JBool true => js "true"
  | JBool false => js "false"
  | JNum n => js (NilZero.string_of_int (Z.to_int n))
  | JStr s => quote_text s
  | JArr elements => [91] ++ join (map JSON_stringify elements) ++ [93]
  | JObj members =>
      [123]
        ++ join (map (fun kv => quote_text (fst kv) ++ [58]
                                  ++ JSON_stringify (snd kv)) members)
        ++ [125]
  end.

Section WithPlatform.
Context {crypto : WebCrypto}.

(** [hashPassword(password)]; [salt] is what [generateSalt()] drew.
    Importing an empty key fails. *)
Definition hashPassword (password : jsstring) (salt : bytes)
  : result jsstring :=
  let pepperedPassword := password ++ PEPPER in
  let data := TextEncoder_encode pepperedPassword in
  key <- (if Nat.eqb (List.length salt) 0 then Threw DataError
          else Ok salt) ;;
  let signature := HMAC_SHA512 key data in
  salt64 <- arrayBufferToBase64 salt ;;
  hash64 <- arrayBufferToBase64 signature ;;
  Ok (JSON_stringify
        (JObj [(js "salt", JStr salt64);
               (js "hash", JStr hash64);
               (js "algorithm", JStr (js "HMAC-SHA512"));
               (js "version", JNum 1)])).

(** ** Notions used to state the properties of the hash *)

(** The tag of a password under a salt, in base64. *)
Definition tag64 (password : jsstring) (salt : bytes) : jsstring :=
  base64_encode
    (map Z_of_byte
         (HMAC_SHA512 salt (TextEncoder_encode (password ++ PEPPER)))).

(** The record [hashPassword] serializes. *)
Definition hash_record (password : jsstring) (salt : bytes) : json :=
  JObj [(js "salt", JStr (base64_encode (map Z_of_byte salt)));
        (js "hash", JStr (tag64 password salt));
        (js "algorithm", JStr (js "HMAC-SHA512"));
        (js "version", JNum 1)].
End WithPlatform.

End PasswordHash.

(* ===================================================================== *)
(** * A model of the platform that reads numbers                          *)
(* ===================================================================== *)

Module Platform_Model_Records.
Import JS Encoding Platform Platform_Model.

Definition is_digit (c : Z) : bool := (48 <=? c) && (c <=? 57).

Fixpoint take_digits (acc : Z) (s : jsstring) : Z * jsstring :=
  match s with
  | c :: rest =>
      if is_digit c then take_digits (10 * acc + (c - 48)) rest
      else (acc, s)
  | [] => (acc, [])
  end.

(** A member value: a string without escapes or a run of digits. *)
Definition member_value (s : jsstring) : option (json * jsstring) :=
  match s with
  | 34 :: s1 =>
      match until_quote s1 with
      | Some (text, rest) => Some (JStr text, rest)
      | None => None
      end
  | c :: _ =>
      if is_digit c
      then let (n, rest) := take_digits 0 s in Some (JNum n, rest)
      else None
  | [] => None
  end.

Fixpoint record_members (fuel : nat) (s : jsstring)
  : option (list (jsstring * json)) :=
  match fuel with
  | O => None
  | S fuel' =>
      match s with
      | 34 :: s1 =>
          match until_quote s1 with
          | Some (name, 58 :: s2) =>
              match member_value s2 with
              | Some (v, [125]) => Some [(name, v)]
              | Some (v, 44 :: s3) =>
                  match record_members fuel' s3 with
                  | Some ms => Some ((name, v) :: ms)
                  | None => None
                  end
              | _ => None
              end
          | _ => None
          end
      | _ => None
      end
  end.

(** Texts of the form [{"name":value,...}]. *)
Definition records_JSON_parse (s : jsstring) : option json :=
  match s with
  | [110; 117; 108; 108] => Some JNull
  | [123; 125] => Some (JObj [])
  | 123 :: rest => option_map JObj (record_members (List.length rest) rest)
  | _ => None
  end.

End Platform_Model_Records.

(* ===================================================================== *)
(** * src/auth/auth-service.js: requests that carry the access token      *)
(* ===================================================================== *)

Module AuthService.
Import JS.
Local Open Scope js_scope.

(** Where a request goes: the url given to [authenticatedFetch], or one of
    the two endpoints of the service itself. *)
Inductive target : Type :=
| Resource (url : string)
| Refresh
| Logout.

(** A request: its target, the token of its [Authorization] header and the
    refresh token of its body, where it has them. *)
Record request : Type := mkRequest {
  target_of : target;
  bearer : option string;
  refreshToken_of : option string
}.

(** A response: its status and, for the refresh endpoint, the
    [accessToken] of its body (the backend sends one with every refresh it
    accepts). *)
Record response : Type := mkResponse {
  status : Z;
  accessToken : string
}.

(** What the network answers to a request, given those sent before;
    [Threw] is a request that fails. *)
Definition Network : Type := list request -> request -> result response.

(** The storage keys [auth_token] and [refresh_token], and the requests
    sent so far. *)
Record state : Type := mkState {
  auth_token : option string;
  refresh_token : option string;
  sent : list request
}.

(** [response.ok]. *)
Definition ok (r : response) : bool :=
  (200 <=? status r) && (status r <=? 299).

(** [haystack.includes(needle)]. *)
Fixpoint includes (needle haystack : string) : bool :=
  String.prefix needle haystack
  || match haystack with
     | EmptyString => false
     | String _ rest => includes needle rest
     end.

(** [error.message.includes(needle)]; the errors of the platform itself
    carry messages of their own, which have none of the phrases looked
    for. *)
Definition message_includes (error : exn) (needle : string) : bool :=
  match error with
  | Error message => includes needle message
  | _ => false
  end.

Section Service.
Variable network : Network.

(** [fetch(...)]. *)
Definition fetch (q : request) : M state response :=
  fun s =>
    let s' := mkState (auth_token s) (refresh_token s) (sent s ++ [q]) in
    match network (sent s) q with
    | Ok r => (Ok r, s')
    | Threw e => (Threw e, s')
    end.

(** [saveAuthTokens(accessToken, refreshToken)]. *)
Definition saveAuthTokens (access refresh : string) : M state unit :=
  fun s => (Ok tt, mkState (Some access) (Some refresh) (sent s)).

(** [clearAuthTokens()]. *)
Definition clearAuthTokens : M state unit :=
  fun s => (Ok tt, mkState None None (sent s)).

(** [isAuthenticated()]. *)
Definition isAuthenticated : M state bool :=
  s <- read ;;
  ret (match auth_token s with
       | Some (String _ _) => true
       | _ => false
       end).

(** [logout()]: the [finally] block runs whatever the [try] block did. *)
Definition logout : M state unit :=
  try_catch
    (s <- read ;;
     match refresh_token s with
     | Some (String c t) =>
         fetch (mkRequest Logout None (Some (String c t))) ;;; ret tt
     | _ => ret tt
     end)
    (fun _ => ret tt) ;;;
  clearAuthTokens.

(** [refreshAccessToken()]. *)
Definition refreshAccessToken : M state string :=
  try_catch
    (s <- read ;;
     match refresh_token s with
     | Some (String c t) =>
         let refreshToken := String c t in
         response <- fetch (mkRequest Refresh None (Some refreshToken)) ;;
         if (status response =? 401) || (status response =? 403) then
           logout ;;; throw (Error "Session expired. Please login again.")
         else if negb (ok response) then
           throw (Error ("Server error: "
                           ++ NilZero.string_of_int
                                (Z.to_int (status response))))
         else
           saveAuthTokens (accessToken response) refreshToken ;;;
           ret (accessToken response)
     | _ => throw (Error "No refresh token available")
     end)
    (fun error =>
       (if message_includes error "Session expired"
           || message_includes error "No refresh token"
        then logout else ret tt) ;;;
       throw error).

(** [authenticatedFetch(url, options)]. *)
Definition authenticatedFetch (url : string) : M state response :=
  s <- read ;;
  match auth_token s with
  | Some (String c t) =>
      response <- fetch (mkRequest (Resource url) (Some (String c t)) None) ;;
      if status response =? 401 then
        try_catch
          (accessToken <- refreshAccessToken ;;
           fetch (mkRequest (Resource url) (Some accessToken) None))
          (fun error =>
             if message_includes error "Session expired"
             then throw (Error "Authentication failed. Please login again.")
             else throw error)
      else ret response
  | _ => throw (Error "Not authenticated")
  end.
End Service.

(** ** Notions used to state the properties of the service *)

Local Open Scope string_scope.
Local Open Scope list_scope.

Definition to_resource (q : request) : bool :=
  match target_of q with Resource _ => true | _ => false end.

(** A server on which the session has expired: it answers 401 to
    everything. *)
Definition expired : Network := fun _ _ => Ok (mkResponse 401 EmptyString).

(** A server that refreshes: the first request for a resource finds the
    token out of date, later ones are served. *)
Definition refreshing : Network :=
  fun before q =>
    match target_of q, before with
    | Resource _, [] => Ok (mkResponse 401 EmptyString)
    | Refresh, _ => Ok (mkResponse 200 "fresh")
    | _, _ => Ok (mkResponse 200 EmptyString)
    end.

Definition signed_in : state := mkState (Some "stale") (Some "r1") [].

End AuthService.

(* ===================================================================== *)
(** * Properties of the platform model                                    *)
(* ===================================================================== *)

Module JS_Facts.
Import JS.

Lemma value_eqb_eq (a b : value) : value_eqb a b = true <-> a = b.
Proof.
  destruct a, b; simpl; split; intro H; try discriminate; try reflexivity.
  - apply Bool.eqb_prop in H. now subst.
  - inversion H. apply Bool.eqb_reflx.
  - apply Z.eqb_eq in H. now subst.
  - inversion H. apply Z.eqb_refl.
  - apply String.eqb_eq in H. now subst.
  - inversion H. apply String.eqb_refl.
Qed.

Lemma value_eqb_refl (a : value) : value_eqb a a = true.
Proof. now apply value_eqb_eq. Qed.

Lemma value_eqb_neq (a b : value) : value_eqb a b = false <-> a <> b.
Proof.
  split.
  - intros H E. apply value_eqb_eq in E. congruence.
  - intro H. destruct (value_eqb a b) eqn:E; [|reflexivity].
    apply value_eqb_eq in E. contradiction.
Qed.

Lemma value_eqb_sym (a b : value) : value_eqb a b = value_eqb b a.
Proof.
  destruct (value_eqb b a) eqn:E.
  - apply value_eqb_eq in E. subst. apply value_eqb_refl.
  - apply value_eqb_neq. apply value_eqb_neq in E. congruence.
Qed.

(** ** Objects *)

Lemma get_set_same (k : string) (v : value) (o : obj) :
  get k (set k v o) = v.
Proof.
  induction o as [|[k' v'] o IH]; simpl.
  - now rewrite String.eqb_refl.
  - destruct (String.eqb k' k) eqn:E; simpl; rewrite E; auto.
Qed.

Lemma get_set_other (k k' : string) (v : value) (o : obj) :
  k' <> k -> get k (set k' v o) = get k o.
Proof.
  intro N. induction o as [|[k0 v0] o IH]; simpl.
  - apply String.eqb_neq in N. now rewrite N.
  - destruct (String.eqb k0 k') eqn:E; simpl.
    + apply String.eqb_eq in E. subst k0.
      apply String.eqb_neq in N. now rewrite N.
    + destruct (String.eqb k0 k); auto.
Qed.

Lemma has_set (k k' : string) (v : value) (o : obj) :
  has k (set k' v o) = String.eqb k' k || has k o.
Proof.
  induction o as [|[k0 v0] o IH]; simpl.
  - reflexivity.
  - destruct (String.eqb k0 k') eqn:E; simpl.
    + apply String.eqb_eq in E. subst k0.
      destruct (String.eqb k' k); reflexivity.
    + rewrite IH. destruct (String.eqb k0 k), (String.eqb k' k); reflexivity.
Qed.

(** What a spread leaves under [k]: the last value [source] gives it, or
    what [target] had. *)
Lemma get_spread (k : string) (source target : obj) :
  get k (spread target source) =
  fold_left (fun acc kv => if String.eqb (fst kv) k then snd kv else acc)
            source (get k target).
Proof.
  unfold spread. revert target.
  induction source as [|[k' v'] source IH]; intro target; simpl.
  - reflexivity.
  - rewrite IH. f_equal.
    destruct (String.eqb k' k) eqn:E.
    + apply String.eqb_eq in E. subst. apply get_set_same.
    + apply String.eqb_neq in E. now apply get_set_other.
Qed.

Lemma fold_skip (k : string) (source : obj) (v : value) :
  has k source = false ->
  fold_left (fun acc kv => if String.eqb (fst kv) k then snd kv else acc)
            source v = v.
Proof.
  revert v. induction source as [|[k' v'] source IH]; intros v H; simpl in *.
  - reflexivity.
  - apply Bool.orb_false_iff in H. destruct H as [H1 H2].
    rewrite H1. now apply IH.
Qed.

Lemma has_In (k : string) (o : obj) : has k o = true <-> In k (map fst o).
Proof.
  induction o as [|[k' v'] o IH]; simpl.
  - split; [discriminate | tauto].
  - rewrite Bool.orb_true_iff, String.eqb_eq, IH. tauto.
Qed.

Lemma get_spread_has (k : string) (source target : obj) :
  well_formed source -> has k source = true ->
  get k (spread target source) = get k source.
Proof.
  intros W H. rewrite get_spread. generalize (get k target) as t.
  induction source as [|[k' v'] source IH]; intro t; simpl in *.
  - discriminate.
  - inversion W as [|? ? Hn Hw]; subst.
    destruct (String.eqb k' k) eqn:E.
    + apply String.eqb_eq in E. subst k'.
      apply fold_skip.
      destruct (has k source) eqn:Hh; [|reflexivity].
      apply has_In in Hh. contradiction.
    + simpl in H. now apply IH.
Qed.

Lemma get_spread_lacks (k : string) (source target : obj) :
  has k source = false -> get k (spread target source) = get k target.
Proof. intro H. rewrite get_spread. now apply fold_skip. Qed.

End JS_Facts.

(* ===================================================================== *)
(** * Properties of the conflict resolver                                 *)
(* ===================================================================== *)

Module ConflictResolver_Facts.
Import JS JS_Facts ConflictResolver.

Lemma Map_get_set (k k' : value) (v : item) (m : Map item) :
  Map_get (Map_set k' v m) k =
  if value_eqb k' k then Some v else Map_get m k.
Proof.
  induction m as [|[k0 v0] m IH]; simpl.
  - reflexivity.
  - destruct (value_eqb k0 k') eqn:E; simpl.
    + apply value_eqb_eq in E. subst k0.
      destruct (value_eqb k' k); reflexivity.
    + rewrite IH. destruct (value_eqb k0 k) eqn:E0; [|reflexivity].
      apply value_eqb_eq in E0. subst k0.
      now rewrite value_eqb_sym, E.
Qed.

Lemma Map_keys_set (k : value) (v : item) (m : Map item) :
  Map_keys (Map_set k v m) =
  if existsb (value_eqb k) (Map_keys m) then Map_keys m
  else Map_keys m ++ [k].
Proof.
  induction m as [|[k0 v0] m IH]; simpl.
  - reflexivity.
  - rewrite (value_eqb_sym k k0).
    destruct (value_eqb k0 k) eqn:E; simpl.
    + reflexivity.
    + rewrite IH. now destruct (existsb (value_eqb k) (Map_keys m)).
Qed.

Lemma existsb_value_eqb (k : value) (l : list value) :
  existsb (value_eqb k) l = true <-> In k l.
Proof.
  rewrite existsb_exists. split.
  - intros [x [Hin E]]. apply value_eqb_eq in E. now subst.
  - intro H. exists k. split; [assumption | apply value_eqb_refl].
Qed.

Lemma keyed_set (x : item) (m : Map item) :
  keyed m -> keyed (Map_set (item_id x) x m).
Proof.
  intros [Hn Hf]. split.
  - rewrite Map_keys_set.
    destruct (existsb (value_eqb (item_id x)) (Map_keys m)) eqn:E; auto.
    apply NoDup_app; auto.
    + constructor; [intros []| constructor].
    + intros y Hy [<-|[]].
      apply existsb_value_eqb in Hy. congruence.
  - clear Hn. induction m as [|[k0 v0] m IH]; simpl.
    + constructor; auto.
    + inversion Hf; subst.
      destruct (value_eqb k0 (item_id x)) eqn:E.
      * constructor; auto. simpl. now apply value_eqb_eq in E.
      * constructor; auto.
Qed.

Lemma Map_get_keyed (k : value) (x : item) (m : Map item) :
  keyed m -> Map_get m k = Some x -> item_id x = k.
Proof.
  intros [_ Hf] H. induction m as [|[k0 v0] m IH]; simpl in *.
  - discriminate.
  - inversion Hf; subst. simpl in *.
    destruct (value_eqb k0 k) eqn:E.
    + apply value_eqb_eq in E. inversion H. subst. auto.
    + auto.
Qed.

Lemma with_id_absent (k : value) (m : Map item) :
  Forall (fun kv => fst kv = item_id (snd kv)) m ->
  ~ In k (Map_keys m) -> with_id k (Map_values m) = [].
Proof.
  intros Hf Hn. induction m as [|[k0 v0] m IH]; simpl in *.
  - reflexivity.
  - inversion Hf; subst. simpl in *.
    destruct (value_eqb (item_id v0) k) eqn:E.
    + apply value_eqb_eq in E. subst. tauto.
    + apply IH; tauto.
Qed.

(** The values of a keyed map that carry id [k] are the one stored
    under [k]. *)
Lemma with_id_values (k : value) (m : Map item) :
  keyed m -> with_id k (Map_values m) = option_list (Map_get m k).
Proof.
  intros [Hn Hf]. induction m as [|[k0 v0] m IH]; simpl in *.
  - reflexivity.
  - inversion Hf; subst. inversion Hn; subst. simpl in *. subst k0.
    destruct (value_eqb (item_id v0) k) eqn:E.
    + simpl. f_equal. apply value_eqb_eq in E. subst.
      now apply with_id_absent.
    + now apply IH.
Qed.

Lemma fold_set_keyed (l : list item) (m : Map item) :
  keyed m ->
  keyed (fold_left (fun m kv => Map_set (fst kv) (snd kv) m)
                   (map (fun it => (item_id it, it)) l) m).
Proof.
  revert m. induction l as [|x l IH]; intros m K; simpl; auto.
  apply IH. now apply keyed_set.
Qed.

Lemma fold_set_get (k : value) (l : list item) (m : Map item) :
  Map_get (fold_left (fun m kv => Map_set (fst kv) (snd kv) m)
                     (map (fun it => (item_id it, it)) l) m) k
  = last_with k l (Map_get m k).
Proof.
  unfold last_with. revert m. induction l as [|x l IH]; intro m; simpl.
  - reflexivity.
  - rewrite IH. simpl. now rewrite Map_get_set.
Qed.

Lemma keyed_nil : keyed [].
Proof. split; constructor. Qed.

Lemma by_id_keyed (l : list item) : keyed (by_id l).
Proof. apply fold_set_keyed, keyed_nil. Qed.

Lemma by_id_get (k : value) (l : list item) :
  Map_get (by_id l) k = last_with k l None.
Proof. unfold by_id, Map_of. now rewrite fold_set_get. Qed.

Lemma last_with_none (k : value) (l : list item) (acc : option item) :
  with_id k l = [] -> last_with k l acc = acc.
Proof.
  unfold last_with, with_id. revert acc.
  induction l as [|x l IH]; intros acc H; simpl in *; auto.
  destruct (value_eqb (item_id x) k); [discriminate | auto].
Qed.

Lemma last_with_app (k : value) (l1 l2 : list item) (acc : option item) :
  last_with k (l1 ++ l2) acc = last_with k l2 (last_with k l1 acc).
Proof. unfold last_with. apply fold_left_app. Qed.

Lemma with_id_app (k : value) (l1 l2 : list item) :
  with_id k (l1 ++ l2) = with_id k l1 ++ with_id k l2.
Proof. apply filter_app. Qed.

Lemma with_id_nil_iff (k : value) (l : list item) :
  with_id k l = [] <-> ~ In k (map item_id l).
Proof.
  induction l as [|y l IH]; simpl.
  - tauto.
  - destruct (value_eqb (item_id y) k) eqn:E.
    + apply value_eqb_eq in E. split; [discriminate | tauto].
    + apply value_eqb_neq in E. tauto.
Qed.

(** In a list without repeated ids, the items with the id of [x] are [x]
    alone. *)
Lemma with_id_unique (x : item) (l : list item) :
  NoDup (map item_id l) -> In x l -> with_id (item_id x) l = [x].
Proof.
  intros Hn Hin. induction l as [|y l IH]; simpl in *.
  - contradiction.
  - inversion Hn as [|? ? Hy Hn']; subst.
    destruct Hin as [->|Hin].
    + rewrite value_eqb_refl. f_equal. now apply with_id_nil_iff.
    + destruct (value_eqb (item_id y) (item_id x)) eqn:E.
      * apply value_eqb_eq in E. exfalso. apply Hy. rewrite E.
        now apply in_map.
      * now apply IH.
Qed.

Lemma last_with_single (k : value) (x : item) (l : list item)
  (acc : option item) :
  with_id k l = [x] -> last_with k l acc = Some x.
Proof.
  unfold last_with, with_id. revert acc.
  induction l as [|y l IH]; intros acc H; simpl in *.
  - discriminate.
  - destruct (value_eqb (item_id y) k) eqn:E.
    + inversion H as [[Hx Hl]].
      now apply (last_with_none k l (Some x)).
    + now apply IH.
Qed.

(** The items [Map_values (by_id l)] holds under id [k], when [l] has a
    single item of that id. *)
Lemma by_id_values_single (k : value) (x : item) (l : list item) :
  with_id k l = [x] -> with_id k (Map_values (by_id l)) = [x].
Proof.
  intro H. rewrite with_id_values by apply by_id_keyed.
  rewrite by_id_get. now rewrite (last_with_single k x l None H).
Qed.

(** ** Sets of ids *)

Lemma Set_of_In (k : value) (l s : list value) :
  In k (fold_left (fun s k => Set_add k s) l s) <-> In k s \/ In k l.
Proof.
  revert s. induction l as [|x l IH]; intro s; simpl.
  - tauto.
  - rewrite IH. unfold Set_add, Set_has.
    destruct (existsb (value_eqb x) s) eqn:E.
    + apply existsb_value_eqb in E. split; [tauto|].
      intros [H|[<-|H]]; tauto.
    + rewrite in_app_iff. simpl. tauto.
Qed.

Lemma Set_has_of (k : value) (l : list value) :
  Set_has (Set_of l) k = true <-> In k l.
Proof.
  unfold Set_has, Set_of. rewrite existsb_value_eqb, Set_of_In. simpl. tauto.
Qed.

Lemma with_id_excluded (k : value) (ids : list value) (l : list item) :
  Set_has ids k = true ->
  with_id k (filter (fun it => negb (Set_has ids (item_id it))) l) = [].
Proof.
  intro H. induction l as [|x l IH]; simpl; auto.
  destruct (Set_has ids (item_id x)) eqn:E; simpl; auto.
  destruct (value_eqb (item_id x) k) eqn:Ek; auto.
  apply value_eqb_eq in Ek. congruence.
Qed.

(** ** Detection *)

Lemma detectConflicts_eq (A B : list item) :
  detectConflicts A B = flat_map (detect_one (by_id B)) A.
Proof. reflexivity. Qed.

Lemma detect_one_cases (M : Map item) (x : item) :
  detect_one M x = []
  \/ exists r, Map_get M (item_id x) = Some r
       /\ detect_one M x =
          [mkConflict (item_id x) x r (Date_getTime (updatedAt x))
                      (Date_getTime (updatedAt r))].
Proof.
  unfold detect_one. destruct (Map_get M (item_id x)) as [r|]; auto.
  match goal with |- context [if ?c then _ else _] => destruct c end; auto.
  right. exists r. auto.
Qed.

Lemma detected_pairs_up (M : Map item) (A : list item) :
  keyed M -> Forall pairs_up (flat_map (detect_one M) A).
Proof.
  intro K. induction A as [|x A IH]; simpl.
  - constructor.
  - apply Forall_app. split; auto.
    destruct (detect_one_cases M x) as [->|[r [G ->]]].
    + constructor.
    + constructor; [|constructor]. split; simpl; auto.
      now apply (Map_get_keyed _ _ M).
Qed.

(** ** Resolution *)

Lemma resolve_fold (D : list Conflict) (acc : Resolution) :
  fold_left
    (fun resolved conflict =>
       if gt (localTime conflict) (remoteTime conflict)
       then mkResolution (keepLocal resolved ++ [conflict_local conflict])
                         (keepRemote resolved)
       else mkResolution (keepLocal resolved)
                         (keepRemote resolved ++ [conflict_remote conflict]))
    D acc
  = mkResolution
      (keepLocal acc ++ map conflict_local (filter local_newer D))
      (keepRemote acc
         ++ map conflict_remote (filter (fun c => negb (local_newer c)) D)).
Proof.
  revert acc. induction D as [|c D IH]; intro acc; simpl.
  - destruct acc. simpl. now rewrite !app_nil_r.
  - rewrite IH. unfold local_newer.
    destruct (gt (localTime c) (remoteTime c)); simpl;
      rewrite <- ?app_assoc; reflexivity.
Qed.

Lemma resolve_keepLocal (D : list Conflict) :
  keepLocal (resolveConflictsLastWriteWins D)
  = map conflict_local (filter local_newer D).
Proof.
  unfold resolveConflictsLastWriteWins. now rewrite resolve_fold.
Qed.

Lemma resolve_keepRemote (D : list Conflict) :
  keepRemote (resolveConflictsLastWriteWins D)
  = map conflict_remote (filter (fun c => negb (local_newer c)) D).
Proof.
  unfold resolveConflictsLastWriteWins. now rewrite resolve_fold.
Qed.

(** ** Merging *)

(** Only the local items of id [k] matter for what is kept under [k]. *)
Lemma kept_with_id (f : Conflict -> item) (P : Conflict -> bool)
  (M : Map item) (k : value) (A : list item) :
  keyed M -> f = conflict_local \/ f = conflict_remote ->
  with_id k (map f (filter P (flat_map (detect_one M) A)))
  = with_id k (map f (filter P (flat_map (detect_one M) (with_id k A)))).
Proof.
  intros K Hf. induction A as [|x A IH]; [reflexivity|].
  cbn [flat_map with_id filter].
  rewrite filter_app, map_app, with_id_app.
  fold (with_id k A).
  destruct (value_eqb (item_id x) k) eqn:E.
  - cbn [flat_map]. rewrite filter_app, map_app, with_id_app.
    now rewrite IH.
  - rewrite IH.
    replace (with_id k (map f (filter P (detect_one M x)))) with (@nil item);
      [reflexivity|].
    symmetry.
    destruct (detect_one_cases M x) as [-> | [r [G ->]]]; [reflexivity|].
    cbn [filter]. destruct (P _); [|reflexivity].
    cbn [map with_id filter].
    destruct Hf as [-> | ->]; cbn [conflict_local conflict_remote].
    + now rewrite E.
    + rewrite (Map_get_keyed _ _ M K G). now rewrite E.
Qed.

Lemma detect_one_conflict (B : list item) (a b : item) (ta tb : Z) :
  with_id (item_id b) B = [b] -> item_id a = item_id b ->
  JSON_stringify a <> JSON_stringify b ->
  Date_getTime (updatedAt a) = Some ta ->
  Date_getTime (updatedAt b) = Some tb ->
  ta <> tb ->
  detect_one (by_id B) a = [mkConflict (item_id a) a b (Some ta) (Some tb)].
Proof.
  intros Hb Hid Hjson Hta Htb Ht. unfold detect_one.
  rewrite Hid, by_id_get, (last_with_single _ b B None Hb), Hta, Htb.
  apply String.eqb_neq in Hjson. rewrite Hjson. simpl.
  apply Z.eqb_neq in Ht. now rewrite Ht.
Qed.

Lemma lww_merge_with_id (A B : list item) (a : item) (c : Conflict) :
  with_id (item_id a) A = [a] ->
  detect_one (by_id B) a = [c] ->
  with_id (item_id a) (lww_merge A B (detectConflicts A B))
  = [if local_newer c then conflict_local c else conflict_remote c].
Proof.
  intros Ha Hc.
  assert (Hin : In a A).
  { assert (H : In a (with_id (item_id a) A)) by (rewrite Ha; now left).
    apply filter_In in H. tauto. }
  assert (Hid : conflict_id c = item_id a
                /\ item_id (conflict_local c) = item_id a
                /\ item_id (conflict_remote c) = item_id a).
  { destruct (detect_one_cases (by_id B) a) as [E | [r [G E]]];
      rewrite E in Hc; [discriminate|]. inversion Hc. subst c. simpl.
    repeat split. now apply (Map_get_keyed _ _ (by_id B) (by_id_keyed B)). }
  destruct Hid as [Hid [Hl Hr]].
  unfold lww_merge. apply by_id_values_single.
  assert (Hset : Set_has (Set_of (map conflict_id (detectConflicts A B)))
                         (item_id a) = true).
  { apply Set_has_of. rewrite <- Hid. apply in_map.
    rewrite detectConflicts_eq. apply in_flat_map. exists a.
    split; [assumption | rewrite Hc; now left]. }
  rewrite !with_id_app, !with_id_excluded by assumption.
  cbn [app].
  rewrite resolve_keepLocal, resolve_keepRemote, detectConflicts_eq.
  rewrite (kept_with_id conflict_local), (kept_with_id conflict_remote)
    by auto using by_id_keyed.
  rewrite Ha. cbn [flat_map]. rewrite Hc. cbn [app filter].
  destruct (local_newer c); cbn [negb map with_id filter app].
  - now rewrite Hl, value_eqb_refl.
  - now rewrite Hr, value_eqb_refl.
Qed.

(** C3.  Under the last-write-wins policy, when the local list holds an
    item [a] and the remote list an item [b] of the same id, each the only
    item of that id on its side, with different serialized content and
    different valid [updatedAt] times, the merged result holds for that id
    exactly one item: the one of the two with the later [updatedAt]. *)
Theorem mergeItems_last_write_wins_keeps_newer
  (A B : list item) (a b : item) (ta tb : Z) :
  with_id (item_id a) A = [a] -> with_id (item_id b) B = [b] ->
  item_id a = item_id b ->
  JSON_stringify a <> JSON_stringify b ->
  Date_getTime (updatedAt a) = Some ta ->
  Date_getTime (updatedAt b) = Some tb ->
  ta <> tb ->
  with_id (item_id a) (merged (mergeItems A B (Some "last-write-wins"%string)))
  = [if tb <? ta then a else b].
Proof.
  intros Ha Hb Hid Hjson Hta Htb Ht.
  pose proof (detect_one_conflict B a b ta tb Hb Hid Hjson Hta Htb Ht) as Hc.
  assert (Hin : In a A).
  { assert (H : In a (with_id (item_id a) A)) by (rewrite Ha; now left).
    apply filter_In in H. tauto. }
  assert (Hd : detectConflicts A B <> []).
  { rewrite detectConflicts_eq. intro E.
    assert (H : In (mkConflict (item_id a) a b (Some ta) (Some tb))
                   (flat_map (detect_one (by_id B)) A)).
    { apply in_flat_map. exists a. split; [assumption|].
      rewrite Hc. now left. }
    rewrite E in H. contradiction. }
  unfold mergeItems.
  destruct (detectConflicts A B) as [|d D] eqn:E; [contradiction|].
  cbn [List.length Nat.eqb]. simpl String.eqb. cbv iota. cbn [merged].
  rewrite <- E.
  apply (lww_merge_with_id A B a _ Ha Hc).
Qed.

Lemma mergeItems_last_write_wins_keeps_newer_witness :
  with_id (VStr "1")
    (merged (mergeItems [other_item; older_item] [newer_item]
                        (Some "last-write-wins"%string)))
  = [newer_item].
Proof.
  apply (mergeItems_last_write_wins_keeps_newer
           [other_item; older_item] [newer_item] older_item newer_item
           1704103200000 1704103500000).
  - reflexivity.
  - reflexivity.
  - reflexivity.
  - vm_compute. discriminate.
  - reflexivity.
  - reflexivity.
  - lia.
Defined.

(** C5, as stated, fails: with a conflict on id 1 and an item of id 2 on the
    remote side only, the manual policy reports the conflict but its merged
    list is the local list: it holds the conflicting local item and lacks
    the item that only the remote side has. *)
Lemma mergeItems_manual_not_non_conflicting_subset :
  let r := mergeItems [older_item] [newer_item; other_item]
                      (Some "manual"%string) in
  conflicts r = detectConflicts [older_item] [newer_item; other_item]
  /\ conflicts r <> []
  /\ non_conflicting_subset [older_item] [newer_item; other_item]
     = [other_item]
  /\ merged r = [older_item]
  /\ merged r <> non_conflicting_subset [older_item] [newer_item; other_item].
Proof.
  vm_compute. repeat split; discriminate.
Qed.

(** C5, amended.  Under any policy other than last-write-wins, when at
    least one conflict is detected, [mergeItems] returns the full list of
    detected conflicts, unresolved, and as merged result the local list
    unchanged. *)
Theorem mergeItems_manual_keeps_local
  (A B : list item) (strategy : string) :
  strategy <> "last-write-wins"%string ->
  detectConflicts A B <> [] ->
  mergeItems A B (Some strategy)
  = mkMergeResult A (detectConflicts A B).
Proof.
  intros Hs Hd. unfold mergeItems.
  destruct (detectConflicts A B) as [|d D]; [contradiction|].
  simpl. apply String.eqb_neq in Hs. now rewrite Hs.
Qed.

Lemma mergeItems_manual_keeps_local_witness :
  mergeItems [older_item] [newer_item; other_item] (Some "manual"%string)
  = mkMergeResult [older_item]
      (detectConflicts [older_item] [newer_item; other_item]).
Proof.
  apply (mergeItems_manual_keeps_local
           [older_item] [newer_item; other_item] "manual").
  - discriminate.
  - vm_compute. discriminate.
Defined.

End ConflictResolver_Facts.

(* ===================================================================== *)
(** * Properties of the vault                                             *)
(* ===================================================================== *)

Module Vault_Facts.
Import JS JS_Facts Vault.
Local Open Scope string_scope.
Local Open Scope list_scope.

(** ** The entry built by [addPassword] and [addBookmark] *)

Lemma new_entry_id_given (uuid : string) (given : obj) (c u : string) :
  well_formed given -> has "id" given = true ->
  get "id" (new_entry uuid given c u) = get "id" given.
Proof.
  intros W H. unfold new_entry.
  rewrite !get_set_other by discriminate.
  now apply get_spread_has.
Qed.

Lemma new_entry_id_fresh (uuid : string) (given : obj) (c u : string) :
  has "id" given = false ->
  get "id" (new_entry uuid given c u) = VStr uuid.
Proof.
  intro H. unfold new_entry.
  rewrite !get_set_other by discriminate.
  now rewrite get_spread_lacks.
Qed.

Lemma new_entry_stamps (uuid : string) (given : obj) (c u : string) :
  get "createdAt" (new_entry uuid given c u) = VStr c
  /\ get "updatedAt" (new_entry uuid given c u) = VStr u
  /\ get "deletedAt" (new_entry uuid given c u) = VNull.
Proof.
  unfold new_entry. repeat split.
  - rewrite !get_set_other by discriminate. apply get_set_same.
  - rewrite get_set_other by discriminate. apply get_set_same.
  - apply get_set_same.
Qed.

Lemma addPassword_unlocked (w : World) (given : obj) (s : state) :
  unlocked s ->
  let entry := new_entry (randomUUID w (uuidsDrawn s)) given
                 (clock w (clockReads s)) (clock w (S (clockReads s))) in
  fst (addPassword w given s) = Ok entry
  /\ resident_passwords (snd (addPassword w given s))
     = resident_passwords s ++ [entry]
  /\ resident_bookmarks (snd (addPassword w given s)) = resident_bookmarks s.
Proof.
  intros [v [c [p [Hv Hm]]]]. destruct s; simpl in *; subst.
  repeat split.
Qed.

Lemma addBookmark_unlocked (w : World) (given : obj) (s : state) :
  unlocked s ->
  let entry := new_entry (randomUUID w (uuidsDrawn s)) given
                 (clock w (clockReads s)) (clock w (S (clockReads s))) in
  fst (addBookmark w given s) = Ok entry
  /\ resident_bookmarks (snd (addBookmark w given s))
     = resident_bookmarks s ++ [entry]
  /\ resident_passwords (snd (addBookmark w given s)) = resident_passwords s.
Proof.
  intros [v [c [p [Hv Hm]]]]. destruct s; simpl in *; subst.
  repeat split.
Qed.

Lemma new_entry_stored_for (w : World) (s : state) (given : obj) :
  well_formed given ->
  stored_for w s given
    (new_entry (randomUUID w (uuidsDrawn s)) given
               (clock w (clockReads s)) (clock w (S (clockReads s)))).
Proof.
  intro W.
  destruct (new_entry_stamps (randomUUID w (uuidsDrawn s)) given
              (clock w (clockReads s)) (clock w (S (clockReads s))))
    as [Hc [Hu Hd]].
  repeat split; auto.
  - intro H. now apply new_entry_id_given.
  - intro H. now apply new_entry_id_fresh.
Qed.

(** C9.  In an unlocked vault, [addPassword] and [addBookmark] succeed and
    store, at the end of their list, an item that keeps the [id] of the
    given entry when the entry has one (and takes the generated UUID
    otherwise), while its [createdAt] and [updatedAt] are the times read
    during the call and its [deletedAt] is [null], whatever the entry gave
    for these three. *)
Theorem add_keeps_given_id_and_stamps (w : World) (given : obj) (s : state) :
  unlocked s -> well_formed given ->
  (exists entry,
     fst (addPassword w given s) = Ok entry
     /\ resident_passwords (snd (addPassword w given s))
        = resident_passwords s ++ [entry]
     /\ stored_for w s given entry)
  /\ (exists entry,
        fst (addBookmark w given s) = Ok entry
        /\ resident_bookmarks (snd (addBookmark w given s))
           = resident_bookmarks s ++ [entry]
        /\ stored_for w s given entry).
Proof.
  intros U W. split.
  - destruct (addPassword_unlocked w given s U) as [H1 [H2 _]].
    eexists. split; [exact H1|]. split; [exact H2|].
    now apply new_entry_stored_for.
  - destruct (addBookmark_unlocked w given s U) as [H1 [H2 _]].
    eexists. split; [exact H1|]. split; [exact H2|].
    now apply new_entry_stored_for.
Qed.

Lemma empty_unlocked_unlocked : unlocked empty_unlocked.
Proof.
  exists (mkVault [] [] [("version", VStr "1.0.0")]), "c"%char,
    "orrect horse". split; reflexivity.
Qed.

Lemma add_keeps_given_id_and_stamps_witness :
  (exists entry,
     fst (addPassword example_world captured_entry empty_unlocked) = Ok entry
     /\ resident_passwords
          (snd (addPassword example_world captured_entry empty_unlocked))
        = resident_passwords empty_unlocked ++ [entry]
     /\ stored_for example_world empty_unlocked captured_entry entry)
  /\ (exists entry,
        fst (addBookmark example_world captured_entry empty_unlocked)
        = Ok entry
        /\ resident_bookmarks
             (snd (addBookmark example_world captured_entry empty_unlocked))
           = resident_bookmarks empty_unlocked ++ [entry]
        /\ stored_for example_world empty_unlocked captured_entry entry).
Proof.
  apply (add_keeps_given_id_and_stamps example_world captured_entry
           empty_unlocked).
  - exists (mkVault [] [] [("version", VStr "1.0.0")]), "c"%char,
      "orrect horse". split; reflexivity.
  - unfold well_formed. simpl.
    repeat constructor; simpl; intuition discriminate.
Defined.

(** ** Updates and soft deletes *)

Lemma findIndex_bound (i : value) (items : list item) (n : nat) :
  findIndex i items = Some n -> (n < List.length items)%nat.
Proof.
  revert n. induction items as [|x items IH]; intros n H; simpl in *.
  - discriminate.
  - destruct (value_eqb (get "id" x) i).
    + inversion H. lia.
    + destruct (findIndex i items) as [m|]; [|discriminate].
      inversion H. specialize (IH m eq_refl). lia.
Qed.

Lemma findIndex_id (i : value) (items : list item) (n : nat) :
  findIndex i items = Some n -> get "id" (nth n items []) = i.
Proof.
  revert n. induction items as [|x items IH]; intros n H; simpl in *.
  - discriminate.
  - destruct (value_eqb (get "id" x) i) eqn:E.
    + inversion H. now apply value_eqb_eq.
    + destruct (findIndex i items) as [m|]; [|discriminate].
      inversion H. now apply IH.
Qed.

Lemma nth_assign (n : nat) (x : item) (items : list item) :
  (n < List.length items)%nat -> nth n (assign n x items) [] = x.
Proof.
  revert n. induction items as [|y items IH]; intros n H; simpl in *.
  - lia.
  - destruct n; simpl; auto. apply IH. lia.
Qed.

(** [updatePassword] stamps the item with the time of the call. *)
Lemma updatePassword_stamps (w : World) (i : value) (updates : obj)
  (s : state) (n : nat) :
  unlocked s -> findIndex i (resident_passwords s) = Some n ->
  let updated :=
    set "updatedAt" (VStr (clock w (clockReads s)))
      (spread (spread [] (nth n (resident_passwords s) [])) updates) in
  fst (updatePassword w i updates s) = Ok updated
  /\ resident_passwords (snd (updatePassword w i updates s))
     = assign n updated (resident_passwords s)
  /\ get "updatedAt" updated = VStr (clock w (clockReads s)).
Proof.
  intros [v [c [p [Hv Hm]]]] Hf. destruct s; simpl in *; subst.
  unfold resident_passwords in *. simpl in *.
  unfold updatePassword, bind. simpl. rewrite Hf. simpl.
  repeat split. apply get_set_same.
Qed.

(** [deletePassword] stamps [deletedAt] and nothing else: the item keeps
    the [updatedAt] it had. *)
Lemma deletePassword_keeps_updatedAt (w : World) (i : value) (s : state)
  (n : nat) :
  unlocked s -> findIndex i (resident_passwords s) = Some n ->
  let deleted :=
    set "deletedAt" (VStr (clock w (clockReads s)))
      (nth n (resident_passwords s) []) in
  fst (deletePassword w i s) = Ok tt
  /\ resident_passwords (snd (deletePassword w i s))
     = assign n deleted (resident_passwords s)
  /\ get "deletedAt" deleted = VStr (clock w (clockReads s))
  /\ get "updatedAt" deleted
     = get "updatedAt" (nth n (resident_passwords s) []).
Proof.
  intros [v [c [p [Hv Hm]]]] Hf. destruct s; simpl in *; subst.
  unfold resident_passwords in *. simpl in *.
  unfold deletePassword, bind. simpl. rewrite Hf. simpl.
  repeat split.
  - apply get_set_same.
  - now apply get_set_other.
Qed.

(** C4 on a run: an entry is added at 10:00:00 and soft-deleted the next
    morning at 08:30:00.  The delete succeeds and stamps [deletedAt] with
    the time of the delete, but [updatedAt] is still the time of the add:
    the delete did not set it to the mutation time. *)
Theorem deletePassword_does_not_stamp_updatedAt :
  let added := snd (addPassword example_world captured_entry empty_unlocked) in
  let gone := deletePassword example_world (VStr "from-another-device") added in
  fst gone = Ok tt
  /\ map (get "deletedAt") (resident_passwords (snd gone))
     = [VStr "2024-01-02T08:30:00.000Z"]
  /\ map (get "updatedAt") (resident_passwords (snd gone))
     = [VStr "2024-01-01T10:00:00.001Z"]
  /\ clock example_world (clockReads added) = "2024-01-02T08:30:00.000Z".
Proof. vm_compute. repeat split. Qed.

(** What this costs: merged against the copy of the entry that was synced
    before the delete, the tombstone is not seen as a conflict (the two
    [updatedAt] are equal) and the copy that is not deleted is kept. *)
Example soft_delete_lost_in_merge :
  let added := snd (addPassword example_world captured_entry empty_unlocked) in
  let gone := deletePassword example_world (VStr "from-another-device") added in
  ConflictResolver.mergeItems (resident_passwords (snd gone))
                              (resident_passwords added) None
  = ConflictResolver.mkMergeResult (resident_passwords added) [].
Proof. vm_compute. reflexivity. Qed.

End Vault_Facts.

(* ===================================================================== *)
(** * Properties of the encodings                                         *)
(* ===================================================================== *)

Module Encoding_Facts.
Import JS Encoding.

(** Comparisons computed as booleans, read as propositions. *)
Ltac zbool :=
  repeat match goal with
    | H : (_ && _) = true |- _ => apply andb_prop in H; destruct H
    | H : (_ && _) = false |- _ => apply andb_false_iff in H; destruct H
    | H : (_ || _) = true |- _ => apply orb_prop in H; destruct H
    | H : (_ || _) = false |- _ => apply orb_false_iff in H; destruct H
    | H : (_ <=? _) = true |- _ => apply Z.leb_le in H
    | H : (_ <=? _) = false |- _ => apply Z.leb_gt in H
    | H : (_ <? _) = true |- _ => apply Z.ltb_lt in H
    | H : (_ <? _) = false |- _ => apply Z.ltb_ge in H
    | H : (_ =? _) = true |- _ => apply Z.eqb_eq in H
    | H : (_ =? _) = false |- _ => apply Z.eqb_neq in H
    end.

Ltac cases_on_tests :=
  repeat match goal with
    | |- context [if ?c then _ else _] =>
        let E := fresh "E" in destruct c eqn:E
    end; zbool.

(** ** Bytes *)

Lemma Z_of_byte_octet (b : Byte.byte) : octet (Z_of_byte b).
Proof.
  unfold octet, Z_of_byte. pose proof (Byte.to_N_bounded b). lia.
Qed.

Lemma byte_of_Z_of_byte (b : Byte.byte) : byte_of_Z (Z_of_byte b) = b.
Proof.
  unfold byte_of_Z. pose proof (Z_of_byte_octet b) as H. unfold octet in H.
  rewrite Z.mod_small by lia. unfold Z_of_byte.
  now rewrite N2Z.id, Byte.of_to_N.
Qed.

Lemma bytes_round_trip (b : bytes) : map byte_of_Z (map Z_of_byte b) = b.
Proof.
  rewrite map_map. rewrite <- (map_id b) at 2.
  apply map_ext. apply byte_of_Z_of_byte.
Qed.

Lemma bytes_octets (b : bytes) : Forall octet (map Z_of_byte b).
Proof.
  apply Forall_forall. intros z Hz. apply in_map_iff in Hz.
  destruct Hz as [x [<- _]]. apply Z_of_byte_octet.
Qed.

(** ** Induction three bytes at a time *)

Lemma list_ind_by_three (A : Type) (P : list A -> Prop) :
  P [] -> (forall a, P [a]) -> (forall a b, P [a; b]) ->
  (forall a b c l, P l -> P (a :: b :: c :: l)) ->
  forall l, P l.
Proof.
  intros H0 H1 H2 H3 l.
  assert (H : forall n l, (List.length l <= n)%nat -> P l).
  { induction n as [|n IH]; intros [|a [|b [|c k]]] Hl; simpl in Hl;
      auto; try lia.
    apply H3. apply IH. lia. }
  apply (H (List.length l)). lia.
Qed.

(** ** Base64 *)

Lemma base64_value_char (n : Z) :
  sextet n -> base64_value (base64_char n) = Some n.
Proof.
  unfold sextet, base64_char. intro H.
  cases_on_tests; unfold base64_value; cases_on_tests;
    try (f_equal; lia); exfalso; lia.
Qed.

Lemma base64_char_plain (n : Z) :
  sextet n ->
  (base64_char n =? 61) = false /\ is_ascii_whitespace (base64_char n) = false.
Proof.
  unfold sextet, base64_char. intro H.
  cases_on_tests; unfold is_ascii_whitespace;
    (split;
     [apply Z.eqb_neq; lia
     | repeat (apply orb_false_iff; split); apply Z.eqb_neq; lia]).
Qed.

Lemma sextets_sextet (l : list Z) :
  Forall octet l -> Forall sextet (sextets l).
Proof.
  induction l using list_ind_by_three; intro H; simpl.
  - constructor.
  - inversion H; subst. unfold octet, sextet in *.
    repeat constructor; Z.to_euclidean_division_equations; lia.
  - inversion H as [|? ? Ha H']; subst. inversion H'; subst.
    unfold octet, sextet in *.
    repeat constructor; Z.to_euclidean_division_equations; lia.
  - inversion H as [|? ? Ha H']; subst.
    inversion H' as [|? ? Hb H'']; subst.
    inversion H'' as [|? ? Hc H''']; subst.
    unfold octet, sextet in *.
    repeat (constructor; [Z.to_euclidean_division_equations; lia|]).
    now apply IHl.
Qed.

Lemma base64_encode_split (l : list Z) :
  base64_encode l = map base64_char (sextets l) ++ padding l.
Proof.
  induction l using list_ind_by_three; simpl; try reflexivity.
  now rewrite IHl.
Qed.

Lemma base64_decode_sextets (l : list Z) :
  Forall octet l -> base64_decode (sextets l) = l.
Proof.
  induction l using list_ind_by_three; intro H.
  - reflexivity.
  - inversion H; subst. unfold octet in *. simpl.
    f_equal. Z.to_euclidean_division_equations; lia.
  - inversion H as [|? ? Ha H']; subst. inversion H'; subst.
    unfold octet in *. simpl.
    f_equal; [|f_equal]; Z.to_euclidean_division_equations; lia.
  - inversion H as [|? ? Ha H']; subst.
    inversion H' as [|? ? Hb H'']; subst.
    inversion H'' as [|? ? Hc H''']; subst.
    unfold octet in *.
    change (sextets (a :: b :: c :: l))
      with (a / 4 :: (a mod 4 * 16 + b / 16) :: (b mod 16 * 4 + c / 64)
              :: c mod 64 :: sextets l).
    cbn [base64_decode]. rewrite IHl by assumption.
    f_equal; [|f_equal; [|f_equal]]; Z.to_euclidean_division_equations; lia.
Qed.

Lemma base64_values_chars (l : list Z) :
  Forall sextet l -> base64_values (map base64_char l) = Some l.
Proof.
  induction 1 as [|x l Hx Hl IH]; simpl.
  - reflexivity.
  - now rewrite (base64_value_char x Hx), IH.
Qed.

Lemma mod4_step (n : nat) :
  Nat.modulo (S (S (S (S n)))) 4 = Nat.modulo n 4.
Proof.
  change (S (S (S (S n)))) with (4 + n)%nat.
  rewrite Nat.add_comm.
  replace (n + 4)%nat with (n + 1 * 4)%nat by lia.
  apply Nat.Div0.mod_add.
Qed.

(** How the encoding ends: the number of [=] signs against the number of
    characters before them. *)
Lemma padding_shape (l : list Z) :
  (padding l = [] /\ Nat.modulo (List.length (sextets l)) 4 = 0%nat)
  \/ (padding l = [61] /\ Nat.modulo (List.length (sextets l)) 4 = 3%nat)
  \/ (padding l = [61; 61]
      /\ Nat.modulo (List.length (sextets l)) 4 = 2%nat).
Proof.
  induction l using list_ind_by_three; simpl padding.
  - left. split; reflexivity.
  - right. right. split; reflexivity.
  - right. left. split; reflexivity.
  - change (sextets (a :: b :: c :: l))
      with (a / 4 :: (a mod 4 * 16 + b / 16) :: (b mod 16 * 4 + c / 64)
              :: c mod 64 :: sextets l).
    cbn [List.length]. now rewrite mod4_step.
Qed.

Lemma base64_encode_length (l : list Z) :
  Nat.modulo (List.length (base64_encode l)) 4 = 0%nat.
Proof.
  induction l using list_ind_by_three; try reflexivity.
  change (base64_encode (a :: b :: c :: l))
    with (base64_char (a / 4) :: base64_char (a mod 4 * 16 + b / 16)
            :: base64_char (b mod 16 * 4 + c / 64) :: base64_char (c mod 64)
            :: base64_encode l).
  cbn [List.length]. now rewrite mod4_step.
Qed.

Lemma strip_padding_body (body pad : list Z) :
  Forall (fun c => (c =? 61) = false) body ->
  pad = [] \/ pad = [61] \/ pad = [61; 61] ->
  strip_padding (body ++ pad) = body.
Proof.
  intros Hb Hp. unfold strip_padding. rewrite rev_app_distr.
  assert (Hr : Forall (fun c => (c =? 61) = false) (rev body)).
  { apply Forall_forall. intros c Hc. apply in_rev in Hc.
    rewrite Forall_forall in Hb. now apply Hb. }
  destruct Hp as [-> | [-> | ->]]; simpl.
  - rewrite app_nil_r.
    destruct (rev body) as [|a [|b r]] eqn:E; auto;
      inversion Hr as [|? ? Ha ?]; subst; now rewrite Ha.
  - destruct (rev body) as [|b r] eqn:E.
    + apply (f_equal (@rev Z)) in E. rewrite rev_involutive in E.
      now subst.
    + inversion Hr as [|? ? Hb' ?]; subst. rewrite Hb'.
      change (rev (b :: r) = body). rewrite <- E. apply rev_involutive.
  - apply rev_involutive.
Qed.

Lemma filter_whitespace_plain (l : list Z) :
  Forall (fun c => is_ascii_whitespace c = false) l ->
  filter (fun c => negb (is_ascii_whitespace c)) l = l.
Proof.
  induction 1 as [|x l Hx Hl IH]; simpl.
  - reflexivity.
  - now rewrite Hx, IH.
Qed.

(** [atob] undoes the encoding [btoa] applies to byte values. *)
Lemma atob_base64_encode (l : list Z) :
  Forall octet l -> atob (base64_encode l) = Ok l.
Proof.
  intro H. unfold atob.
  pose proof (sextets_sextet l H) as Hs.
  assert (Hplain : Forall (fun c => (c =? 61) = false)
                     (map base64_char (sextets l))
                   /\ Forall (fun c => is_ascii_whitespace c = false)
                        (map base64_char (sextets l))).
  { split; apply Forall_forall; intros c Hc; apply in_map_iff in Hc;
      destruct Hc as [n [<- Hn]]; rewrite Forall_forall in Hs;
      now apply base64_char_plain, Hs. }
  destruct Hplain as [Hne Hws].
  rewrite filter_whitespace_plain.
  2:{ rewrite base64_encode_split. apply Forall_app. split; auto.
      destruct (padding_shape l) as [[-> _] | [[-> _] | [-> _]]];
        repeat constructor. }
  rewrite base64_encode_length. cbn [Nat.eqb].
  rewrite base64_encode_split, strip_padding_body; auto.
  2:{ destruct (padding_shape l) as [[-> _] | [[-> _] | [-> _]]]; auto. }
  rewrite length_map.
  destruct (padding_shape l) as [[_ ->] | [[_ ->] | [_ ->]]]; cbn [Nat.eqb];
    now rewrite base64_values_chars, base64_decode_sextets.
Qed.

End Encoding_Facts.

(* ===================================================================== *)
(** * UTF-8 carries well-formed text unchanged                            *)
(* ===================================================================== *)

Module Utf8_Facts.
Import JS Encoding Encoding_Facts.

Ltac Zify.zify_post_hook ::= Z.to_euclidean_division_equations.

(** Settle one test of the goal by arithmetic. *)
Ltac settle_test :=
  match goal with
  | |- context [if ?c then _ else _] =>
      first [ replace c with true by (symmetry; lia)
            | replace c with false by (symmetry; lia) ]
  end.

Lemma utf8_encode_scalar_octets (c : Z) :
  scalar c -> Forall octet (utf8_encode_scalar c).
Proof.
  unfold scalar, utf8_encode_scalar, octet. intro H.
  destruct (c <=? 0x7F) eqn:E1; [repeat constructor; lia|].
  destruct (c <=? 0x7FF) eqn:E2; [repeat constructor; lia|].
  destruct (c <=? 0xFFFF) eqn:E3; repeat constructor; lia.
Qed.

(** Run the decoder over the bytes the goal spells out. *)
Ltac run_decoder :=
  repeat first
    [ progress cbn [app decoder_run bytes_needed lower_boundary
                    upper_boundary code_point decoder_init]
    | progress unfold decoder_step, decoder_start
    | progress cbv beta iota
    | settle_test ].

(** The decoder reads back the scalar value the encoder wrote. *)
Lemma decoder_run_scalar (c : Z) (rest : list Z) :
  scalar c ->
  decoder_run decoder_init (utf8_encode_scalar c ++ rest)
  = c :: decoder_run decoder_init rest.
Proof.
  unfold scalar, utf8_encode_scalar. intro H.
  destruct (c <=? 0x7F) eqn:E1; [|destruct (c <=? 0x7FF) eqn:E2;
                                  [|destruct (c <=? 0xFFFF) eqn:E3]].
  - run_decoder. reflexivity.
  - run_decoder. f_equal. lia.
  - destruct (0xE0 + c / 4096 =? 0xE0) eqn:Ea;
      destruct (0xE0 + c / 4096 =? 0xED) eqn:Eb;
      run_decoder; f_equal; lia.
  - destruct (0xF0 + c / 262144 =? 0xF0) eqn:Ea;
      destruct (0xF0 + c / 262144 =? 0xF4) eqn:Eb;
      run_decoder; f_equal; lia.
Qed.

Lemma decoder_run_scalars (cs : list Z) :
  Forall scalar cs ->
  decoder_run decoder_init (flat_map utf8_encode_scalar cs) = cs.
Proof.
  induction 1 as [|c cs Hc Hcs IH]; simpl.
  - reflexivity.
  - now rewrite decoder_run_scalar, IH.
Qed.

Lemma Z_of_byte_of_Z (z : Z) : octet z -> Z_of_byte (byte_of_Z z) = z.
Proof.
  unfold octet, byte_of_Z, Z_of_byte. intro H.
  rewrite Z.mod_small by lia.
  destruct (Byte.of_N (Z.to_N z)) as [b|] eqn:E.
  - apply Byte.to_of_N in E. rewrite E. lia.
  - apply Byte.of_N_None_iff in E. lia.
Qed.

Lemma octets_round_trip (l : list Z) :
  Forall octet l -> map Z_of_byte (map byte_of_Z l) = l.
Proof.
  induction 1 as [|z l Hz Hl IH]; simpl.
  - reflexivity.
  - now rewrite Z_of_byte_of_Z, IH.
Qed.

Lemma utf8_octets (cs : list Z) :
  Forall scalar cs -> Forall octet (flat_map utf8_encode_scalar cs).
Proof.
  induction 1 as [|c cs Hc Hcs IH]; simpl.
  - constructor.
  - apply Forall_app. split; [now apply utf8_encode_scalar_octets | exact IH].
Qed.

(** The scalar values of a well-formed text are scalar values, and their
    UTF-16 is the text. *)
Lemma scalar_values_well_formed (s : jsstring) :
  well_formed_text s = true ->
  Forall scalar (scalar_values s)
  /\ flat_map utf16_of_scalar (scalar_values s) = s.
Proof.
  assert (H : forall n s, (List.length s <= n)%nat ->
              well_formed_text s = true ->
              Forall scalar (scalar_values s)
              /\ flat_map utf16_of_scalar (scalar_values s) = s).
  { induction n as [|n IH]; intros [|u rest] Hn Hw;
      cbn [well_formed_text scalar_values List.length flat_map] in *;
      try (split; [constructor | reflexivity]); try lia.
    destruct (is_lead u) eqn:Elead.
    - destruct rest as [|l rest']; [discriminate|].
      apply andb_prop in Hw. destruct Hw as [Htrail Hw].
      rewrite Htrail.
      unfold is_lead in Elead. unfold is_trail in Htrail.
      destruct (IH rest') as [Hs Hu];
        [cbn [List.length] in Hn; lia | assumption |].
      split.
      + constructor; [unfold scalar; lia | assumption].
      + cbn [flat_map]. rewrite Hu. unfold utf16_of_scalar.
        replace (_ <=? 0xFFFF) with false by (symmetry; lia).
        cbn [app]. f_equal; [lia | f_equal; lia].
    - destruct (is_trail u) eqn:Etrail; [discriminate|].
      cbn [negb andb] in Hw.
      apply andb_prop in Hw. destruct Hw as [Hw Hrest].
      unfold is_lead in Elead. unfold is_trail in Etrail.
      destruct (IH rest) as [Hs Hu]; [lia | assumption |].
      split.
      + constructor; [unfold scalar; lia | assumption].
      + cbn [flat_map]. rewrite Hu. unfold utf16_of_scalar.
        replace (u <=? 0xFFFF) with true by (symmetry; lia).
        reflexivity. }
  apply (H (List.length s)). lia.
Qed.

Lemma strip_BOM_other (cs : list Z) :
  Forall scalar cs ->
  match cs with c :: _ => c <> 0xFEFF | [] => True end ->
  strip_BOM (flat_map utf8_encode_scalar cs) = flat_map utf8_encode_scalar cs.
Proof.
  intros Hs Hc. destruct cs as [|c cs]; [reflexivity|].
  inversion Hs as [|? ? Hsc _]; subst. simpl.
  generalize (flat_map utf8_encode_scalar cs) as rest. intro rest.
  unfold scalar in Hsc. unfold utf8_encode_scalar.
  destruct (c <=? 0x7F) eqn:E1; [|destruct (c <=? 0x7FF) eqn:E2;
                                  [|destruct (c <=? 0xFFFF) eqn:E3]];
    cbn [app];
    try (destruct rest as [|b1 [|b2 rest]]; try reflexivity);
    unfold strip_BOM;
    match goal with
    | |- (if ?t then _ else _) = _ =>
        replace t with false by (symmetry; lia); reflexivity
    end.
Qed.

Lemma scalar_values_head (s : jsstring) :
  well_formed_text s = true -> starts_with_BOM s = false ->
  match scalar_values s with c :: _ => c <> 0xFEFF | [] => True end.
Proof.
  destruct s as [|u rest];
    cbn [well_formed_text scalar_values starts_with_BOM]; auto.
  intros Hw Hb. destruct (is_lead u) eqn:Elead.
  - destruct rest as [|l rest']; [discriminate|].
    apply andb_prop in Hw. destruct Hw as [Htrail _]. rewrite Htrail.
    unfold is_lead in Elead. unfold is_trail in Htrail. lia.
  - destruct (is_trail u); [discriminate | lia].
Qed.

(** A well-formed text that does not start with U+FEFF comes back from
    [TextDecoder] as [TextEncoder] took it. *)
Lemma transcode_carried (s : jsstring) :
  carried_by_utf8 s = true ->
  TextDecoder_decode (TextEncoder_encode s) = s.
Proof.
  unfold carried_by_utf8. intro H. apply andb_prop in H.
  destruct H as [Hw Hb]. apply negb_true_iff in Hb.
  destruct (scalar_values_well_formed s Hw) as [Hs Hu].
  unfold TextDecoder_decode, TextEncoder_encode.
  rewrite octets_round_trip by now apply utf8_octets.
  rewrite strip_BOM_other;
    [| assumption | now apply scalar_values_head].
  now rewrite decoder_run_scalars.
Qed.

(** ** Different texts, different UTF-8 *)

(** [TextEncoder] gives different well-formed texts different bytes. *)
Lemma TextEncoder_encode_injective (s1 s2 : jsstring) :
  well_formed_text s1 = true -> well_formed_text s2 = true ->
  TextEncoder_encode s1 = TextEncoder_encode s2 -> s1 = s2.
Proof.
  intros H1 H2 H.
  destruct (scalar_values_well_formed s1 H1) as [S1 U1].
  destruct (scalar_values_well_formed s2 H2) as [S2 U2].
  unfold TextEncoder_encode in H.
  apply (f_equal (map Z_of_byte)) in H.
  rewrite !octets_round_trip in H by now apply utf8_octets.
  apply (f_equal (decoder_run decoder_init)) in H.
  rewrite !decoder_run_scalars in H by assumption.
  rewrite <- U1, <- U2, H. reflexivity.
Qed.

(** A text that does not start with the second half of a pair is encoded
    on its own when it follows another. *)
Lemma scalar_values_app (a b : jsstring) :
  match b with u :: _ => is_trail u = false | [] => True end ->
  scalar_values (a ++ b) = scalar_values a ++ scalar_values b.
Proof.
  intro Hb.
  assert (H : forall n a, (List.length a <= n)%nat ->
              scalar_values (a ++ b) = scalar_values a ++ scalar_values b).
  { clear a. induction n as [|n IH]; intros [|u rest] Hn;
      cbn [List.length] in Hn; try reflexivity; try lia.
    cbn [app scalar_values].
    destruct (is_lead u) eqn:Elead.
    - destruct rest as [|l rest'].
      + cbn [app]. destruct b as [|p b']; [reflexivity|].
        rewrite Hb. reflexivity.
      + cbn [app]. destruct (is_trail l).
        * cbn [app]. f_equal. apply IH. cbn [List.length] in Hn. lia.
        * cbn [app]. f_equal. apply (IH (l :: rest')). lia.
    - destruct (is_trail u); cbn [app]; f_equal; apply IH; lia. }
  apply (H (List.length a)). lia.
Qed.

Lemma TextEncoder_encode_app (a b : jsstring) :
  match b with u :: _ => is_trail u = false | [] => True end ->
  TextEncoder_encode (a ++ b) = TextEncoder_encode a ++ TextEncoder_encode b.
Proof.
  intro Hb. unfold TextEncoder_encode.
  now rewrite scalar_values_app, flat_map_app, map_app.
Qed.

End Utf8_Facts.

(* ===================================================================== *)
(** * The model satisfies the interface                                   *)
(* ===================================================================== *)

Module Platform_Model_Laws.
Import JS Encoding Platform Platform_Model.

Lemma fit_length (n : nat) (b : bytes) : List.length (fit n b) = n.
Proof.
  unfold fit, zeros. rewrite length_firstn, length_app, repeat_length. lia.
Qed.

Lemma strip_prefix_app (prefix l : bytes) :
  strip_prefix prefix (prefix ++ l) = Some l.
Proof.
  induction prefix as [|p prefix IH]; simpl.
  - reflexivity.
  - now rewrite (Byte.byte_dec_lb (eq_refl p)).
Qed.

Lemma model_PBKDF2_derives (h : hash) (password salt : bytes)
  (iterations : Z) :
  0 < iterations < 2 ^ 32 ->
  exists key, model_PBKDF2 h password salt iterations 256 = Some key
              /\ List.length key = 32%nat.
Proof.
  intro H. unfold model_PBKDF2.
  replace ((0 <? iterations) && (iterations <? 2 ^ 32) && (256 =? 256))
    with true.
  - eexists. split; [reflexivity | apply fit_length].
  - symmetry. rewrite !andb_true_iff. repeat split.
    + apply Z.ltb_lt. lia.
    + apply Z.ltb_lt. lia.
Qed.

Lemma model_opens_sealed (key iv data : bytes) :
  List.length key = 32%nat -> List.length iv = 12%nat ->
  exists ciphertext,
    model_encrypt key iv data = Some ciphertext
    /\ model_decrypt key iv ciphertext = Some data.
Proof.
  intros _ _. exists (key ++ iv ++ data). split; [reflexivity|].
  unfold model_decrypt. rewrite app_assoc. apply strip_prefix_app.
Qed.

#[export] Instance model : WebCrypto := {|
  PBKDF2 := model_PBKDF2;
  SHA256 := model_SHA256;
  AES_GCM_encrypt := model_encrypt;
  AES_GCM_decrypt := model_decrypt;
  HMAC_SHA512 := model_HMAC;
  JSON_parse := model_JSON_parse;
  ToString_other := fun _ => Threw TypeError;
  PBKDF2_derives := model_PBKDF2_derives;
  AES_GCM_opens_sealed := model_opens_sealed;
  HMAC_SHA512_length := fun key data => fit_length 64 (key ++ data)
|}.

End Platform_Model_Laws.

(* ===================================================================== *)
(** * Properties of encryption.js                                         *)
(* ===================================================================== *)

Module Encryption_Facts.
Import JS Encoding Encoding_Facts Platform Encryption.

(** ** Constant-time comparison *)

Lemma compare_fold (l : list (Z * Z)) (acc : Z) :
  fold_left (fun result ab => Z.lor result (Z.lxor (fst ab) (snd ab))) l acc
  = 0
  <-> acc = 0 /\ Forall (fun ab => fst ab = snd ab) l.
Proof.
  revert acc. induction l as [|[x y] l IH]; intro acc; simpl.
  - split; [intro H; split; [assumption | constructor] | tauto].
  - rewrite IH, Z.lor_eq_0_iff, Z.lxor_eq_0_iff. split.
    + intros [[Ha Hxy] Hl]. split; auto.
    + intros [Ha Hl]. inversion Hl; subst. simpl in *. auto.
Qed.

Lemma combine_equal (a b : list Z) :
  List.length a = List.length b ->
  Forall (fun ab => fst ab = snd ab) (combine a b) -> a = b.
Proof.
  revert b. induction a as [|x a IH]; intros [|y b] Hl H; simpl in *;
    try discriminate; auto.
  inversion H; subst. simpl in *. f_equal; auto.
Qed.

Lemma combine_same (a : list Z) :
  Forall (fun ab => fst ab = snd ab) (combine a a).
Proof. induction a; simpl; constructor; auto. Qed.

(** [constantTimeCompare] answers [true] on equal strings and on no
    others. *)
Lemma constantTimeCompare_true (a b : jsstring) :
  constantTimeCompare a b = true <-> a = b.
Proof.
  unfold constantTimeCompare.
  destruct (Nat.eqb (List.length a) (List.length b)) eqn:E; simpl.
  - apply Nat.eqb_eq in E. rewrite Z.eqb_eq, compare_fold. split.
    + intros [_ H]. now apply combine_equal.
    + intros ->. split; [reflexivity | apply combine_same].
  - apply Nat.eqb_neq in E. split; [discriminate|].
    intros ->. contradiction.
Qed.

(** ** Base64 of buffers *)

Lemma arrayBufferToBase64_total (buffer : bytes) :
  arrayBufferToBase64 buffer
  = Ok (base64_encode (map Z_of_byte buffer)).
Proof.
  unfold arrayBufferToBase64, btoa.
  replace (forallb _ _) with true; [reflexivity|].
  symmetry. apply forallb_forall. intros z Hz.
  pose proof (bytes_octets buffer) as Ho. rewrite Forall_forall in Ho.
  specialize (Ho z Hz). unfold octet in Ho.
  apply andb_true_iff. split; [apply Z.leb_le | apply Z.leb_le]; lia.
Qed.

(** What [arrayBufferToBase64] writes, [base64ToArrayBuffer] reads back. *)
Lemma base64ToArrayBuffer_arrayBufferToBase64 (buffer : bytes) :
  exists text,
    arrayBufferToBase64 buffer = Ok text
    /\ base64ToArrayBuffer text = Ok buffer.
Proof.
  exists (base64_encode (map Z_of_byte buffer)). split.
  - apply arrayBufferToBase64_total.
  - unfold base64ToArrayBuffer.
    rewrite atob_base64_encode by apply bytes_octets. simpl.
    now rewrite bytes_round_trip.
Qed.


Lemma base64_encode_nil (l : list Z) : base64_encode l = [] -> l = [].
Proof. destruct l as [|a [|b [|c r]]]; simpl; congruence. Qed.

Section WithPlatform.
Context {crypto : WebCrypto}.

(** ** Key derivation *)

Lemma deriveKey_two_rounds (secret : jsstring) (salt : bytes) (n : Z) :
  deriveKey secret salt n = two_rounds secret salt n.
Proof.
  unfold deriveKey, two_rounds, KEY_LENGTH, lift, and_then.
  destruct (PBKDF2 SHA_256 _ salt n 256) as [round1|]; [|reflexivity].
  now destruct (PBKDF2 SHA_512 round1 _ (n / 2) 256).
Qed.

Lemma deriveKey_derives (secret : jsstring) (salt : bytes) (n : Z) :
  2 <= n < 2 ^ 32 ->
  exists key, deriveKey secret salt n = Ok key /\ List.length key = 32%nat.
Proof.
  intro H. rewrite deriveKey_two_rounds. unfold two_rounds.
  destruct (PBKDF2_derives SHA_256 (TextEncoder_encode (secret ++ PEPPER))
              salt n) as [round1 [-> _]]; [lia|].
  destruct (PBKDF2_derives SHA_512 round1
              (SHA256 (salt ++ TextEncoder_encode (js "round2"))) (n / 2))
    as [key [-> Hk]].
  - Z.to_euclidean_division_equations; lia.
  - now exists key.
Qed.

(** C8.  For every secret and salt, [deriveKey] is the two-round
    derivation: the secret followed by the pepper is stretched with
    PBKDF2-SHA-256, the given salt and [n] iterations, and that output is
    stretched again with PBKDF2-SHA-512, the SHA-256 hash of the salt
    followed by the constant [round2], and [n / 2] iterations (rounded
    down).  For a work factor [n] that gives both rounds at least one
    iteration, the derivation succeeds and the key has 32 bytes, that is
    256 bits. *)
Theorem deriveKey_two_rounds_256 (secret : jsstring) (salt : bytes) (n : Z) :
  deriveKey secret salt n = two_rounds secret salt n
  /\ (2 <= n < 2 ^ 32 ->
      exists key,
        deriveKey secret salt n = Ok key
        /\ (8 * Z.of_nat (List.length key) = 256)).
Proof.
  split; [apply deriveKey_two_rounds|].
  intro H. destruct (deriveKey_derives secret salt n H) as [key [Hk Hl]].
  exists key. split; [assumption | lia].
Qed.

(** ** Sealing and opening *)

(** What [encrypt] returns: the envelope of the ciphertext the cipher gave
    for the UTF-8 of the plaintext under the derived key. *)
Lemma encrypt_envelope (plaintext masterPassword : jsstring)
  (salt iv : bytes) :
  List.length iv = IV_LENGTH ->
  exists key sealed,
    deriveKey masterPassword salt PBKDF2_ITERATIONS = Ok key
    /\ List.length key = 32%nat
    /\ AES_GCM_encrypt key iv (TextEncoder_encode plaintext) = Some sealed
    /\ AES_GCM_decrypt key iv sealed = Some (TextEncoder_encode plaintext)
    /\ encrypt plaintext masterPassword salt iv
       = Ok (mkEnvelope (base64_encode (map Z_of_byte sealed))
                        (base64_encode (map Z_of_byte salt))
                        (base64_encode (map Z_of_byte iv))
                        (Some PBKDF2_ITERATIONS)).
Proof.
  intro Hiv.
  destruct (deriveKey_derives masterPassword salt PBKDF2_ITERATIONS)
    as [key [Hk Hl]]; [unfold PBKDF2_ITERATIONS; lia|].
  destruct (AES_GCM_opens_sealed key iv (TextEncoder_encode plaintext) Hl Hiv)
    as [sealed [He Hd]].
  exists key, sealed. repeat split; auto.
  unfold encrypt. rewrite Hk. simpl. rewrite He. simpl.
  now rewrite !arrayBufferToBase64_total.
Qed.

Lemma base64ToArrayBuffer_encode (buffer : bytes) :
  base64ToArrayBuffer (base64_encode (map Z_of_byte buffer)) = Ok buffer.
Proof.
  unfold base64ToArrayBuffer.
  rewrite atob_base64_encode by apply bytes_octets. simpl.
  now rewrite bytes_round_trip.
Qed.

(** [decrypt] on an envelope whose three fields decode and whose key
    derives: the answer of the cipher decides, and a rejection is the one
    opaque error. *)
Lemma decrypt_decoded (e : envelope) (masterPassword : jsstring)
  (sealed salt iv key : bytes) :
  base64ToArrayBuffer (ciphertext e) = Ok sealed ->
  base64ToArrayBuffer (Encryption.salt e) = Ok salt ->
  base64ToArrayBuffer (Encryption.iv e) = Ok iv ->
  deriveKey masterPassword salt (iterations_or_legacy (iterations e)) = Ok key ->
  decrypt e masterPassword = opened (AES_GCM_decrypt key iv sealed).
Proof.
  intros Hc Hs Hi Hk. unfold decrypt. rewrite Hc. simpl. rewrite Hs. simpl.
  rewrite Hi. simpl. rewrite Hk. reflexivity.
Qed.

(** Opening what was sealed under the same password gives the plaintext as
    UTF-8 carries it. *)
Lemma decrypt_encrypt_transcoded (plaintext masterPassword : jsstring)
  (salt iv : bytes) :
  List.length iv = IV_LENGTH ->
  exists e,
    encrypt plaintext masterPassword salt iv = Ok e
    /\ decrypt e masterPassword
       = Ok (TextDecoder_decode (TextEncoder_encode plaintext)).
Proof.
  intro Hiv.
  destruct (encrypt_envelope plaintext masterPassword salt iv Hiv)
    as [key [sealed [Hk [Hl [He [Hd Henc]]]]]].
  eexists. split; [exact Henc|].
  rewrite (decrypt_decoded _ masterPassword sealed salt iv key);
    simpl; auto using base64ToArrayBuffer_encode.
  now rewrite Hd.
Qed.

(** Two passwords with the same UTF-8 open each other's envelopes. *)
Lemma decrypt_same_encoding (plaintext s1 s2 : jsstring) (salt iv : bytes) :
  List.length iv = IV_LENGTH ->
  TextEncoder_encode (s1 ++ PEPPER) = TextEncoder_encode (s2 ++ PEPPER) ->
  exists e,
    encrypt plaintext s1 salt iv = Ok e
    /\ decrypt e s2 = Ok (TextDecoder_decode (TextEncoder_encode plaintext)).
Proof.
  intros Hiv Henc.
  destruct (decrypt_encrypt_transcoded plaintext s1 salt iv Hiv)
    as [e [He Hd]].
  exists e. split; [assumption|].
  rewrite <- Hd. unfold decrypt, deriveKey. now rewrite Henc.
Qed.

(** A field that is not base64 makes [decrypt] fail with the error of
    [atob]. *)
Lemma decrypt_bad_ciphertext (e : envelope) (masterPassword : jsstring)
  (error : exn) :
  atob (ciphertext e) = Threw error -> decrypt e masterPassword = Threw error.
Proof.
  intro H. unfold decrypt, base64ToArrayBuffer. now rewrite H.
Qed.

(** Passwords with different UTF-8 are different key materials. *)
Lemma peppered_differ (s1 s2 : jsstring) :
  TextEncoder_encode s1 <> TextEncoder_encode s2 ->
  TextEncoder_encode (s1 ++ PEPPER) <> TextEncoder_encode (s2 ++ PEPPER).
Proof.
  intros Hne H. apply Hne.
  rewrite !Utf8_Facts.TextEncoder_encode_app in H by reflexivity.
  now apply app_inv_tail in H.
Qed.

(** The keys of two passwords that the derivation separates differ. *)
Lemma derived_keys_differ (s1 s2 : jsstring) (salt key1 key2 : bytes)
  (n : Z) :
  TextEncoder_encode (s1 ++ PEPPER) <> TextEncoder_encode (s2 ++ PEPPER) ->
  derivation_separates s1 s2 salt n ->
  deriveKey s1 salt n = Ok key1 -> deriveKey s2 salt n = Ok key2 ->
  key1 <> key2.
Proof.
  intros Hne [Hround1 Hround2]. rewrite !deriveKey_two_rounds.
  unfold two_rounds.
  destruct (PBKDF2 SHA_256 (TextEncoder_encode (s1 ++ PEPPER)) salt n 256)
    as [r1|] eqn:E1; [|discriminate].
  destruct (PBKDF2 SHA_256 (TextEncoder_encode (s2 ++ PEPPER)) salt n 256)
    as [r2|] eqn:E2; [|discriminate].
  pose proof (Hround1 Hne r1 r2 E1 E2) as Hr.
  destruct (PBKDF2 SHA_512 r1 _ (n / 2) 256) as [k1|] eqn:K1;
    [|discriminate].
  destruct (PBKDF2 SHA_512 r2 _ (n / 2) 256) as [k2|] eqn:K2;
    [|discriminate].
  intros [= <-] [= <-]. exact (Hround2 r1 r2 eq_refl eq_refl Hr k1 k2 K1 K2).
Qed.

(** C2, amended.  Let [s1] and [s2] be passwords with different UTF-8, as
    any two different passwords without a surrogate outside a pair are
    ([Utf8_Facts.TextEncoder_encode_injective]), and [e] the envelope
    [encrypt] returns for a plaintext under [s1].  PBKDF2 separating the two
    passwords and AES-GCM rejecting under the key of the one what it sealed
    under the key of the other, [decrypt] of [e] under [s2] throws the one
    opaque decryption error: it returns no plaintext.  And when the
    ciphertext of [e] is replaced by the base64 of any other bytes,
    [decrypt], under whatever password, returns the text of what AES-GCM
    authenticated under the key of that password, or throws that same error
    when AES-GCM rejects the bytes; it throws no other. *)
Theorem decrypt_wrong_secret_rejected
  (plaintext s1 s2 : jsstring) (salt iv : bytes) :
  List.length iv = IV_LENGTH ->
  TextEncoder_encode s1 <> TextEncoder_encode s2 ->
  derivation_separates s1 s2 salt PBKDF2_ITERATIONS ->
  cipher_rejects_other_key s1 s2 salt iv PBKDF2_ITERATIONS
                           (TextEncoder_encode plaintext) ->
  exists e,
    encrypt plaintext s1 salt iv = Ok e
    /\ decrypt e s2 = Threw decryption_failed
    /\ forall s tampered,
         exists key,
           deriveKey s salt PBKDF2_ITERATIONS = Ok key
           /\ decrypt
                (with_ciphertext e (base64_encode (map Z_of_byte tampered))) s
              = opened (AES_GCM_decrypt key iv tampered).
Proof.
  intros Hiv Hne Hsep Hrej.
  destruct (encrypt_envelope plaintext s1 salt iv Hiv)
    as [key1 [sealed [Hk1 [Hl [He [Hd Henc]]]]]].
  destruct (deriveKey_derives s2 salt PBKDF2_ITERATIONS)
    as [key2 [Hk2 _]]; [unfold PBKDF2_ITERATIONS; lia|].
  eexists. split; [exact Henc|]. split.
  - rewrite (decrypt_decoded _ s2 sealed salt iv key2);
      simpl; auto using base64ToArrayBuffer_encode.
    assert (Hkeys : key1 <> key2).
    { apply (derived_keys_differ s1 s2 salt key1 key2 PBKDF2_ITERATIONS);
        auto using peppered_differ. }
    rewrite deriveKey_two_rounds in Hk1, Hk2.
    now rewrite (Hrej key1 key2 sealed Hk1 Hk2 Hkeys He).
  - intros s tampered.
    destruct (deriveKey_derives s salt PBKDF2_ITERATIONS)
      as [key [Hk _]]; [unfold PBKDF2_ITERATIONS; lia|].
    exists key. split; [assumption|].
    apply (decrypt_decoded _ s tampered salt iv key); simpl;
      auto using base64ToArrayBuffer_encode.
Qed.

(** C1, amended.  For every plaintext that is well-formed UTF-16 (no
    surrogate outside a pair) and does not start with U+FEFF, every master
    password and every salt and 12-byte nonce drawn, [encrypt] returns an
    envelope and [decrypt] of that envelope under the same password returns
    the plaintext. *)
Theorem decrypt_encrypt (plaintext masterPassword : jsstring)
  (salt iv : bytes) :
  List.length iv = IV_LENGTH ->
  carried_by_utf8 plaintext = true ->
  exists e,
    encrypt plaintext masterPassword salt iv = Ok e
    /\ decrypt e masterPassword = Ok plaintext.
Proof.
  intros Hiv Htext.
  destruct (decrypt_encrypt_transcoded plaintext masterPassword salt iv Hiv)
    as [e [He Hd]].
  exists e. now rewrite Hd, Utf8_Facts.transcode_carried.
Qed.

(** ** Password verification *)

Lemma recompute_nonempty (password : jsstring) (hashData : json)
  (computed : jsstring) :
  recompute password hashData = Ok computed -> computed <> [].
Proof.
  unfold recompute, and_then.
  destruct (member (js "salt") hashData) as [storedSalt|]; [|discriminate].
  destruct (ToString storedSalt) as [saltText|]; [|discriminate].
  destruct (base64ToArrayBuffer saltText) as [salt|]; [|discriminate].
  destruct (Nat.eqb (List.length salt) 0); [discriminate|].
  rewrite arrayBufferToBase64_total. intros [= <-] Hnil.
  apply base64_encode_nil, map_eq_nil in Hnil.
  pose proof (HMAC_SHA512_length salt
                (TextEncoder_encode (password ++ PEPPER))) as Hlen.
  rewrite Hnil in Hlen. discriminate.
Qed.

Lemma constantTimeCompare_any_true (a : jsstring) (b : option json) :
  a <> [] ->
  (constantTimeCompare_any a b = Ok true <-> b = Some (JStr a)).
Proof.
  intro Ha.
  assert (Hlen : Nat.eqb (List.length a) 0 = false).
  { destruct a; [contradiction | reflexivity]. }
  unfold constantTimeCompare_any.
  destruct b as [v|]; [|split; discriminate].
  destruct v as [| | |s|elements|members];
    try (split; discriminate).
  - cbn [member and_then].
    destruct (list_eq_dec Z.eq_dec (js "length") (js "length"));
      [|contradiction].
    destruct (Z.of_nat (List.length a) =? Z.of_nat (List.length s)) eqn:E;
      cbn [negb].
    + split.
      * intros [= H]. apply constantTimeCompare_true in H. now subst.
      * intros [= ->]. f_equal. now apply constantTimeCompare_true.
    + split; [discriminate|]. intros [= ->]. rewrite Z.eqb_refl in E.
      discriminate.
  - cbn [member and_then].
    destruct (list_eq_dec Z.eq_dec (js "length") (js "length"));
      [|contradiction].
    destruct (Z.of_nat (List.length a) =? _); cbn [negb]; rewrite ?Hlen;
      split; discriminate.
  - cbn [member and_then].
    destruct (option_map snd _) as [[| |n| | |]|]; try (split; discriminate).
    destruct (Z.of_nat (List.length a) =? n); cbn [negb]; rewrite ?Hlen;
      split; discriminate.
Qed.

(** What [verifyPassword] recomputes, spelled out: the [salt] field of the
    stored record is read as a text and decoded from base64; the bytes
    obtained, which must not be none, key HMAC-SHA-512 over the UTF-8 of the
    password followed by the pepper; the result is written in base64. *)
Lemma recompute_spelled (password : jsstring) (hashData : json)
  (computed : jsstring) :
  recompute password hashData = Ok computed <->
  exists saltField saltText salt,
    member (js "salt") hashData = Ok saltField
    /\ ToString saltField = Ok saltText
    /\ base64ToArrayBuffer saltText = Ok salt
    /\ salt <> []
    /\ computed
       = base64_encode
           (map Z_of_byte
              (HMAC_SHA512 salt (TextEncoder_encode (password ++ PEPPER)))).
Proof.
  unfold recompute, and_then. split.
  - destruct (member (js "salt") hashData) as [saltField|]; [|discriminate].
    destruct (ToString saltField) as [saltText|] eqn:Et; [|discriminate].
    destruct (base64ToArrayBuffer saltText) as [salt|] eqn:Es;
      [|discriminate].
    destruct salt as [|b salt]; [discriminate|]. cbn [List.length Nat.eqb].
    rewrite arrayBufferToBase64_total. intros [= <-].
    exists saltField, saltText, (b :: salt).
    split; [reflexivity|]. split; [exact Et|]. split; [exact Es|].
    split; [discriminate | reflexivity].
  - intros [saltField [saltText [salt [-> [-> [-> [Hne ->]]]]]]].
    destruct salt as [|b salt]; [contradiction|]. cbn [List.length Nat.eqb].
    apply arrayBufferToBase64_total.
Qed.

Lemma verifyPassword_true (password storedHash : jsstring) :
  verifyPassword password storedHash = Ok true <->
  exists hashData computed,
    JSON_parse storedHash = Some hashData
    /\ recompute password hashData = Ok computed
    /\ member (js "hash") hashData = Ok (Some (JStr computed)).
Proof.
  unfold verifyPassword, verifyPassword_try, lift, and_then.
  destruct (JSON_parse storedHash) as [hashData|].
  2:{ split; [discriminate | intros [h [c [H _]]]; discriminate]. }
  destruct (recompute password hashData) as [computed|error] eqn:Hr.
  2:{ split; [discriminate | intros [h [c [[= <-] [H _]]]]; congruence]. }
  pose proof (recompute_nonempty _ _ _ Hr) as Hne.
  destruct (member (js "hash") hashData) as [stored|error] eqn:Hm.
  2:{ split; [discriminate | intros [h [c [[= <-] [_ H]]]]; congruence]. }
  pose proof (constantTimeCompare_any_true computed stored Hne) as Hcmp.
  split.
  - intro H.
    assert (Ht : constantTimeCompare_any computed stored = Ok true).
    { destruct (constantTimeCompare_any computed stored) as [[|]|];
        congruence. }
    apply Hcmp in Ht. subst stored.
    exists hashData, computed. auto.
  - intros [h [c [[= <-] [Hc Hs]]]].
    assert (c = computed) by congruence. subst c.
    assert (stored = Some (JStr computed)) by congruence.
    apply Hcmp in H. now rewrite H.
Qed.

(** C10.  [verifyPassword] always returns a boolean.  It returns [true]
    exactly when the stored text parses, its [salt] field, read as a text,
    decodes from base64 to bytes that are not none, and its [hash] field is
    a string equal to the base64 of HMAC-SHA-512, keyed with those bytes, of
    the UTF-8 of the password followed by the pepper.  So it returns [false]
    when the text is not valid JSON, when the [salt] or the [hash] field is
    missing, and when the stored hash differs from that recomputed one, in
    length or at any position. *)
Theorem verifyPassword_boolean_and_exact (password storedHash : jsstring) :
  (verifyPassword password storedHash = Ok true
   \/ verifyPassword password storedHash = Ok false)
  /\ (verifyPassword password storedHash = Ok true <->
      exists hashData saltField saltText salt,
        JSON_parse storedHash = Some hashData
        /\ member (js "salt") hashData = Ok saltField
        /\ ToString saltField = Ok saltText
        /\ base64ToArrayBuffer saltText = Ok salt
        /\ salt <> []
        /\ member (js "hash") hashData
           = Ok (Some (JStr (base64_encode
                              (map Z_of_byte
                                 (HMAC_SHA512 salt
                                    (TextEncoder_encode
                                       (password ++ PEPPER))))))))
  /\ (JSON_parse storedHash = None ->
      verifyPassword password storedHash = Ok false)
  /\ (forall hashData,
        JSON_parse storedHash = Some hashData ->
        member (js "salt") hashData = Ok None
        \/ member (js "hash") hashData = Ok None ->
        verifyPassword password storedHash = Ok false)
  /\ (forall hashData saltField saltText salt stored,
        JSON_parse storedHash = Some hashData ->
        member (js "salt") hashData = Ok saltField ->
        ToString saltField = Ok saltText ->
        base64ToArrayBuffer saltText = Ok salt ->
        member (js "hash") hashData = Ok (Some (JStr stored)) ->
        stored <> base64_encode
                    (map Z_of_byte
                       (HMAC_SHA512 salt
                          (TextEncoder_encode (password ++ PEPPER)))) ->
        verifyPassword password storedHash = Ok false).
Proof.
  assert (Hbool : verifyPassword password storedHash = Ok true
                  \/ verifyPassword password storedHash = Ok false).
  { unfold verifyPassword.
    destruct (verifyPassword_try password storedHash) as [[|]|]; auto. }
  assert (Hexact : verifyPassword password storedHash = Ok true <->
            exists hashData saltField saltText salt,
              JSON_parse storedHash = Some hashData
              /\ member (js "salt") hashData = Ok saltField
              /\ ToString saltField = Ok saltText
              /\ base64ToArrayBuffer saltText = Ok salt
              /\ salt <> []
              /\ member (js "hash") hashData
                 = Ok (Some (JStr (base64_encode
                                    (map Z_of_byte
                                       (HMAC_SHA512 salt
                                          (TextEncoder_encode
                                             (password ++ PEPPER)))))))).
  { rewrite verifyPassword_true. split.
    - intros [hashData [computed [Hp [Hr Hm]]]].
      apply recompute_spelled in Hr.
      destruct Hr as [saltField [saltText [salt [H1 [H2 [H3 [H4 ->]]]]]]].
      exists hashData, saltField, saltText, salt. auto 10.
    - intros [hashData [saltField [saltText [salt
               [Hp [H1 [H2 [H3 [H4 Hm]]]]]]]]].
      exists hashData. eexists. split; [exact Hp|]. split; [|exact Hm].
      apply recompute_spelled. exists saltField, saltText, salt. auto 10. }
  assert (Hfalse : verifyPassword password storedHash <> Ok true ->
                   verifyPassword password storedHash = Ok false).
  { intro H. destruct Hbool; [contradiction | assumption]. }
  split; [exact Hbool|]. split; [exact Hexact|]. repeat split.
  - intro Hp. apply Hfalse. rewrite Hexact.
    intros [h [f [t [sl [H _]]]]]. congruence.
  - intros hashData Hp Hmissing. apply Hfalse. rewrite Hexact.
    intros [h [f [t [sl [Hp' [H1 [H2 [H3 [H4 Hm]]]]]]]]].
    assert (h = hashData) by congruence. subst h.
    destruct Hmissing as [Hs | Hh]; [|congruence].
    assert (f = None) by congruence. subst f.
    cbn [ToString] in H2. injection H2 as <-.
    vm_compute in H3. discriminate.
  - intros hashData saltField saltText salt stored Hp H1 H2 H3 Hm Hne.
    apply Hfalse. rewrite Hexact.
    intros [h [f [t [sl [Hp' [H1' [H2' [H3' [H4' Hm']]]]]]]]].
    assert (h = hashData) by congruence. subst h.
    assert (f = saltField) by congruence. subst f.
    assert (t = saltText) by congruence. subst t.
    assert (sl = salt) by congruence. subst sl.
    congruence.
Qed.

End WithPlatform.

(** ** Runs on the model platform *)

Import Platform_Model Platform_Model_Laws.

(** C1, as stated, fails: a plaintext that starts with U+FEFF comes back
    without it, because [TextDecoder] drops a leading byte order mark. *)
Lemma decrypt_encrypt_drops_byte_order_mark :
  exists e,
    encrypt marked_text (js "pw") drawn_salt drawn_iv = Ok e
    /\ decrypt e (js "pw") = Ok (js "hi")
    /\ decrypt e (js "pw") <> Ok marked_text.
Proof.
  eexists. split; [vm_compute; reflexivity|].
  split; [vm_compute; reflexivity | vm_compute; discriminate].
Qed.

(** The same on every platform, and likewise for a surrogate on its own,
    which comes back as U+FFFD. *)
Lemma decrypt_encrypt_not_identity {crypto : WebCrypto}
  (masterPassword : jsstring) (salt iv : bytes) :
  List.length iv = IV_LENGTH ->
  (exists e,
     encrypt marked_text masterPassword salt iv = Ok e
     /\ decrypt e masterPassword = Ok (js "hi"))
  /\ (exists e,
        encrypt [0xD800] masterPassword salt iv = Ok e
        /\ decrypt e masterPassword = Ok [0xFFFD]).
Proof.
  intro Hiv. split.
  - apply (decrypt_encrypt_transcoded marked_text masterPassword salt iv Hiv).
  - apply (decrypt_encrypt_transcoded [0xD800] masterPassword salt iv Hiv).
Qed.

Lemma decrypt_encrypt_witness :
  exists e,
    encrypt (js "{}") (js "pw") drawn_salt drawn_iv = Ok e
    /\ decrypt e (js "pw") = Ok (js "{}").
Proof.
  apply (decrypt_encrypt (js "{}") (js "pw") drawn_salt drawn_iv);
    reflexivity.
Defined.

(** C2, as stated, fails twice.  The passwords U+D800 and U+FFFD differ but
    have the same UTF-8, so what is sealed under the first opens under the
    second; and a ciphertext corrupted into text that is not base64 makes
    [decrypt] fail with the error of [atob], not with the opaque one. *)
Lemma decrypt_not_always_opaque :
  ([0xD800] <> [0xFFFD]
   /\ exists e,
        encrypt (js "secret") [0xD800] drawn_salt drawn_iv = Ok e
        /\ decrypt e [0xFFFD] = Ok (js "secret"))
  /\ decrypt garbled (js "pw") = Threw InvalidCharacterError
  /\ decrypt garbled (js "pw") <> Threw decryption_failed.
Proof.
  split; [split; [discriminate|]|split].
  - eexists. split; [vm_compute; reflexivity|]. vm_compute. reflexivity.
  - reflexivity.
  - vm_compute. discriminate.
Qed.

Lemma decrypt_wrong_secret_rejected_witness :
  exists e,
    encrypt (js "secret") (js "pw") drawn_salt drawn_iv = Ok e
    /\ decrypt e (js "guess") = Threw decryption_failed
    /\ forall s tampered,
         exists key,
           deriveKey s drawn_salt PBKDF2_ITERATIONS = Ok key
           /\ decrypt
                (with_ciphertext e (base64_encode (map Z_of_byte tampered))) s
              = opened (AES_GCM_decrypt key drawn_iv tampered).
Proof.
  apply (decrypt_wrong_secret_rejected (js "secret") (js "pw") (js "guess")
           drawn_salt drawn_iv).
  - reflexivity.
  - vm_compute. discriminate.
  - split.
    + intros _ k k' H1 H2. vm_compute in H1, H2.
      injection H1 as <-. injection H2 as <-. discriminate.
    + intros r1 r2 H1 H2. vm_compute in H1, H2.
      injection H1 as <-. injection H2 as <-.
      intros _ k k' H3 H4. vm_compute in H3, H4.
      injection H3 as <-. injection H4 as <-. discriminate.
  - intros key1 key2 sealed H1 H2 _ He. vm_compute in H1, H2.
    injection H1 as <-. injection H2 as <-.
    vm_compute in He. injection He as <-. reflexivity.
Defined.

(** On the model platform a wrong password is rejected with the opaque
    error. *)
Example wrong_password_rejected :
  exists e,
    encrypt (js "secret") (js "pw") drawn_salt drawn_iv = Ok e
    /\ decrypt e (js "guess") = Threw decryption_failed.
Proof.
  eexists. split; [vm_compute; reflexivity|]. vm_compute. reflexivity.
Qed.

Lemma deriveKey_two_rounds_256_witness :
  exists key,
    deriveKey (js "pw") drawn_salt PBKDF2_ITERATIONS = Ok key
    /\ 8 * Z.of_nat (List.length key) = 256.
Proof.
  apply (proj2 (deriveKey_two_rounds_256 (js "pw") drawn_salt
                  PBKDF2_ITERATIONS)).
  unfold PBKDF2_ITERATIONS. lia.
Defined.

Example verifyPassword_runs :
  verifyPassword (js "pw") stored_record = Ok true
  /\ verifyPassword (js "pW") stored_record = Ok false
  /\ verifyPassword (js "pw") (js "not json") = Ok false
  /\ verifyPassword (js "pw") (js "null") = Ok false
  /\ verifyPassword (js "pw") (js "{}") = Ok false.
Proof. vm_compute. repeat split. Qed.

End Encryption_Facts.

(* ===================================================================== *)
(** * Properties of the sync engine                                       *)
(* ===================================================================== *)

Module SyncService_Facts.
Import JS SyncService.
Local Open Scope string_scope.
Local Open Scope list_scope.

Section Engine.
Variable w : World.
Variable remote : Remote.

Lemma same_engine_refl (s : state) : same_engine s s.
Proof. repeat split. Qed.

Lemma same_engine_trans (s1 s2 s3 : state) :
  same_engine s1 s2 -> same_engine s2 s3 -> same_engine s1 s3.
Proof.
  unfold same_engine. intros [A1 [A2 [A3 [A4 A5]]]] [B1 [B2 [B3 [B4 B5]]]].
  repeat split; congruence.
Qed.

Lemma on_vault_same {A} (c : M Vault.state A) (s : state) :
  same_engine s (snd (on_vault c s)).
Proof.
  unfold on_vault. destruct (c (vault s)) as [r v]. repeat split.
Qed.

(** Replaying a queued entry never throws and touches the vault only. *)
Lemma replay_same (q : queued) (s : state) :
  fst (replay w q s) = Ok tt /\ same_engine s (snd (replay w q s)).
Proof.
  unfold replay, try_catch.
  repeat match goal with
         | |- context [if ?c then _ else _] => destruct c
         end;
    try (split; [reflexivity | apply same_engine_refl]);
    unfold bind;
    match goal with
    | |- context [on_vault ?c s] =>
        pose proof (on_vault_same c s) as Hs;
        destruct (on_vault c s) as [[a|e] s']
    end; simpl in *; split; auto.
Qed.

Lemma replay_all_same (queue : list queued) (s : state) :
  fst (replay_all w queue s) = Ok tt
  /\ same_engine s (snd (replay_all w queue s)).
Proof.
  revert s. induction queue as [|q queue IH]; intro s; simpl.
  - split; [reflexivity | apply same_engine_refl].
  - unfold bind. destruct (replay_same q s) as [Hr Hs].
    destruct (replay w q s) as [r s1]. simpl in *. subst r.
    destruct (IH s1) as [Hr' Hs']. split; auto.
    eapply same_engine_trans; eauto.
Qed.

Lemma processSyncQueue_same (s : state) :
  fst (processSyncQueue w s) = Ok tt
  /\ same_engine s (snd (processSyncQueue w s)).
Proof.
  unfold processSyncQueue, bind, getSyncQueue, read, ret. simpl.
  destruct (sync_queue s) as [|q queue] eqn:E.
  - split; [reflexivity | apply same_engine_refl].
  - destruct (replay_all_same (q :: queue) s) as [Hr Hs].
    destruct (replay_all w (q :: queue) s) as [r s1]. simpl in *. subst r.
    split; [reflexivity|].
    unfold same_engine in *. simpl. tauto.
Qed.

Lemma sync_collection_faithful (getLocal : M Vault.state (list item))
  (c : collection) (lastSync strategy : option string) (s : state) :
  faithful remote s
    (sync_collection w remote getLocal c lastSync strategy s).
Proof.
  unfold sync_collection, try_catch, bind.
  pose proof (on_vault_same getLocal s) as Hs.
  destruct (on_vault getLocal s) as [[localItems|e] s1]; simpl in Hs;
    destruct Hs as [H1 [H2 [H3 [H4 H5]]]].
  2:{ unfold throw, faithful. simpl. repeat split; auto.
      exists []. rewrite app_nil_r. split; auto. intros q e' []. }
  unfold fetchItems, uploadItems, getDeviceId, LocalStorage.getDeviceId,
    on_vault, Vault.now, send, bind, read, ret, throw. simpl.
  destruct (fetch remote c lastSync) as [remoteItems|e] eqn:Hf.
  2:{ unfold faithful. simpl. repeat split; auto.
      exists [Fetch c lastSync]. rewrite H5. split; auto.
      intros q e' [<-|[]] Hq. simpl in Hq. rewrite Hf in Hq. congruence. }
  simpl.
  destruct (device_id s1) as [[|ch t]|]; simpl;
  destruct (upload remote c _) as [u|e] eqn:Hu.
  all: unfold faithful; simpl; repeat split; auto;
    eexists; rewrite H5, <- app_assoc; (split; [reflexivity|]).
  all: try (repeat constructor; simpl;
            [now rewrite Hf | rewrite Hu; now destruct u]).
  all: intros q e' [<-|[<-|[]]] Hq; simpl in Hq;
    [rewrite Hf in Hq; discriminate | congruence].
Qed.

Lemma syncPasswords_faithful (lastSync strategy : option string) (s : state) :
  faithful remote s (syncPasswords w remote lastSync strategy s).
Proof.
  apply (sync_collection_faithful Vault.getPasswords Passwords).
Qed.

Lemma syncBookmarks_faithful (lastSync strategy : option string) (s : state) :
  faithful remote s (syncBookmarks w remote lastSync strategy s).
Proof.
  apply (sync_collection_faithful Vault.getBookmarks Bookmarks).
Qed.

(** The [try] block of [performSync]: it leaves the engine idle; when it
    throws, the watermark is the one it started with and a request that
    failed failed with what it throws; when it returns, every request was
    answered. *)
Lemma performSync_pass_outcome (s : state) :
  let out := performSync_pass w remote s in
  isSyncing (snd out) = false
  /\ exists new,
       sent (snd out) = sent s ++ new
       /\ match fst out with
          | Ok _ => Forall (fun q => response remote q = Ok tt) new
          | Threw e =>
              last_sync_timestamp (snd out) = last_sync_timestamp s
              /\ forall q e',
                   In q new -> response remote q = Threw e' -> e' = e
          end.
Proof.
  unfold performSync_pass, try_catch, bind, getLastSyncTimestamp, read, ret.
  simpl.
  set (lastSync := match last_sync_timestamp s with
                   | Some (String c t) => Some (String c t)
                   | _ => None
                   end).
  destruct (syncPasswords_faithful lastSync (conflictResolution s) s)
    as [P1 [P2 [P3 [new1 [P4 P5]]]]].
  destruct (syncPasswords w remote lastSync (conflictResolution s) s)
    as [[passwordResult|e] s1]; simpl in *.
  2:{ split; auto. exists new1. auto. }
  destruct (syncBookmarks_faithful lastSync (conflictResolution s) s1)
    as [B1 [B2 [B3 [new2 [B4 B5]]]]].
  destruct (syncBookmarks w remote lastSync (conflictResolution s) s1)
    as [[bookmarkResult|e] s2]; simpl in *.
  2:{ split; auto. exists (new1 ++ new2).
      rewrite B4, P4, <- app_assoc. split; auto. split; [congruence|].
      intros q e' Hq Hr. apply in_app_or in Hq. destruct Hq as [Hq|Hq].
      - rewrite Forall_forall in P5. rewrite (P5 q Hq) in Hr. discriminate.
      - eauto. }
  destruct (processSyncQueue_same s2) as [Q1 [Q2 [Q3 [Q4 [Q5 Q6]]]]].
  destruct (processSyncQueue w s2) as [q s3]; simpl in *. subst q.
  pose proof (on_vault_same (Vault.now w) s3) as [N1 [N2 [N3 [N4 N5]]]].
  destruct (on_vault (Vault.now w) s3) as [[now|e] s4] eqn:En; simpl in *.
  - split; auto. exists (new1 ++ new2).
    rewrite Q6, B4, P4, <- app_assoc. split; auto.
    apply Forall_app. auto.
  - unfold on_vault, Vault.now in En. inversion En.
Qed.

(** C7.  Whenever a request that [performSync] sent to the remote store
    during its pass failed, for passwords or for bookmarks, fetching or
    uploading, [performSync] throws that very error, [isSyncing] is false
    afterwards and the stored last-sync timestamp is the one the pass
    started with. *)
Theorem performSync_remote_error_aborts (s : state) (q : request)
  (e : exn) :
  In q (requests_since s (snd (performSync w remote s))) ->
  response remote q = Threw e ->
  fst (performSync w remote s) = Threw e
  /\ isSyncing (snd (performSync w remote s)) = false
  /\ last_sync_timestamp (snd (performSync w remote s))
     = last_sync_timestamp s.
Proof.
  unfold performSync, performSync_enter, performSync_authenticated,
    isAuthenticated, requests_since, bind, read, ret, throw, set_isSyncing.
  simpl.
  destruct (isSyncing s) eqn:Hidle; simpl.
  { rewrite skipn_all. intros []. }
  destruct (match auth_token s with
            | Some (String _ _) => true
            | _ => false
            end); simpl.
  2:{ rewrite skipn_all. intros []. }
  match goal with
  | |- context [performSync_pass w remote ?s0] =>
      destruct (performSync_pass_outcome s0) as [Hflag [new [Hsent Hout]]];
      destruct (performSync_pass w remote s0) as [[r|e0] s']
  end; simpl in *; rewrite Hsent, skipn_app, skipn_all, Nat.sub_diag;
    simpl; intros Hq Hr.
  - rewrite Forall_forall in Hout. rewrite (Hout q Hq) in Hr. discriminate.
  - destruct Hout as [Hmark Herr]. rewrite (Herr q e Hq Hr). auto.
Qed.

(** A call that finds [isSyncing] set returns [in_progress] at once and
    changes nothing. *)
Lemma performSync_while_syncing (s : state) :
  isSyncing s = true -> performSync w remote s = (Ok in_progress, s).
Proof.
  intro H. unfold performSync, performSync_enter, bind, read, ret.
  now rewrite H.
Qed.

Lemma resume_while_syncing (s : state) :
  isSyncing s = true -> resume w remote Called s = (Settled (Ok in_progress), s).
Proof.
  intro H. unfold resume, performSync_enter, bind, read, ret.
  now rewrite H.
Qed.

(** From any idle state of a signed-in user, two calls made one after the
    other are both inside the [try] block once each has been resumed
    twice. *)
Lemma two_calls_both_enter (s : state) (c : ascii) (token : string) :
  isSyncing s = false -> auth_token s = Some (String c token) ->
  fst (run w remote [0; 1; 0; 1]%nat [Called; Called] s) = [InPass; InPass].
Proof.
  intros Hidle Htoken. destruct s. simpl in *. subst.
  reflexivity.
Qed.

End Engine.

Lemma performSync_remote_error_aborts_witness :
  fst (performSync Vault.example_world failing_remote idle)
  = Threw (Error "Failed to upload passwords")
  /\ isSyncing (snd (performSync Vault.example_world failing_remote idle))
     = false
  /\ last_sync_timestamp
       (snd (performSync Vault.example_world failing_remote idle))
     = last_sync_timestamp idle.
Proof.
  apply (performSync_remote_error_aborts Vault.example_world failing_remote
           idle
           (Upload Passwords (Vault.resident_passwords (vault idle))
                   (randomUUID Vault.example_world 1)
                   (clock Vault.example_world 3))
           (Error "Failed to upload passwords")).
  - vm_compute. right. left. reflexivity.
  - reflexivity.
Defined.

(** C6 on a run: two calls of [performSync] are made one after the other
    by a signed-in user while the engine is idle.  Each passes the test of
    [isSyncing] before the other has set it, because the flag is set only
    after [await isAuthenticated()].  Both are then inside the [try] block
    at the same time, neither returns [in_progress], and the remote store
    receives the requests of two passes. *)
Theorem performSync_two_calls_two_passes :
  let calls := [Called; Called] in
  let entered :=
    run Vault.example_world empty_remote [0; 1; 0; 1]%nat calls idle in
  let finished :=
    run Vault.example_world empty_remote [0; 1; 0; 1; 0; 1]%nat calls idle in
  fst entered = [InPass; InPass]
  /\ isSyncing (snd entered) = true
  /\ Forall (fun c => c <> Settled (Ok in_progress)) (fst finished)
  /\ map request_shape (sent (snd finished))
     = [(false, Passwords); (true, Passwords);
        (false, Bookmarks); (true, Bookmarks);
        (false, Passwords); (true, Passwords);
        (false, Bookmarks); (true, Bookmarks)].
Proof.
  vm_compute. repeat split. repeat constructor; discriminate.
Qed.

(** When the second call comes after the first has set the flag, it is
    turned away. *)
Example performSync_second_call_turned_away :
  fst (run Vault.example_world empty_remote [0; 0; 1]%nat [Called; Called]
           idle)
  = [InPass; Settled (Ok in_progress)].
Proof. reflexivity. Qed.

End SyncService_Facts.

(* ===================================================================== *)
(** * Properties of the merge, for every id                               *)
(* ===================================================================== *)

Module Merge_Facts.
Import JS JS_Facts ConflictResolver ConflictResolver_Facts MergeBranches.

(** ** Maps built from item lists *)

Lemma last_with_In (k : value) (l : list item) (acc : option item) (x : item) :
  last_with k l acc = Some x -> In x l \/ acc = Some x.
Proof.
  unfold last_with. revert acc.
  induction l as [|y l IH]; intros acc H; simpl in *; auto.
  apply IH in H. destruct H as [H|H]; auto.
  destruct (value_eqb (item_id y) k); auto.
  inversion H. auto.
Qed.

Lemma by_id_get_In (k : value) (l : list item) (x : item) :
  Map_get (by_id l) k = Some x -> In x l /\ item_id x = k.
Proof.
  intro H. split.
  - rewrite by_id_get in H. apply last_with_In in H.
    destruct H; [assumption | discriminate].
  - now apply (Map_get_keyed k x (by_id l) (by_id_keyed l)).
Qed.

Lemma Map_get_None (k : value) (m : Map item) :
  Map_get m k = None <-> ~ In k (Map_keys m).
Proof.
  induction m as [|[k0 v0] m IH]; simpl.
  - tauto.
  - destruct (value_eqb k0 k) eqn:E.
    + apply value_eqb_eq in E. split; [discriminate | tauto].
    + apply value_eqb_neq in E. tauto.
Qed.

Lemma Map_get_Some_key (k : value) (x : item) (m : Map item) :
  Map_get m k = Some x -> In k (Map_keys m).
Proof.
  induction m as [|[k0 v0] m IH]; simpl; [discriminate|].
  destruct (value_eqb k0 k) eqn:E; auto.
  apply value_eqb_eq in E. auto.
Qed.

Lemma fold_set_keys (k : value) (l : list item) (m : Map item) :
  In k (Map_keys (fold_left (fun m kv => Map_set (fst kv) (snd kv) m)
                            (map (fun it => (item_id it, it)) l) m))
  <-> In k (Map_keys m) \/ In k (map item_id l).
Proof.
  revert m. induction l as [|x l IH]; intro m; simpl.
  - tauto.
  - rewrite IH, Map_keys_set.
    destruct (existsb (value_eqb (item_id x)) (Map_keys m)) eqn:E.
    + apply existsb_value_eqb in E. split; [tauto|].
      intros [H|[<-|H]]; tauto.
    + rewrite in_app_iff. simpl. tauto.
Qed.

Lemma by_id_keys (k : value) (l : list item) :
  In k (Map_keys (by_id l)) <-> In k (map item_id l).
Proof. unfold by_id, Map_of. rewrite fold_set_keys. simpl. tauto. Qed.

Lemma keyed_values_ids (m : Map item) :
  keyed m -> map item_id (Map_values m) = Map_keys m.
Proof.
  intros [_ Hf]. induction m as [|[k0 v0] m IH]; simpl; auto.
  inversion Hf; subst. simpl in *. f_equal; auto.
Qed.

Lemma keyed_values_In (m : Map item) (x : item) :
  keyed m -> In x (Map_values m) -> Map_get m (item_id x) = Some x.
Proof.
  intros [Hn Hf] Hin. induction m as [|[k0 v0] m IH]; simpl in *.
  - contradiction.
  - inversion Hf; subst. inversion Hn; subst. simpl in *. subst k0.
    destruct Hin as [->|Hin].
    + now rewrite value_eqb_refl.
    + destruct (value_eqb (item_id v0) (item_id x)) eqn:E.
      * apply value_eqb_eq in E. exfalso.
        match goal with H : ~ In _ _ |- _ => apply H end.
        rewrite E. clear - Hin H2.
        induction m as [|[k1 v1] m IH]; simpl in *; [contradiction|].
        inversion H2; subst. simpl in *.
        destruct Hin as [->|Hin]; auto.
      * now apply IH.
Qed.

Lemma by_id_values_In (l : list item) (x : item) :
  In x (Map_values (by_id l)) -> In x l.
Proof.
  intro H. apply (keyed_values_In _ _ (by_id_keyed l)) in H.
  now apply by_id_get_In in H.
Qed.

(** ** Sets *)

Lemma Set_add_NoDup (k : value) (s : list value) :
  NoDup s -> NoDup (Set_add k s).
Proof.
  intro H. unfold Set_add, Set_has.
  destruct (existsb (value_eqb k) s) eqn:E; auto.
  apply NoDup_app; auto.
  - constructor; [intros [] | constructor].
  - intros y Hy [<-|[]]. apply existsb_value_eqb in Hy. congruence.
Qed.

Lemma fold_add_NoDup (l s : list value) :
  NoDup s -> NoDup (fold_left (fun s k => Set_add k s) l s).
Proof.
  revert s. induction l as [|x l IH]; intros s H; simpl; auto.
  apply IH. now apply Set_add_NoDup.
Qed.

Lemma Set_of_NoDup (l : list value) : NoDup (Set_of l).
Proof. apply fold_add_NoDup. constructor. Qed.

Lemma Set_of_In_iff (k : value) (l : list value) :
  In k (Set_of l) <-> In k l.
Proof. unfold Set_of. rewrite Set_of_In. simpl. tauto. Qed.

(** ** The simple merge *)

Lemma simple_merge_eq (A B : list item) :
  simple_merge A B
  = flat_map (pick (by_id A) (by_id B))
      (Set_of (Map_keys (by_id A) ++ Map_keys (by_id B))).
Proof. reflexivity. Qed.

Lemma pick_ids (LM RM : Map item) (i : value) :
  keyed LM -> keyed RM -> In i (Map_keys LM ++ Map_keys RM) ->
  map item_id (pick LM RM i) = [i].
Proof.
  intros KL KR Hin. unfold pick.
  destruct (Map_get LM i) as [l|] eqn:El, (Map_get RM i) as [r|] eqn:Er;
    simpl.
  - apply (Map_get_keyed _ _ _ KL) in El. apply (Map_get_keyed _ _ _ KR) in Er.
    destruct (gt _ _); congruence.
  - apply (Map_get_keyed _ _ _ KL) in El. congruence.
  - apply (Map_get_keyed _ _ _ KR) in Er. congruence.
  - apply Map_get_None in El. apply Map_get_None in Er.
    apply in_app_iff in Hin. tauto.
Qed.

Lemma flat_map_pick_ids (LM RM : Map item) (ids : list value) :
  keyed LM -> keyed RM ->
  (forall i, In i ids -> In i (Map_keys LM ++ Map_keys RM)) ->
  map item_id (flat_map (pick LM RM) ids) = ids.
Proof.
  intros KL KR. induction ids as [|i ids IH]; intro H; simpl; auto.
  rewrite map_app. rewrite pick_ids; auto.
  - simpl. f_equal. apply IH. intros j Hj. apply H. now right.
  - apply H. now left.
Qed.

Lemma simple_merge_ids (A B : list item) :
  map item_id (simple_merge A B)
  = Set_of (Map_keys (by_id A) ++ Map_keys (by_id B)).
Proof.
  rewrite simple_merge_eq.
  apply flat_map_pick_ids; [apply by_id_keyed | apply by_id_keyed |].
  intros i Hi. now apply (proj1 (Set_of_In_iff _ _)) in Hi.
Qed.

Lemma with_id_flat_map_pick (LM RM : Map item) (k : value)
  (ids : list value) :
  keyed LM -> keyed RM -> NoDup ids ->
  with_id k (flat_map (pick LM RM) ids)
  = if existsb (value_eqb k) ids then pick LM RM k else [].
Proof.
  intros KL KR. induction ids as [|i ids IH]; intro Hn; simpl; auto.
  inversion Hn as [|? ? Hi Hn']; subst.
  rewrite with_id_app, IH by assumption.
  destruct (value_eqb k i) eqn:E; simpl.
  - apply value_eqb_eq in E. subst i.
    replace (existsb (value_eqb k) ids) with false.
    2:{ symmetry. apply not_true_is_false. intro H.
        apply existsb_value_eqb in H. contradiction. }
    rewrite app_nil_r. unfold pick.
    destruct (Map_get LM k) as [l|] eqn:El, (Map_get RM k) as [r|] eqn:Er;
      simpl; auto.
    + apply (Map_get_keyed _ _ _ KL) in El.
      apply (Map_get_keyed _ _ _ KR) in Er.
      destruct (gt _ _); [rewrite El | rewrite Er];
        now rewrite value_eqb_refl.
    + apply (Map_get_keyed _ _ _ KL) in El.
      now rewrite El, value_eqb_refl.
    + apply (Map_get_keyed _ _ _ KR) in Er.
      now rewrite Er, value_eqb_refl.
  - replace (with_id k (pick LM RM i)) with (@nil item); [reflexivity|].
    symmetry. unfold pick.
    assert (Hne : forall x, item_id x = i ->
                            value_eqb (item_id x) k = false).
    { intros x Hx. rewrite Hx, value_eqb_sym. exact E. }
    destruct (Map_get LM i) as [l|] eqn:El, (Map_get RM i) as [r|] eqn:Er;
      simpl; auto.
    + apply (Map_get_keyed _ _ _ KL) in El.
      apply (Map_get_keyed _ _ _ KR) in Er.
      destruct (gt _ _); now rewrite Hne.
    + apply (Map_get_keyed _ _ _ KL) in El. now rewrite Hne.
    + apply (Map_get_keyed _ _ _ KR) in Er. now rewrite Hne.
Qed.

Lemma with_id_simple_merge (A B : list item) (k : value) :
  with_id k (simple_merge A B) = pick (by_id A) (by_id B) k.
Proof.
  rewrite simple_merge_eq,
    with_id_flat_map_pick by auto using by_id_keyed, Set_of_NoDup.
  destruct (existsb _ _) eqn:E; auto.
  unfold pick.
  destruct (Map_get (by_id A) k) as [l|] eqn:El;
    destruct (Map_get (by_id B) k) as [r|] eqn:Er; auto; exfalso;
    apply not_true_iff_false in E; apply E;
    apply existsb_value_eqb, Set_of_In_iff, in_app_iff;
    eauto using Map_get_Some_key.
Qed.


(** ** Conflicts *)

Lemma detected_sound (A B : list item) (c : Conflict) :
  In c (detectConflicts A B) ->
  In (conflict_local c) A /\ In (conflict_remote c) B
  /\ item_id (conflict_local c) = conflict_id c
  /\ item_id (conflict_remote c) = conflict_id c.
Proof.
  rewrite detectConflicts_eq. intro H. apply in_flat_map in H.
  destruct H as [x [Hx Hc]].
  destruct (detect_one_cases (by_id B) x) as [E | [r [G E]]];
    rewrite E in Hc; [contradiction|].
  destruct Hc as [<-|[]]. simpl.
  apply by_id_get_In in G. tauto.
Qed.

Lemma lww_merge_eq (A B : list item) :
  lww_merge A B (detectConflicts A B) = Map_values (by_id (gathered A B)).
Proof. reflexivity. Qed.

Lemma gathered_given (A B : list item) (x : item) :
  In x (gathered A B) -> In x A \/ In x B.
Proof.
  unfold gathered. rewrite !in_app_iff, resolve_keepLocal, resolve_keepRemote.
  intros [H|[H|[H|H]]].
  - apply filter_In in H. tauto.
  - apply filter_In in H. tauto.
  - apply in_map_iff in H. destruct H as [c [<- Hc]].
    apply filter_In in Hc. destruct Hc as [Hc _].
    apply detected_sound in Hc. tauto.
  - apply in_map_iff in H. destruct H as [c [<- Hc]].
    apply filter_In in Hc. destruct Hc as [Hc _].
    apply detected_sound in Hc. tauto.
Qed.

Lemma gathered_covers (A B : list item) (x : item) :
  In x A \/ In x B -> In (item_id x) (map item_id (gathered A B)).
Proof.
  intro Hx. unfold gathered.
  set (ids := Set_of (map conflict_id (detectConflicts A B))).
  destruct (Set_has ids (item_id x)) eqn:E.
  - apply Set_has_of in E. apply in_map_iff in E.
    destruct E as [c [Hid Hc]].
    pose proof (detected_sound A B c Hc) as [_ [_ [Hl Hr]]].
    rewrite !map_app, !in_app_iff, resolve_keepLocal, resolve_keepRemote.
    right. right.
    destruct (local_newer c) eqn:En.
    + left. rewrite <- Hid, <- Hl. apply in_map, in_map, filter_In. auto.
    + right. rewrite <- Hid, <- Hr. apply in_map, in_map, filter_In.
      rewrite En. auto.
  - rewrite !map_app, !in_app_iff.
    destruct Hx as [Hx|Hx]; [left | right; left];
      apply in_map, filter_In; rewrite E; auto.
Qed.

Lemma mergeItems_cases (A B : list item) (strategy : option string) :
  strategy = None \/ strategy = Some "last-write-wins"%string ->
  (detectConflicts A B = []
   /\ mergeItems A B strategy = mkMergeResult (simple_merge A B) [])
  \/ (detectConflicts A B <> []
      /\ mergeItems A B strategy
         = mkMergeResult (Map_values (by_id (gathered A B))) []).
Proof.
  intro Hs. unfold mergeItems.
  destruct (detectConflicts A B) as [|d D] eqn:E.
  - left. split; reflexivity.
  - right. split; [discriminate|]. rewrite <- E, <- lww_merge_eq.
    rewrite E. destruct Hs as [-> | ->]; reflexivity.
Qed.

(** X1.  Whatever the policy, every item of the merged list is one of the
    items that were given, local or remote. *)
Theorem mergeItems_returns_given_items (A B : list item)
  (strategy : option string) :
  incl (merged (mergeItems A B strategy)) (A ++ B).
Proof.
  intros x Hx. apply in_app_iff. unfold mergeItems in Hx.
  destruct (detectConflicts A B) as [|d D] eqn:E;
    cbn [List.length Nat.eqb] in Hx.
  - cbn [merged] in Hx. rewrite simple_merge_eq in Hx.
    apply in_flat_map in Hx. destruct Hx as [i [_ Hx]]. unfold pick in Hx.
    destruct (Map_get (by_id A) i) as [l|] eqn:El;
      destruct (Map_get (by_id B) i) as [r|] eqn:Er;
      try apply by_id_get_In in El; try apply by_id_get_In in Er;
      simpl in Hx.
    + destruct (gt _ _); destruct Hx as [<-|[]]; tauto.
    + destruct Hx as [<-|[]]; tauto.
    + destruct Hx as [<-|[]]; tauto.
    + contradiction.
  - cbv iota in Hx.
    destruct (String.eqb _ _); cbn [merged] in Hx.
    + rewrite <- E, lww_merge_eq in Hx.
      apply by_id_values_In, gathered_given in Hx. exact Hx.
    + now left.
Qed.

(** X2.  Under the last-write-wins policy the merged list holds one item for
    each id that occurs on either side, and no other. *)
Theorem mergeItems_one_item_per_id (A B : list item)
  (strategy : option string) :
  strategy = None \/ strategy = Some "last-write-wins"%string ->
  NoDup (map item_id (merged (mergeItems A B strategy)))
  /\ forall k, In k (map item_id (merged (mergeItems A B strategy)))
               <-> In k (map item_id (A ++ B)).
Proof.
  intro Hs.
  destruct (mergeItems_cases A B strategy Hs) as [[_ ->] | [_ ->]];
    cbn [merged].
  - rewrite simple_merge_ids. split; [apply Set_of_NoDup|].
    intro k. rewrite Set_of_In_iff, map_app, !in_app_iff, !by_id_keys.
    tauto.
  - rewrite keyed_values_ids by apply by_id_keyed. split.
    + apply by_id_keyed.
    + intro k. rewrite by_id_keys, !in_map_iff. split.
      * intros [x [<- Hx]]. exists x. split; [reflexivity|].
        apply in_app_iff. now apply gathered_given.
      * intros [x [<- Hx]]. apply in_app_iff in Hx.
        apply in_map_iff. now apply gathered_covers.
Qed.

Lemma mergeItems_one_item_per_id_witness :
  NoDup (map item_id (merged (mergeItems [other_item; older_item]
                                         [newer_item] None)))
  /\ forall k, In k (map item_id (merged (mergeItems [other_item; older_item]
                                                     [newer_item] None)))
               <-> In k (map item_id ([other_item; older_item]
                                        ++ [newer_item])).
Proof.
  apply (mergeItems_one_item_per_id [other_item; older_item] [newer_item]
           None).
  left. reflexivity.
Defined.


(** ** Ties and missing stamps *)

Lemma with_id_kept (k : value) (ids : list value) (l : list item) :
  Set_has ids k = false ->
  with_id k (filter (fun it => negb (Set_has ids (item_id it))) l)
  = with_id k l.
Proof.
  intro H. induction l as [|x l IH]; simpl; auto.
  destruct (value_eqb (item_id x) k) eqn:Ek.
  - apply value_eqb_eq in Ek. rewrite Ek, H. simpl.
    rewrite Ek, value_eqb_refl. now f_equal.
  - destruct (Set_has ids (item_id x)); simpl; auto.
    now rewrite Ek.
Qed.

Lemma last_with_filtered (k : value) (l : list item) (acc : option item) :
  last_with k l acc = last_with k (with_id k l) acc.
Proof.
  unfold last_with, with_id. revert acc.
  induction l as [|x l IH]; intro acc; simpl; auto.
  destruct (value_eqb (item_id x) k) eqn:E; simpl; rewrite ?E; auto.
Qed.

Lemma single_In (k : value) (x : item) (l : list item) :
  with_id k l = [x] -> In x l /\ item_id x = k.
Proof.
  intro H. assert (Hin : In x (with_id k l)) by (rewrite H; now left).
  apply filter_In in Hin. destruct Hin as [Hin E].
  apply value_eqb_eq in E. auto.
Qed.

Lemma by_id_get_single (k : value) (x : item) (l : list item) :
  with_id k l = [x] -> Map_get (by_id l) k = Some x.
Proof.
  intro H. rewrite by_id_get. now apply last_with_single.
Qed.

(** X3.  Under the last-write-wins policy, when the local copy of an item is
    not strictly newer than the remote copy of the same id (the local stamp
    is the older one, the two stamps are equal, or one of the copies has no
    stamp), the merged list holds the remote copy.  The stamps are values
    whose time is known: texts of the date-time format that name an instant,
    numbers, or none. *)
Theorem mergeItems_keeps_remote_unless_local_newer
  (A B : list item) (a b : item) (strategy : option string) :
  strategy = None \/ strategy = Some "last-write-wins"%string ->
  with_id (item_id a) A = [a] -> with_id (item_id b) B = [b] ->
  item_id a = item_id b ->
  Date_reads (updatedAt a) = true -> Date_reads (updatedAt b) = true ->
  gt (Date_getTime (updatedAt a)) (Date_getTime (updatedAt b)) = false ->
  with_id (item_id a) (merged (mergeItems A B strategy)) = [b].
Proof.
  intros Hs Ha Hb Hid _ _ Hgt.
  pose proof (by_id_get_single _ _ _ Ha) as Ga.
  pose proof (by_id_get_single _ _ _ Hb) as Gb. rewrite <- Hid in Gb.
  destruct (mergeItems_cases A B strategy Hs) as [[_ ->] | [_ ->]];
    cbn [merged].
  - rewrite with_id_simple_merge. unfold pick. now rewrite Ga, Gb, Hgt.
  - rewrite <- lww_merge_eq.
    destruct (detect_one_cases (by_id B) a) as [E | [r [G E]]].
    + rewrite lww_merge_eq.
      rewrite with_id_values, by_id_get by apply by_id_keyed.
      rewrite last_with_filtered.
      assert (Hno : Set_has (Set_of (map conflict_id (detectConflicts A B)))
                            (item_id a) = false).
      { apply not_true_iff_false. intro H. apply Set_has_of in H.
        apply in_map_iff in H. destruct H as [c [Hc Hin]].
        rewrite detectConflicts_eq in Hin. apply in_flat_map in Hin.
        destruct Hin as [x [Hx Hcx]].
        destruct (detect_one_cases (by_id B) x) as [Ex | [rx [_ Ex]]];
          rewrite Ex in Hcx; [contradiction|].
        destruct Hcx as [<-|[]]. simpl in Hc.
        assert (Hxa : In x (with_id (item_id a) A)).
        { apply filter_In. split; [assumption|]. now apply value_eqb_eq. }
        rewrite Ha in Hxa. destruct Hxa as [<-|[]].
        rewrite E in Ex. discriminate. }
      unfold gathered.
      rewrite !with_id_app, !with_id_kept by assumption.
      rewrite resolve_keepLocal, resolve_keepRemote, detectConflicts_eq.
      rewrite (kept_with_id conflict_local), (kept_with_id conflict_remote)
        by auto using by_id_keyed.
      rewrite Ha. cbn [flat_map]. rewrite E. cbn [app filter map with_id].
      rewrite Hid, Hb. unfold last_with. cbn [app fold_left].
      rewrite <- ?Hid, !value_eqb_refl. reflexivity.
    + rewrite (lww_merge_with_id A B a _ Ha E).
      rewrite G in Gb. inversion Gb. subst r.
      unfold local_newer. cbn [localTime remoteTime]. rewrite Hgt.
      reflexivity.
Qed.

Lemma mergeItems_keeps_remote_unless_local_newer_witness :
  with_id (VStr "1")
    (merged (mergeItems [other_item; unstamped_item] [older_item] None))
  = [older_item].
Proof.
  apply (mergeItems_keeps_remote_unless_local_newer
           [other_item; unstamped_item] [older_item] unstamped_item older_item
           None).
  - left. reflexivity.
  - reflexivity.
  - reflexivity.
  - reflexivity.
  - reflexivity.
  - reflexivity.
  - reflexivity.
Defined.

(** ** Merging with nothing, and with oneself *)

Lemma Map_set_fresh (k : value) (v : item) (m : Map item) :
  ~ In k (Map_keys m) -> Map_set k v m = m ++ [(k, v)].
Proof.
  induction m as [|[k0 v0] m IH]; simpl; intro H; auto.
  destruct (value_eqb k0 k) eqn:E.
  - apply value_eqb_eq in E. tauto.
  - f_equal. apply IH. tauto.
Qed.

Lemma fold_set_fresh (l : list item) (m : Map item) :
  NoDup (Map_keys m ++ map item_id l) ->
  fold_left (fun m kv => Map_set (fst kv) (snd kv) m)
            (map (fun it => (item_id it, it)) l) m
  = m ++ map (fun it => (item_id it, it)) l.
Proof.
  revert m. induction l as [|x l IH]; intros m H; simpl.
  - now rewrite app_nil_r.
  - cbn [map] in H. rewrite Map_set_fresh.
    + rewrite IH.
      * now rewrite <- app_assoc.
      * unfold Map_keys in *. rewrite map_app, <- app_assoc. exact H.
    + apply NoDup_remove_2 in H. rewrite in_app_iff in H. tauto.
Qed.

Lemma by_id_unique (l : list item) :
  NoDup (map item_id l) -> by_id l = map (fun it => (item_id it, it)) l.
Proof. intro H. unfold by_id, Map_of. now rewrite fold_set_fresh. Qed.

Lemma by_id_keys_unique (l : list item) :
  NoDup (map item_id l) -> Map_keys (by_id l) = map item_id l.
Proof.
  intro H. rewrite by_id_unique by assumption.
  unfold Map_keys. rewrite map_map. reflexivity.
Qed.

Lemma fold_add_fresh (l s : list value) :
  NoDup (s ++ l) -> fold_left (fun s k => Set_add k s) l s = s ++ l.
Proof.
  revert s. induction l as [|x l IH]; intros s H; simpl.
  - now rewrite app_nil_r.
  - unfold Set_add at 2, Set_has.
    replace (existsb (value_eqb x) s) with false.
    + rewrite IH; rewrite <- app_assoc; auto.
    + symmetry. apply not_true_iff_false. intro E.
      apply existsb_value_eqb in E.
      apply NoDup_remove_2 in H. rewrite in_app_iff in H. tauto.
Qed.

Lemma fold_add_known (l s : list value) :
  incl l s -> fold_left (fun s k => Set_add k s) l s = s.
Proof.
  induction l as [|x l IH]; intro H; simpl; auto.
  unfold Set_add at 2, Set_has.
  replace (existsb (value_eqb x) s) with true.
  - apply IH. intros y Hy. apply H. now right.
  - symmetry. apply existsb_value_eqb. apply H. now left.
Qed.

Lemma Set_of_unique (l : list value) : NoDup l -> Set_of l = l.
Proof. intro H. unfold Set_of. now rewrite fold_add_fresh. Qed.

Lemma Set_of_twice (l : list value) : NoDup l -> Set_of (l ++ l) = l.
Proof.
  intro H. unfold Set_of. rewrite fold_left_app.
  rewrite (fold_add_fresh l []) by assumption. simpl.
  apply fold_add_known. apply incl_refl.
Qed.

Lemma flat_map_own (f : value -> list item) (l : list item) :
  (forall x, In x l -> f (item_id x) = [x]) ->
  flat_map f (map item_id l) = l.
Proof.
  induction l as [|x l IH]; intro H; simpl; auto.
  rewrite H by now left. simpl. f_equal. apply IH.
  intros y Hy. apply H. now right.
Qed.

Lemma flat_map_none {X Y} (f : X -> list Y) (l : list X) :
  (forall x, In x l -> f x = []) -> flat_map f l = [].
Proof.
  induction l as [|x l IH]; intro H; simpl; auto.
  rewrite H by now left. apply IH. intros y Hy. apply H. now right.
Qed.

Lemma by_id_get_own (l : list item) (x : item) :
  NoDup (map item_id l) -> In x l -> Map_get (by_id l) (item_id x) = Some x.
Proof.
  intros Hn Hx. apply by_id_get_single. now apply with_id_unique.
Qed.

(** X4.  A list of items with distinct ids is left as it is, with no conflict
    reported, when it is merged with the empty list on either side or with
    itself, whatever the policy. *)
Theorem mergeItems_identities (A : list item) (strategy : option string) :
  NoDup (map item_id A) ->
  mergeItems A [] strategy = mkMergeResult A []
  /\ mergeItems [] A strategy = mkMergeResult A []
  /\ mergeItems A A strategy = mkMergeResult A [].
Proof.
  intro Hn.
  assert (D1 : detectConflicts A [] = []).
  { rewrite detectConflicts_eq. apply flat_map_none. reflexivity. }
  assert (D3 : detectConflicts A A = []).
  { rewrite detectConflicts_eq. apply flat_map_none. intros x Hx.
    unfold detect_one. rewrite by_id_get_own by assumption.
    now rewrite String.eqb_refl. }
  unfold mergeItems. rewrite D1, D3. cbn [detectConflicts flat_map].
  cbn [List.length Nat.eqb]. repeat split; f_equal; rewrite simple_merge_eq.
  - cbn [by_id Map_of map fold_left Map_keys]. rewrite app_nil_r.
    fold (Map_keys (by_id A)).
    rewrite by_id_keys_unique, Set_of_unique by assumption.
    apply flat_map_own. intros x Hx. unfold pick.
    now rewrite by_id_get_own.
  - cbn [by_id Map_of map fold_left Map_keys app].
    fold (Map_keys (by_id A)).
    rewrite by_id_keys_unique, Set_of_unique by assumption.
    apply flat_map_own. intros x Hx. unfold pick. cbn [Map_get].
    now rewrite by_id_get_own.
  - rewrite by_id_keys_unique, Set_of_twice by assumption.
    apply flat_map_own. intros x Hx. unfold pick.
    rewrite by_id_get_own by assumption. now destruct (gt _ _).
Qed.

Lemma mergeItems_identities_witness :
  mergeItems [other_item; older_item] [] (Some "manual"%string)
  = mkMergeResult [other_item; older_item] []
  /\ mergeItems [] [other_item; older_item] (Some "manual"%string)
     = mkMergeResult [other_item; older_item] []
  /\ mergeItems [other_item; older_item] [other_item; older_item]
                (Some "manual"%string)
     = mkMergeResult [other_item; older_item] [].
Proof.
  apply (mergeItems_identities [other_item; older_item]
           (Some "manual"%string)).
  repeat constructor; simpl; intuition discriminate.
Defined.

End Merge_Facts.

(* ===================================================================== *)
(** * Properties of the upload and fetch routes                           *)
(* ===================================================================== *)

Module SyncRoutes_Facts.
Import JS JS_Facts ConflictResolver ConflictResolver_Facts MergeBranches
  Merge_Facts SyncRoutes.

Lemma gt_irrefl (t : number) : gt t t = false.
Proof. destruct t as [x|]; simpl; auto. apply Z.ltb_irrefl. Qed.

Lemma gt_chain (p q e : number) :
  gt p e = false -> gt q e = true -> gt p q = false.
Proof.
  destruct p as [z|], q as [y|], e as [x|]; simpl; try discriminate; auto.
  rewrite Z.ltb_ge, !Z.ltb_lt. lia.
Qed.

Lemma accept_keyed (m : Map item) (p : item) :
  keyed m -> keyed (accept m p).
Proof.
  intro K. unfold accept.
  destruct (Map_get m (item_id p)) as [e|]; [destruct (gt _ _)|];
    auto using keyed_set.
Qed.

Lemma fold_accept_keyed (U : list item) (m : Map item) :
  keyed m -> keyed (fold_left accept U m).
Proof.
  revert m. induction U as [|p U IH]; intros m K; simpl; auto.
  apply IH. now apply accept_keyed.
Qed.

Lemma accept_get (k : value) (m : Map item) (p : item) :
  Map_get (accept m p) k = accept_under k (Map_get m k) p.
Proof.
  unfold accept, accept_under.
  destruct (value_eqb (item_id p) k) eqn:E.
  - apply value_eqb_eq in E. subst k.
    destruct (Map_get m (item_id p)) as [e|] eqn:G.
    + destruct (gt _ _); auto. now rewrite Map_get_set, value_eqb_refl.
    + now rewrite Map_get_set, value_eqb_refl.
  - destruct (Map_get m (item_id p)) as [e|] eqn:G.
    + destruct (gt _ _); auto. now rewrite Map_get_set, E.
    + now rewrite Map_get_set, E.
Qed.

Lemma fold_accept_get (k : value) (U : list item) (m : Map item) :
  Map_get (fold_left accept U m) k
  = fold_left (accept_under k) U (Map_get m k).
Proof.
  revert m. induction U as [|p U IH]; intro m; simpl; auto.
  now rewrite IH, accept_get.
Qed.

Lemma fold_accept_under_filtered (k : value) (U : list item)
  (acc : option item) :
  fold_left (accept_under k) U acc
  = fold_left (accept_under k) (with_id k U) acc.
Proof.
  revert acc. induction U as [|p U IH]; intro acc; simpl; auto.
  destruct (value_eqb (item_id p) k) eqn:E; simpl; auto.
  rewrite IH. f_equal. unfold accept_under. now rewrite E.
Qed.

(** ** One stored copy, one uploaded copy *)

(** X5.  When the server holds one item [e] of some id and one item [p] of
    that id is uploaded, it holds afterwards [p] if its [updatedAt] is
    strictly later than that of [e], and still [e] otherwise: also when the
    two stamps are equal, or one of the two items has no stamp.  The stamps
    are values whose time is known: texts of the date-time format that name
    an instant, numbers, or none. *)
Theorem upload_keeps_stored_unless_newer (stored uploaded : list item)
  (e p : item) :
  with_id (item_id e) stored = [e] -> with_id (item_id p) uploaded = [p] ->
  item_id p = item_id e ->
  Date_reads (updatedAt p) = true -> Date_reads (updatedAt e) = true ->
  with_id (item_id e) (merge_uploaded stored uploaded)
  = [if gt (Date_getTime (updatedAt p)) (Date_getTime (updatedAt e))
     then p else e].
Proof.
  intros He Hp Hid _ _. unfold merge_uploaded.
  rewrite with_id_values by apply fold_accept_keyed, by_id_keyed.
  rewrite fold_accept_get, fold_accept_under_filtered.
  rewrite (by_id_get_single _ _ _ He), <- Hid, Hp. simpl.
  unfold accept_under. rewrite value_eqb_refl.
  now destruct (gt _ _).
Qed.

Lemma upload_keeps_stored_unless_newer_witness :
  with_id (VStr "1")
    (merge_uploaded [older_item] [other_item; unstamped_item])
  = [older_item].
Proof.
  apply (upload_keeps_stored_unless_newer [older_item]
           [other_item; unstamped_item] older_item unstamped_item);
    reflexivity.
Defined.

(** ** Uploading again *)

Lemma settled_accept (m : Map item) (p : item) : settled (accept m p) p.
Proof.
  unfold settled. rewrite accept_get. unfold accept_under.
  rewrite value_eqb_refl.
  destruct (Map_get m (item_id p)) as [e|].
  - destruct (gt _ _) eqn:G; eexists; split; eauto using gt_irrefl.
  - eexists; split; eauto using gt_irrefl.
Qed.

Lemma settled_kept (m : Map item) (p q : item) :
  settled m p -> settled (accept m q) p.
Proof.
  intros [e [G H]]. unfold settled. rewrite accept_get. unfold accept_under.
  destruct (value_eqb (item_id q) (item_id p)) eqn:E.
  - rewrite G. destruct (gt (Date_getTime (updatedAt q)) _) eqn:Gq.
    + exists q. split; auto. eapply gt_chain; eauto.
    + exists e. auto.
  - exists e. auto.
Qed.

Lemma fold_accept_settled (U : list item) (m : Map item) (p : item) :
  settled m p \/ In p U -> settled (fold_left accept U m) p.
Proof.
  revert m. induction U as [|q U IH]; intros m H; simpl.
  - destruct H as [H|[]]. exact H.
  - apply IH. destruct H as [H|[<-|H]]; auto using settled_kept, settled_accept.
Qed.

Lemma accept_settled (m : Map item) (p : item) :
  settled m p -> accept m p = m.
Proof. intros [e [G H]]. unfold accept. now rewrite G, H. Qed.

Lemma fold_accept_all_settled (U : list item) (m : Map item) :
  Forall (settled m) U -> fold_left accept U m = m.
Proof.
  induction U as [|p U IH]; intro H; simpl; auto.
  inversion H; subst. rewrite accept_settled by assumption. auto.
Qed.

Lemma keyed_entries (m : Map item) :
  keyed m -> map (fun it => (item_id it, it)) (Map_values m) = m.
Proof.
  intros [_ Hf]. induction m as [|[k0 v0] m IH]; simpl; auto.
  inversion Hf; subst. simpl in *. subst k0. f_equal. auto.
Qed.

Lemma by_id_values (m : Map item) : keyed m -> by_id (Map_values m) = m.
Proof.
  intro K. rewrite by_id_unique.
  - now apply keyed_entries.
  - rewrite keyed_values_ids by assumption. apply K.
Qed.

(** X6.  Uploading the same items a second time changes nothing of what the
    server holds. *)
Theorem upload_again_changes_nothing (stored uploaded : list item) :
  merge_uploaded (merge_uploaded stored uploaded) uploaded
  = merge_uploaded stored uploaded.
Proof.
  unfold merge_uploaded.
  rewrite by_id_values by apply fold_accept_keyed, by_id_keyed.
  f_equal. apply fold_accept_all_settled, Forall_forall.
  intros p Hp. apply fold_accept_settled. now right.
Qed.

(** ** The ids the server holds *)

Lemma accept_keys (k : value) (m : Map item) (p : item) :
  In k (Map_keys (accept m p)) <-> In k (Map_keys m) \/ k = item_id p.
Proof.
  unfold accept.
  destruct (Map_get m (item_id p)) as [e|] eqn:G.
  - apply Map_get_Some_key in G.
    destruct (gt _ _).
    + rewrite Map_keys_set.
      replace (existsb _ _) with true
        by (symmetry; now apply existsb_value_eqb).
      split; [tauto | intros [H| ->]; auto].
    + split; [tauto | intros [H| ->]; auto].
  - rewrite Map_keys_set.
    apply Map_get_None in G.
    replace (existsb _ _) with false.
    + rewrite in_app_iff. simpl. intuition (subst; auto).
    + symmetry. apply not_true_iff_false. intro H.
      now apply existsb_value_eqb in H.
Qed.

Lemma fold_accept_keys (k : value) (U : list item) (m : Map item) :
  In k (Map_keys (fold_left accept U m))
  <-> In k (Map_keys m) \/ In k (map item_id U).
Proof.
  revert m. induction U as [|p U IH]; intro m; simpl.
  - tauto.
  - rewrite IH, accept_keys. intuition (subst; auto).
Qed.

Lemma accept_values (m : Map item) (p x : item) :
  In x (Map_values (accept m p)) -> In x (Map_values m) \/ x = p.
Proof.
  assert (Hs : forall k, In x (Map_values (Map_set k p m)) ->
                         In x (Map_values m) \/ x = p).
  { intro k. induction m as [|[k0 v0] m IH]; simpl.
    - intros [<-|[]]. auto.
    - destruct (value_eqb k0 k); simpl; intros [<-|H]; auto.
      apply IH in H. tauto. }
  unfold accept. destruct (Map_get m (item_id p)); [destruct (gt _ _)|];
    eauto.
Qed.

Lemma fold_accept_values (U : list item) (m : Map item) (x : item) :
  In x (Map_values (fold_left accept U m)) ->
  In x (Map_values m) \/ In x U.
Proof.
  revert m. induction U as [|p U IH]; intros m H; simpl in *; auto.
  apply IH in H. destruct H as [H|H]; auto.
  apply accept_values in H. destruct H as [H| ->]; auto.
Qed.

(** X7.  After an upload the server holds one item for each id that was stored
    or uploaded, and no other; each of them is one of the stored or of the
    uploaded items. *)
Theorem upload_one_item_per_id (stored uploaded : list item) :
  NoDup (map item_id (merge_uploaded stored uploaded))
  /\ (forall k, In k (map item_id (merge_uploaded stored uploaded))
                <-> In k (map item_id (stored ++ uploaded)))
  /\ incl (merge_uploaded stored uploaded) (stored ++ uploaded).
Proof.
  unfold merge_uploaded.
  pose proof (fold_accept_keyed uploaded (by_id stored) (by_id_keyed stored))
    as K.
  rewrite keyed_values_ids by assumption. repeat split.
  - apply K.
  - rewrite fold_accept_keys, by_id_keys, map_app, in_app_iff. tauto.
  - rewrite fold_accept_keys, by_id_keys, map_app, in_app_iff. tauto.
  - intros x Hx. apply fold_accept_values in Hx. apply in_app_iff.
    destruct Hx as [Hx|Hx]; auto. left. now apply by_id_values_In.
Qed.


(** ** Uploading items that are new *)

Lemma fold_accept_fresh (U : list item) (m : Map item) :
  NoDup (Map_keys m ++ map item_id U) ->
  fold_left accept U m = m ++ map (fun it => (item_id it, it)) U.
Proof.
  revert m. induction U as [|p U IH]; intros m H; simpl.
  - now rewrite app_nil_r.
  - cbn [map] in H.
    assert (Hp : ~ In (item_id p) (Map_keys m)).
    { apply NoDup_remove_2 in H. rewrite in_app_iff in H. tauto. }
    unfold accept at 2.
    replace (Map_get m (item_id p)) with (@None item)
      by (symmetry; now apply Map_get_None).
    rewrite Map_set_fresh by assumption.
    rewrite IH.
    + now rewrite <- app_assoc.
    + unfold Map_keys in *. rewrite map_app, <- app_assoc. exact H.
Qed.

(** X8.  When the uploaded items are new, their ids differing from one
    another and from those of the stored items, which differ from one
    another too, the list the route assigns to the account is the stored
    items followed by the uploaded ones, each list in its order: nothing
    stored is replaced, dropped or moved. *)
Theorem upload_appends_new_items (stored uploaded : list item) :
  NoDup (map item_id (stored ++ uploaded)) ->
  merge_uploaded stored uploaded = stored ++ uploaded.
Proof.
  intro H. rewrite map_app in H. unfold merge_uploaded.
  assert (Hs : NoDup (map item_id stored)) by now apply NoDup_app_remove_r in H.
  rewrite fold_accept_fresh.
  - rewrite by_id_unique by assumption.
    unfold Map_values. rewrite map_app, !map_map. cbn [snd].
    now rewrite !map_id.
  - rewrite by_id_unique by assumption.
    unfold Map_keys. rewrite map_map. cbn [fst]. exact H.
Qed.

Lemma upload_appends_new_items_witness :
  merge_uploaded [older_item] [other_item] = [older_item] ++ [other_item].
Proof.
  apply (upload_appends_new_items [older_item] [other_item]).
  repeat constructor; simpl; intuition discriminate.
Defined.

End SyncRoutes_Facts.

(* ===================================================================== *)
(** * More properties of the vault                                        *)
(* ===================================================================== *)

Module Vault_More.
Import JS JS_Facts Vault Vault_Facts LocalStorage Popup VaultAccess.
Local Open Scope string_scope.
Local Open Scope list_scope.

(** ** A locked vault *)

Lemma ensureUnlocked_locked (s : Vault.state) :
  ~ unlocked s -> ensureUnlocked s = (Threw locked_error, s).
Proof.
  intro H. unfold ensureUnlocked.
  destruct (vaultCache s) as [v|] eqn:Ev; auto.
  destruct (masterPasswordCache s) as [[|c p]|] eqn:Em; auto.
  exfalso. apply H. exists v, c, p. auto.
Qed.

(** X9.  While the vault is locked, every operation of vault.js on its entries
    throws the same error, and neither the resident state nor the storage
    changes. *)
Theorem locked_vault_refuses (w : World) (s : Vault.state) (i : value)
  (entry : obj) :
  ~ unlocked s ->
  getPasswords s = (Threw locked_error, s)
  /\ getBookmarks s = (Threw locked_error, s)
  /\ addPassword w entry s = (Threw locked_error, s)
  /\ addBookmark w entry s = (Threw locked_error, s)
  /\ updatePassword w i entry s = (Threw locked_error, s)
  /\ updateBookmark w i entry s = (Threw locked_error, s)
  /\ deletePassword w i s = (Threw locked_error, s)
  /\ deleteBookmark w i s = (Threw locked_error, s).
Proof.
  intro H. pose proof (ensureUnlocked_locked s H) as E.
  unfold getPasswords, getBookmarks, addPassword, addBookmark,
    updatePassword, updateBookmark, deletePassword, deleteBookmark, bind.
  rewrite E. repeat split.
Qed.

Lemma locked_vault_refuses_witness :
  let s := resident fresh in
  let entry := captured_entry in
  let i := VStr "from-another-device" in
  getPasswords s = (Threw locked_error, s)
  /\ getBookmarks s = (Threw locked_error, s)
  /\ addPassword example_world entry s = (Threw locked_error, s)
  /\ addBookmark example_world entry s = (Threw locked_error, s)
  /\ updatePassword example_world i entry s = (Threw locked_error, s)
  /\ updateBookmark example_world i entry s = (Threw locked_error, s)
  /\ deletePassword example_world i s = (Threw locked_error, s)
  /\ deleteBookmark example_world i s = (Threw locked_error, s).
Proof.
  apply (locked_vault_refuses example_world (resident fresh)
           (VStr "from-another-device") captured_entry).
  intros [v [c [p [Hv _]]]]. discriminate.
Defined.

(** ** An id that is not there *)

Lemma findIndex_None (i : value) (items : list item) :
  findIndex i items = None <-> ~ In i (map (get "id") items).
Proof.
  induction items as [|x items IH]; simpl.
  - tauto.
  - destruct (value_eqb (get "id" x) i) eqn:E.
    + apply value_eqb_eq in E. split; [discriminate | tauto].
    + apply value_eqb_neq in E.
      destruct (findIndex i items); simpl.
      * split; [discriminate|]. intro H. exfalso.
        destruct IH as [_ IH]. assert (Hn : ~ In i (map (get "id") items))
          by tauto. specialize (IH Hn). discriminate.
      * tauto.
Qed.

(** X10.  In an unlocked vault, updating or deleting an id that no entry of
    the list carries throws [Password not found] (or [Bookmark not found]) and
    changes nothing: nothing is stamped, saved or backed up. *)
Theorem unknown_id_is_refused (w : World) (s : Vault.state) (i j : value)
  (updates : obj) :
  unlocked s ->
  ~ In i (map (get "id") (resident_passwords s)) ->
  ~ In j (map (get "id") (resident_bookmarks s)) ->
  updatePassword w i updates s = (Threw (Error "Password not found"), s)
  /\ deletePassword w i s = (Threw (Error "Password not found"), s)
  /\ updateBookmark w j updates s = (Threw (Error "Bookmark not found"), s)
  /\ deleteBookmark w j s = (Threw (Error "Bookmark not found"), s).
Proof.
  intros [v [c [p [Hv Hm]]]].
  unfold resident_passwords, resident_bookmarks. rewrite Hv.
  intros Hi Hj. apply findIndex_None in Hi. apply findIndex_None in Hj.
  unfold updatePassword, deletePassword, updateBookmark, deleteBookmark,
    bind, ensureUnlocked.
  rewrite Hv, Hm. cbn [fst]. rewrite Hi, Hj. repeat split.
Qed.

Lemma unknown_id_is_refused_witness :
  let s := empty_unlocked in
  let i := VStr "nobody" in
  updatePassword example_world i captured_entry s
  = (Threw (Error "Password not found"), s)
  /\ deletePassword example_world i s
     = (Threw (Error "Password not found"), s)
  /\ updateBookmark example_world i captured_entry s
     = (Threw (Error "Bookmark not found"), s)
  /\ deleteBookmark example_world i s
     = (Threw (Error "Bookmark not found"), s).
Proof.
  apply (unknown_id_is_refused example_world empty_unlocked (VStr "nobody")
           (VStr "nobody") captured_entry).
  - apply empty_unlocked_unlocked.
  - simpl. tauto.
  - simpl. tauto.
Defined.

(** ** Updates *)

Lemma assign_length (n : nat) (x : item) (items : list item) :
  List.length (assign n x items) = List.length items.
Proof.
  revert n. induction items as [|y items IH]; intros [|n]; simpl; auto.
Qed.

Lemma nth_assign_other (n m : nat) (x : item) (items : list item) :
  m <> n -> nth m (assign n x items) [] = nth m items [].
Proof.
  revert n m. induction items as [|y items IH]; intros [|n] [|m] H; simpl;
    auto; try congruence.
Qed.

Lemma get_spread_nil (k : string) (o : obj) :
  well_formed o -> get k (spread [] o) = get k o.
Proof.
  intro W. destruct (has k o) eqn:E.
  - now apply get_spread_has.
  - rewrite get_spread_lacks by assumption. simpl.
    clear W. induction o as [|[k0 v0] o IH]; simpl in *; auto.
    destruct (String.eqb k0 k); [discriminate | auto].
Qed.

(** X11.  [updatePassword] on an entry that is there (the first of that id):
    the entry returned sits where the old one was, the list is as long as
    before and its other entries are untouched; [updatedAt] is the time of the
    call, whatever [updates] says, and every other property is that of
    [updates] when it has one of that name and that of the old entry
    otherwise. *)
Theorem updatePassword_overrides_fields (w : World) (s : Vault.state)
  (i : value) (updates : obj) (n : nat) :
  unlocked s -> findIndex i (resident_passwords s) = Some n ->
  well_formed updates -> well_formed (nth n (resident_passwords s) []) ->
  exists updated,
    fst (updatePassword w i updates s) = Ok updated
    /\ nth n (resident_passwords (snd (updatePassword w i updates s))) []
       = updated
    /\ List.length (resident_passwords (snd (updatePassword w i updates s)))
       = List.length (resident_passwords s)
    /\ (forall m, m <> n ->
          nth m (resident_passwords (snd (updatePassword w i updates s))) []
          = nth m (resident_passwords s) [])
    /\ get "updatedAt" updated = VStr (clock w (clockReads s))
    /\ forall k, k <> "updatedAt" ->
         get k updated
         = if has k updates then get k updates
           else get k (nth n (resident_passwords s) []).
Proof.
  intros U Hf Wu Wo.
  destruct (updatePassword_stamps w i updates s n U Hf) as [H1 [H2 H3]].
  eexists. split; [exact H1|]. rewrite H2.
  pose proof (findIndex_bound _ _ _ Hf) as Hb.
  split; [now apply nth_assign|].
  split; [apply assign_length|].
  split; [intros m Hm; now apply nth_assign_other|].
  split; [exact H3|].
  intros k Hk. rewrite get_set_other by congruence.
  destruct (has k updates) eqn:E.
  - now apply get_spread_has.
  - rewrite get_spread_lacks by assumption. now apply get_spread_nil.
Qed.

Lemma updatePassword_overrides_fields_witness :
  let s := snd (addPassword example_world captured_entry empty_unlocked) in
  let i := VStr "from-another-device" in
  let updates := [("password", VStr "q"); ("updatedAt", VStr "never")] in
  exists updated,
    fst (updatePassword example_world i updates s) = Ok updated
    /\ nth 0 (resident_passwords
                (snd (updatePassword example_world i updates s))) []
       = updated
    /\ List.length (resident_passwords
                      (snd (updatePassword example_world i updates s)))
       = List.length (resident_passwords s)
    /\ (forall m, m <> 0%nat ->
          nth m (resident_passwords
                   (snd (updatePassword example_world i updates s))) []
          = nth m (resident_passwords s) [])
    /\ get "updatedAt" updated = VStr (clock example_world (clockReads s))
    /\ forall k, k <> "updatedAt" ->
         get k updated
         = if has k updates then get k updates
           else get k (nth 0 (resident_passwords s) []).
Proof.
  apply (updatePassword_overrides_fields example_world
           (snd (addPassword example_world captured_entry empty_unlocked))
           (VStr "from-another-device")
           [("password", VStr "q"); ("updatedAt", VStr "never")] 0).
  - eexists _, "c"%char, "orrect horse". split; reflexivity.
  - reflexivity.
  - unfold well_formed. simpl.
    repeat constructor; simpl; intuition discriminate.
  - unfold well_formed. simpl.
    repeat constructor; simpl; intuition discriminate.
Defined.

(** ** Soft deletes *)

Lemma findIndex_assign (i : value) (n : nat) (x : item) (items : list item) :
  findIndex i items = Some n -> get "id" x = i ->
  findIndex i (assign n x items) = Some n.
Proof.
  revert n. induction items as [|y items IH]; intros n H Hx; simpl in *.
  - discriminate.
  - destruct (value_eqb (get "id" y) i) eqn:E.
    + inversion H. subst n. simpl. now rewrite Hx, value_eqb_refl.
    + destruct (findIndex i items) as [m|] eqn:F; [|discriminate].
      inversion H. subst n. simpl. rewrite E.
      now rewrite (IH m eq_refl Hx).
Qed.

(** X12.  [deletePassword] on an entry that is there: the entry stays in the
    list, at its place and under its id, with [deletedAt] set to the time of
    the call and every other property as it was; the other entries are
    untouched. *)
Theorem deletePassword_is_soft (w : World) (s : Vault.state) (i : value)
  (n : nat) :
  unlocked s -> findIndex i (resident_passwords s) = Some n ->
  let after := resident_passwords (snd (deletePassword w i s)) in
  fst (deletePassword w i s) = Ok tt
  /\ List.length after = List.length (resident_passwords s)
  /\ findIndex i after = Some n
  /\ (forall m, m <> n -> nth m after [] = nth m (resident_passwords s) [])
  /\ get "deletedAt" (nth n after []) = VStr (clock w (clockReads s))
  /\ forall k, k <> "deletedAt" ->
       get k (nth n after []) = get k (nth n (resident_passwords s) []).
Proof.
  intros U Hf.
  destruct (deletePassword_keeps_updatedAt w i s n U Hf) as [H1 [H2 [H3 _]]].
  cbv zeta. rewrite H2.
  pose proof (findIndex_bound _ _ _ Hf) as Hb.
  split; [exact H1|].
  split; [apply assign_length|].
  split.
  { apply findIndex_assign; auto.
    rewrite get_set_other by discriminate. now apply findIndex_id. }
  split; [intros m Hm; now apply nth_assign_other|].
  rewrite nth_assign by assumption.
  split; [apply get_set_same|].
  intros k Hk. apply get_set_other. congruence.
Qed.

Lemma added_state_unlocked :
  unlocked (snd (addPassword example_world captured_entry empty_unlocked)).
Proof.
  eexists _, "c"%char, "orrect horse". split; reflexivity.
Qed.

Lemma deletePassword_is_soft_witness :
  let s := snd (addPassword example_world captured_entry empty_unlocked) in
  let i := VStr "from-another-device" in
  let after := resident_passwords (snd (deletePassword example_world i s)) in
  fst (deletePassword example_world i s) = Ok tt
  /\ List.length after = List.length (resident_passwords s)
  /\ findIndex i after = Some 0%nat
  /\ (forall m, m <> 0%nat ->
        nth m after [] = nth m (resident_passwords s) [])
  /\ get "deletedAt" (nth 0 after [])
     = VStr (clock example_world (clockReads s))
  /\ forall k, k <> "deletedAt" ->
       get k (nth 0 after []) = get k (nth 0 (resident_passwords s) []).
Proof.
  apply (deletePassword_is_soft example_world
           (snd (addPassword example_world captured_entry empty_unlocked))
           (VStr "from-another-device") 0).
  - apply added_state_unlocked.
  - reflexivity.
Defined.

(** ** What the popup lists *)

Lemma active_assign (i : value) (n : nat) (x : item) (items : list item) :
  NoDup (map (get "id") items) -> findIndex i items = Some n ->
  truthy (get "deletedAt" x) = true ->
  activePasswords (assign n x items)
  = filter (fun p => negb (value_eqb (get "id" p) i)) (activePasswords items).
Proof.
  unfold activePasswords.
  revert n. induction items as [|y items IH]; intros n Hn Hf Hx; simpl in *.
  - discriminate.
  - inversion Hn as [|? ? Hy Hn']; subst.
    destruct (value_eqb (get "id" y) i) eqn:E.
    + inversion Hf. subst n. simpl. rewrite Hx. simpl.
      apply value_eqb_eq in E.
      assert (Hrest : forall l, ~ In i (map (get "id") l) ->
                filter (fun p => negb (value_eqb (get "id" p) i)) l = l).
      { intros l Hl. induction l as [|z l IHl]; simpl in *; auto.
        destruct (value_eqb (get "id" z) i) eqn:Ez.
        - apply value_eqb_eq in Ez. tauto.
        - simpl. f_equal. apply IHl. tauto. }
      assert (Hact : ~ In i (map (get "id")
                (filter (fun p => negb (truthy (get "deletedAt" p))) items))).
      { intro H. apply Hy. rewrite E. apply in_map_iff in H.
        destruct H as [z [Hz Hin]]. apply filter_In in Hin.
        apply in_map_iff. exists z. tauto. }
      destruct (truthy (get "deletedAt" y)); simpl.
      * now rewrite Hrest.
      * rewrite <- E at 1. rewrite value_eqb_refl. simpl.
        now rewrite Hrest.
    + destruct (findIndex i items) as [m|] eqn:F; [|discriminate].
      inversion Hf. subst n. simpl.
      destruct (truthy (get "deletedAt" y)); simpl.
      * now apply IH.
      * rewrite E. simpl. f_equal. now apply IH.
Qed.

(** X13.  Entries of distinct ids being held, the entries the popup lists
    after [deletePassword(id)] are those it listed before, without the one of
    that id (the clock reading a time that is not the empty text); and after
    [addPassword] it lists the new entry as well. *)
Theorem popup_lists_until_deleted (w : World) (s : Vault.state) (i : value)
  (n : nat) (given : obj) :
  unlocked s -> NoDup (map (get "id") (resident_passwords s)) ->
  findIndex i (resident_passwords s) = Some n ->
  clock w (clockReads s) <> EmptyString ->
  activePasswords (resident_passwords (snd (deletePassword w i s)))
  = filter (fun p => negb (value_eqb (get "id" p) i))
           (activePasswords (resident_passwords s))
  /\ exists entry,
       fst (addPassword w given s) = Ok entry
       /\ activePasswords (resident_passwords (snd (addPassword w given s)))
          = activePasswords (resident_passwords s) ++ [entry].
Proof.
  intros U Hn Hf Hc. split.
  - destruct (deletePassword_keeps_updatedAt w i s n U Hf) as [_ [H2 [H3 _]]].
    rewrite H2. apply active_assign; auto.
    rewrite H3. simpl. apply negb_true_iff. now apply String.eqb_neq.
  - destruct (addPassword_unlocked w given s U) as [H1 [H2 _]].
    eexists. split; [exact H1|]. rewrite H2.
    unfold activePasswords. rewrite filter_app. f_equal.
    cbn [filter].
    destruct (new_entry_stamps (randomUUID w (uuidsDrawn s)) given
                (clock w (clockReads s)) (clock w (S (clockReads s))))
      as [_ [_ Hd]].
    now rewrite Hd.
Qed.

Lemma popup_lists_until_deleted_witness :
  let s := snd (addPassword example_world captured_entry empty_unlocked) in
  let i := VStr "from-another-device" in
  activePasswords
    (resident_passwords (snd (deletePassword example_world i s)))
  = filter (fun p => negb (value_eqb (get "id" p) i))
           (activePasswords (resident_passwords s))
  /\ exists entry,
       fst (addPassword example_world [] s) = Ok entry
       /\ activePasswords
            (resident_passwords (snd (addPassword example_world [] s)))
          = activePasswords (resident_passwords s) ++ [entry].
Proof.
  apply (popup_lists_until_deleted example_world
           (snd (addPassword example_world captured_entry empty_unlocked))
           (VStr "from-another-device") 0 []).
  - apply added_state_unlocked.
  - simpl. repeat constructor. simpl. tauto.
  - reflexivity.
  - discriminate.
Defined.

(** ** Backups *)

Lemma skipn_keep_last {X} (l : list X) (x : X) :
  skipn (List.length (l ++ [x]) - 5) (l ++ [x])
  = skipn (List.length l - 4) l ++ [x].
Proof.
  rewrite length_app. cbn [List.length].
  replace (List.length l + 1 - 5)%nat with (List.length l - 4)%nat by lia.
  rewrite skipn_app.
  replace (List.length l - 4 - List.length l)%nat with 0%nat by lia.
  reflexivity.
Qed.

Lemma saveVault_unlocked (w : World) (s : Vault.state) (v : vault)
  (c : ascii) (p : string) :
  vaultCache s = Some v -> masterPasswordCache s = Some (String c p) ->
  saveVault w s
  = (Ok tt,
     Vault.mkState (Some v) (Some (String c p)) (autoLockTimer s)
       (Some (mkSealed v (String c p)))
       (skipn (List.length (vault_backup s) - 4) (vault_backup s)
          ++ [(clock w (clockReads s), mkSealed v (String c p))])
       (S (clockReads s)) (uuidsDrawn s)).
Proof.
  intros Hv Hm. unfold saveVault, bind, ensureUnlocked, createBackup, now.
  rewrite Hv, Hm. cbn -[skipn Nat.sub]. rewrite Hv, Hm.
  now rewrite skipn_keep_last.
Qed.

Lemma nth_error_last {X} (l : list X) (x : X) :
  nth_error (l ++ [x]) (List.length l) = Some x.
Proof. induction l; simpl; auto. Qed.

(** X14.  Saving the vault seals the resident vault under the resident master
    password, stores it, and appends it to the backups, of which the four most
    recent earlier ones are kept: at most five remain, the last of them is the
    vault just saved, and [restoreFromBackup] returns it for the last index. *)
Theorem saveVault_backs_up (w : World) (s : Vault.state) (v : vault)
  (c : ascii) (p : string) :
  vaultCache s = Some v -> masterPasswordCache s = Some (String c p) ->
  let saved := mkSealed v (String c p) in
  let s' := snd (saveVault w s) in
  fst (saveVault w s) = Ok tt
  /\ secure_vault s' = Some saved
  /\ vault_backup s'
     = skipn (List.length (vault_backup s) - 4) (vault_backup s)
         ++ [(clock w (clockReads s), saved)]
  /\ (List.length (vault_backup s') <= 5)%nat
  /\ fst (restoreFromBackup (Z.of_nat (List.length (vault_backup s')) - 1) s')
     = Ok saved.
Proof.
  intros Hv Hm. cbv zeta. rewrite (saveVault_unlocked w s v c p Hv Hm).
  cbn [fst snd secure_vault vault_backup].
  split; [reflexivity|]. split; [reflexivity|]. split; [reflexivity|].
  set (kept := skipn (List.length (vault_backup s) - 4) (vault_backup s)).
  assert (Hk : (List.length kept <= 4)%nat).
  { unfold kept. rewrite length_skipn. lia. }
  split.
  - rewrite length_app. simpl. lia.
  - unfold restoreFromBackup, getBackups, bind, read, ret.
    cbn [fst snd vault_backup].
    rewrite length_app. cbn [List.length].
    replace (Z.of_nat (List.length kept + 1) - 1)
      with (Z.of_nat (List.length kept)) by lia.
    rewrite Nat2Z.id, nth_error_last.
    replace ((0 <=? _)%Z && _) with true; [reflexivity|].
    symmetry. apply andb_true_iff. split; [apply Z.leb_le | apply Z.ltb_lt];
      lia.
Qed.

Lemma saveVault_backs_up_witness :
  let s := empty_unlocked in
  let saved := mkSealed (mkVault [] [] [("version", VStr "1.0.0")])
                        "correct horse" in
  let s' := snd (saveVault example_world s) in
  fst (saveVault example_world s) = Ok tt
  /\ secure_vault s' = Some saved
  /\ vault_backup s'
     = skipn (List.length (vault_backup s) - 4) (vault_backup s)
         ++ [(clock example_world (clockReads s), saved)]
  /\ (List.length (vault_backup s') <= 5)%nat
  /\ fst (restoreFromBackup (Z.of_nat (List.length (vault_backup s')) - 1) s')
     = Ok saved.
Proof.
  apply (saveVault_backs_up example_world empty_unlocked
           (mkVault [] [] [("version", VStr "1.0.0")]) "c" "orrect horse");
    reflexivity.
Defined.

End Vault_More.

(* ===================================================================== *)
(** * Properties of unlocking and locking                                 *)
(* ===================================================================== *)

Module VaultAccess_Facts.
Import JS JS_Facts Vault Vault_Facts LocalStorage Popup VaultAccess Vault_More.
Local Open Scope string_scope.
Local Open Scope list_scope.

Section Access.
Variable w : World.
Variable decryptObject : sealed -> string -> result vault.

(** ** The first unlock *)

(** X15.  On an installation that has no vault stored, [initializeVault]
    returns [true] for any master password: it stores an empty vault sealed
    under that password, stamped with the time of the call, makes it resident
    and clears the lock flag; no backup is made. The vault can then be used if
    the master password is not empty; with the empty password every operation
    still finds it locked. *)
Theorem initializeVault_creates (s : state) (masterPassword : string) :
  secure_vault (resident s) = None ->
  let emptyVault :=
    mkVault [] [] [("createdAt", VStr (clock w (clockReads (resident s))));
                   ("version", VStr "1.0.0")] in
  let s' := snd (initializeVault w decryptObject masterPassword s) in
  fst (initializeVault w decryptObject masterPassword s) = Ok true
  /\ vaultCache (resident s') = Some emptyVault
  /\ masterPasswordCache (resident s') = Some masterPassword
  /\ secure_vault (resident s') = Some (mkSealed emptyVault masterPassword)
  /\ vault_backup (resident s') = vault_backup (resident s)
  /\ fst (isVaultLocked s') = Ok false
  /\ fst (getPasswords (resident s'))
     = if String.eqb masterPassword EmptyString then Threw locked_error
       else Ok [].
Proof.
  intro H. destruct s as [r l]. simpl in H.
  unfold initializeVault, try_catch, bind, read, ret, on_resident. simpl.
  rewrite H. simpl. repeat split.
  destruct masterPassword; reflexivity.
Qed.

(** ** Unlocking a stored vault *)

(** X16.  When a vault is stored, [initializeVault] hangs on [decryptObject]:
    if it returns a vault, that vault and the password become resident, the
    lock flag is cleared and storage is left as it was; if it throws, whatever
    it throws is replaced by the one error [Invalid master password or
    corrupted vault] and nothing changes, so a vault that was unlocked before
    stays unlocked as it was. *)
Theorem initializeVault_opens_or_refuses (s : state) (stored : sealed)
  (masterPassword : string) :
  secure_vault (resident s) = Some stored ->
  let out := initializeVault w decryptObject masterPassword s in
  match decryptObject stored masterPassword with
  | Ok v =>
      fst out = Ok true
      /\ vaultCache (resident (snd out)) = Some v
      /\ masterPasswordCache (resident (snd out)) = Some masterPassword
      /\ secure_vault (resident (snd out)) = Some stored
      /\ vault_backup (resident (snd out)) = vault_backup (resident s)
      /\ fst (isVaultLocked (snd out)) = Ok false
  | Threw _ =>
      out = (Threw (Error "Invalid master password or corrupted vault"), s)
  end.
Proof.
  intro H. destruct s as [r l]. simpl in H.
  unfold initializeVault, try_catch, bind, read, ret, on_resident. simpl.
  rewrite H. destruct (decryptObject stored masterPassword) as [v|e]; simpl.
  - repeat split. exact H.
  - reflexivity.
Qed.

(** ** Lock, then unlock *)

(** X17.  An entry added to an unlocked vault survives locking: once
    [lockVault] has run the flag says locked and the entries cannot be read,
    and after [initializeVault] with the same master password the vault holds
    the entries it held before, the added one last, provided [decryptObject]
    opens what was sealed under that password. *)
Theorem added_entry_survives_locking (s : state) (v : vault) (c : ascii)
  (p : string) (given : obj) :
  vaultCache (resident s) = Some v ->
  masterPasswordCache (resident s) = Some (String c p) ->
  (forall x, decryptObject (mkSealed x (String c p)) (String c p) = Ok x) ->
  let added := on_resident (addPassword w given) s in
  let locked := snd (lockVault (snd added)) in
  let reopened := initializeVault w decryptObject (String c p) locked in
  exists entry,
    fst added = Ok entry
    /\ fst (isVaultLocked locked) = Ok true
    /\ fst (getPasswords (resident locked)) = Threw locked_error
    /\ fst reopened = Ok true
    /\ fst (getPasswords (resident (snd reopened)))
       = Ok (passwords v ++ [entry])
    /\ fst (getBookmarks (resident (snd reopened))) = Ok (bookmarks v).
Proof.
  intros Hv Hm Hopen. destruct s as [r l]. simpl in Hv, Hm.
  destruct r as [vc mc t sv bk cr ud]. simpl in Hv, Hm. subst vc mc.
  eexists. cbv zeta.
  unfold on_resident, addPassword, bind, ensureUnlocked, newUUID, now,
    set_passwords, saveVault, createBackup, resetAutoLockTimer, ret,
    lockVault, Vault.lockVault, set_vault_locked, with_cache.
  cbn -[skipn Nat.sub new_entry].
  split; [reflexivity|]. split; [reflexivity|]. split; [reflexivity|].
  unfold initializeVault, try_catch, bind, read, ret, on_resident.
  cbn -[skipn Nat.sub new_entry]. rewrite Hopen.
  cbn -[skipn Nat.sub new_entry]. repeat split.
Qed.
End Access.

Lemma initializeVault_creates_witness :
  let emptyVault :=
    mkVault [] [] [("createdAt", VStr "2024-01-01T10:00:00.000Z");
                   ("version", VStr "1.0.0")] in
  let created :=
    initializeVault example_world open_with_same EmptyString fresh in
  let s' := snd created in
  fst created = Ok true
  /\ vaultCache (resident s') = Some emptyVault
  /\ masterPasswordCache (resident s') = Some EmptyString
  /\ secure_vault (resident s') = Some (mkSealed emptyVault EmptyString)
  /\ vault_backup (resident s') = vault_backup (resident fresh)
  /\ fst (isVaultLocked s') = Ok false
  /\ fst (getPasswords (resident s')) = Threw locked_error.
Proof.
  apply (initializeVault_creates example_world open_with_same fresh
           EmptyString).
  reflexivity.
Defined.

Lemma initializeVault_opens_or_refuses_witness :
  initializeVault example_world open_with_same "wrong" in_use
  = (Threw (Error "Invalid master password or corrupted vault"), in_use).
Proof.
  apply (initializeVault_opens_or_refuses example_world open_with_same in_use
           (mkSealed two_bookmarks "correct horse") "wrong").
  reflexivity.
Defined.

Lemma added_entry_survives_locking_witness :
  let added := on_resident (addPassword example_world captured_entry) in_use in
  let locked := snd (lockVault (snd added)) in
  let reopened :=
    initializeVault example_world open_with_same "correct horse" locked in
  exists entry,
    fst added = Ok entry
    /\ fst (isVaultLocked locked) = Ok true
    /\ fst (getPasswords (resident locked)) = Threw locked_error
    /\ fst reopened = Ok true
    /\ fst (getPasswords (resident (snd reopened)))
       = Ok (passwords two_bookmarks ++ [entry])
    /\ fst (getBookmarks (resident (snd reopened)))
       = Ok (bookmarks two_bookmarks).
Proof.
  apply (added_entry_survives_locking example_world open_with_same in_use
           two_bookmarks "c" "orrect horse" captured_entry).
  - reflexivity.
  - reflexivity.
  - intro x. unfold open_with_same. simpl. reflexivity.
Defined.

End VaultAccess_Facts.

(* ===================================================================== *)
(** * Properties of the offline queue                                     *)
(* ===================================================================== *)

Module Queue_Facts.
Import JS JS_Facts SyncService SyncService_Facts Popup BookmarkCapture.
Local Open Scope string_scope.
Local Open Scope list_scope.

Section Engine.
Variable w : World.
Variable remote : Remote.

(** ** Replaying the queue *)

Lemma replay_queue (q : queued) (s : state) :
  sync_queue (snd (replay w q s)) = sync_queue s.
Proof.
  unfold replay, try_catch.
  repeat match goal with
         | |- context [if ?c then _ else _] => destruct c
         end;
    try reflexivity;
    unfold bind, on_vault;
    match goal with
    | |- context [let (_, _) := ?c (vault s) in _] =>
        destruct (c (vault s)) as [[a|e] v]
    end; reflexivity.
Qed.

Lemma replay_all_queue (queue : list queued) (s : state) :
  sync_queue (snd (replay_all w queue s)) = sync_queue s.
Proof.
  revert s. induction queue as [|q queue IH]; intro s; simpl; auto.
  unfold bind. pose proof (replay_queue q s) as Hq.
  destruct (replay_same w q s) as [Hr _].
  destruct (replay w q s) as [r s1]. simpl in *. subst r.
  now rewrite IH.
Qed.

(** X18.  Processing the offline queue never throws, whatever the replayed
    operations do; it sends nothing to the server and leaves the flag and the
    watermark alone; and the queue is empty afterwards, also when an entry
    could not be replayed. *)
Theorem processSyncQueue_always_empties (s : state) :
  let out := processSyncQueue w s in
  fst out = Ok tt
  /\ sync_queue (snd out) = []
  /\ sent (snd out) = sent s
  /\ isSyncing (snd out) = isSyncing s
  /\ last_sync_timestamp (snd out) = last_sync_timestamp s.
Proof.
  cbv zeta.
  destruct (processSyncQueue_same w s) as [Hr [H1 [_ [H3 [_ H5]]]]].
  repeat split; auto.
  unfold processSyncQueue, bind, getSyncQueue, read, ret. simpl.
  destruct (sync_queue s) as [|q queue] eqn:E; [exact E|].
  destruct (replay_all_same w (q :: queue) s) as [Hr' _].
  destruct (replay_all w (q :: queue) s) as [r s1]. simpl in *. subst r.
  reflexivity.
Qed.


(** ** What the capture handlers queue *)

(** X19.  A bookmark created in the browser while the vault is unlocked is
    added to the vault at once and queued as an addition; when the queue is
    processed it is added a second time: the vault then holds two entries for
    it, with the same title, url, folder and tags, each under an identifier of
    its own (the next two that are drawn). *)
Theorem created_bookmark_is_stored_twice (s : state) (bookmark : obj)
  (folder : string) (tags : value) :
  Vault.unlocked (vault s) -> sync_queue s = [] ->
  truthy (get "url" bookmark) = true ->
  let after :=
    snd (processSyncQueue w
           (snd (handleBookmarkCreated w bookmark folder tags s))) in
  exists e1 e2,
    held_bookmarks after = held_bookmarks s ++ [e1; e2]
    /\ get "id" e1 = VStr (randomUUID w (Vault.uuidsDrawn (vault s)))
    /\ get "id" e2 = VStr (randomUUID w (S (Vault.uuidsDrawn (vault s))))
    /\ map (fun k => get k e1) ["title"; "url"; "folder"; "tags"]
       = map snd (captured bookmark folder tags)
    /\ map (fun k => get k e2) ["title"; "url"; "folder"; "tags"]
       = map snd (captured bookmark folder tags)
    /\ sync_queue after = []
    /\ sent after = sent s.
Proof.
  intros [v [c [p [Hv Hm]]]] Hq Hu.
  destruct s as [sy tok ls qu cr dv vs se]. simpl in *.
  destruct vs as [vc mc t sv bk clk ud]. simpl in *. subst vc mc qu.
  cbv zeta.
  unfold handleBookmarkCreated, try_catch. rewrite Hu. cbn [negb].
  unfold bind, on_vault, queueForSync, addToSyncQueue, Vault.addBookmark,
    Vault.ensureUnlocked, Vault.newUUID, Vault.now, Vault.set_bookmarks,
    Vault.saveVault, Vault.createBackup, Vault.resetAutoLockTimer, ret,
    Vault.with_cache, bind.
  cbn -[skipn Nat.sub Vault.new_entry].
  unfold processSyncQueue, getSyncQueue, bind, read, ret.
  cbn -[skipn Nat.sub Vault.new_entry replay].
  unfold replay, try_catch.
  cbn -[skipn Nat.sub Vault.new_entry].
  unfold bind, on_vault, queueForSync, addToSyncQueue, Vault.addBookmark,
    Vault.ensureUnlocked, Vault.newUUID, Vault.now, Vault.set_bookmarks,
    Vault.saveVault, Vault.createBackup, Vault.resetAutoLockTimer, ret,
    Vault.with_cache, bind, clearSyncQueue.
  cbn -[skipn Nat.sub Vault.new_entry].
  unfold held_bookmarks, Vault.resident_bookmarks.
  cbn -[skipn Nat.sub Vault.new_entry].
  eexists _, _. rewrite <- app_assoc. split; [reflexivity|].
  repeat split.
Qed.

(** X20.  A change of a bookmark is queued without the id of a vault entry,
    and a removal is queued as a deletion: when the queue is processed neither
    has any effect on the vault, and both are gone from the queue. (The
    entries of the vault carry an id.) *)
Theorem changed_and_removed_bookmarks_are_dropped (s : state)
  (changeInfo node : obj) (id : string) :
  sync_queue s = [] -> truthy (get "url" node) = true ->
  Forall (fun b => get "id" b <> VUndefined) (held_bookmarks s) ->
  let queued :=
    snd (handleBookmarkRemoved w id
           (snd (handleBookmarkChanged w changeInfo (Some node) s))) in
  let after := snd (processSyncQueue w queued) in
  map queued_action (sync_queue queued) = ["update"; "delete"]
  /\ held_bookmarks after = held_bookmarks s
  /\ held_passwords after = held_passwords s
  /\ sync_queue after = [].
Proof.
  intros Hq Hu Hids.
  destruct s as [sy tok ls qu cr dv vs se]. simpl in *. subst qu.
  destruct vs as [vc mc t sv bk clk ud].
  unfold held_bookmarks, held_passwords in *. simpl in Hids.
  cbv zeta.
  unfold handleBookmarkChanged, handleBookmarkRemoved, try_catch.
  rewrite Hu. cbn [negb].
  unfold bind, on_vault, queueForSync, addToSyncQueue, Vault.now, ret, bind.
  cbn -[skipn Nat.sub].
  split; [reflexivity|].
  unfold processSyncQueue, getSyncQueue, bind, read, ret.
  cbn -[skipn Nat.sub replay].
  unfold replay, try_catch. cbn -[skipn Nat.sub Vault.updateBookmark].
  unfold bind, on_vault. cbn -[skipn Nat.sub Vault.updateBookmark].
  set (vs := Vault.mkState vc mc t sv bk (S (S clk)) ud).
  set (updates := [("title", _); ("url", _)]).
  assert (Hup : exists e, Vault.updateBookmark w VUndefined updates vs
                          = (Threw e, vs)).
  { unfold Vault.updateBookmark, bind, Vault.ensureUnlocked. subst vs.
    cbn [Vault.vaultCache Vault.masterPasswordCache].
    destruct vc as [v|]; [|eexists; reflexivity].
    destruct mc as [[|c p]|]; try (eexists; reflexivity).
    cbn [fst]. simpl in Hids.
    replace (Vault.findIndex VUndefined (Vault.bookmarks v))
      with (@None nat); [eexists; reflexivity|].
    symmetry. apply Vault_More.findIndex_None. intro Hin.
    apply in_map_iff in Hin. destruct Hin as [b [Hb Hin]].
    rewrite Forall_forall in Hids. now apply (Hids b). }
  destruct Hup as [e Hup]. rewrite Hup.
  cbn -[skipn Nat.sub]. repeat split.
Qed.

End Engine.

Lemma created_bookmark_is_stored_twice_witness :
  let w := Vault.example_world in
  let s := idle in
  let after :=
    snd (processSyncQueue w
           (snd (handleBookmarkCreated w browser_bookmark "/Bar" VNull s))) in
  exists e1 e2,
    held_bookmarks after = held_bookmarks s ++ [e1; e2]
    /\ get "id" e1 = VStr (randomUUID w (Vault.uuidsDrawn (vault s)))
    /\ get "id" e2 = VStr (randomUUID w (S (Vault.uuidsDrawn (vault s))))
    /\ map (fun k => get k e1) ["title"; "url"; "folder"; "tags"]
       = map snd (captured browser_bookmark "/Bar" VNull)
    /\ map (fun k => get k e2) ["title"; "url"; "folder"; "tags"]
       = map snd (captured browser_bookmark "/Bar" VNull)
    /\ sync_queue after = []
    /\ sent after = sent s.
Proof.
  apply (created_bookmark_is_stored_twice Vault.example_world idle
           browser_bookmark "/Bar" VNull).
  - eexists _, "c"%char, "orrect horse". split; reflexivity.
  - reflexivity.
  - reflexivity.
Defined.

Lemma changed_and_removed_bookmarks_are_dropped_witness :
  let w := Vault.example_world in
  let s := idle in
  let queued :=
    snd (handleBookmarkRemoved w "17"
           (snd (handleBookmarkChanged w [("title", VStr "New")]
                   (Some browser_bookmark) s))) in
  let after := snd (processSyncQueue w queued) in
  map queued_action (sync_queue queued) = ["update"; "delete"]
  /\ held_bookmarks after = held_bookmarks s
  /\ held_passwords after = held_passwords s
  /\ sync_queue after = [].
Proof.
  apply (changed_and_removed_bookmarks_are_dropped Vault.example_world idle
           [("title", VStr "New")] browser_bookmark "17").
  - reflexivity.
  - reflexivity.
  - constructor.
Defined.
End Queue_Facts.

(* ===================================================================== *)
(** * Properties of whole passes of the sync engine                       *)
(* ===================================================================== *)

Module Engine_Facts.
Import JS JS_Facts SyncService SyncService_Facts Popup BookmarkCapture
  Queue_Facts Engine_Notions.
Local Open Scope string_scope.
Local Open Scope list_scope.

Section Engine.
Variable w : World.
Variable remote : Remote.

(** ** Calls that are turned away *)

(** X21.  A call of [performSync] that finds a pass in progress returns
    [in_progress], and one made while no access token is stored throws [Not
    authenticated. Please login first.]; in both cases nothing is sent and
    nothing changes. *)
Theorem performSync_turns_away (s : state) :
  isSyncing s = true \/ signed_out s ->
  performSync w remote s
  = (if isSyncing s then Ok in_progress
     else Threw (Error "Not authenticated. Please login first."), s).
Proof.
  intro H. destruct s as [sy tok ls qu cr dv vs se].
  unfold signed_out in H. simpl in H.
  unfold performSync, bind, performSync_enter, read, ret. simpl.
  destruct sy; [reflexivity|].
  destruct H as [H|[H|H]]; [discriminate| |]; subst tok; reflexivity.
Qed.

(** ** A pass that succeeds *)

Lemma getPasswords_unlocked (v : Vault.state) :
  Vault.unlocked v ->
  Vault.getPasswords v
  = (Ok (Vault.resident_passwords v),
     Vault.mkState (Vault.vaultCache v) (Vault.masterPasswordCache v) true
                   (Vault.secure_vault v) (Vault.vault_backup v)
                   (Vault.clockReads v) (Vault.uuidsDrawn v)).
Proof.
  intros [x [c [p [Hv Hm]]]]. destruct v. simpl in *. subst. reflexivity.
Qed.

Lemma getBookmarks_unlocked (v : Vault.state) :
  Vault.unlocked v ->
  Vault.getBookmarks v
  = (Ok (Vault.resident_bookmarks v),
     Vault.mkState (Vault.vaultCache v) (Vault.masterPasswordCache v) true
                   (Vault.secure_vault v) (Vault.vault_backup v)
                   (Vault.clockReads v) (Vault.uuidsDrawn v)).
Proof.
  intros [x [c [p [Hv Hm]]]]. destruct v. simpl in *. subst. reflexivity.
Qed.

(** X22.  With the user signed in, no pass in progress, the vault unlocked,
    the queue empty and the server answering its four requests, [performSync]
    returns [success]: it fetched and uploaded the passwords, then the
    bookmarks, each upload being the merge of the local items with what the
    fetch returned, sent under the id of the device and the time read for it;
    the timestamp [performSync] returns is the time read after those two and
    is the new watermark; the id of the device is stored and the flag is
    clear again.  (The identifier drawn for a device without id is not the
    empty text.) *)
Theorem performSync_succeeds (s : state) (c : ascii) (token : string)
  (remotePasswords remoteBookmarks : list item) :
  isSyncing s = false -> auth_token s = Some (String c token) ->
  Vault.unlocked (vault s) -> sync_queue s = [] ->
  device_of w s <> EmptyString ->
  let mergedPasswords := to_upload (held_passwords s) remotePasswords s in
  let mergedBookmarks := to_upload (held_bookmarks s) remoteBookmarks s in
  fetch remote Passwords (watermark s) = Ok remotePasswords ->
  upload remote Passwords mergedPasswords = Ok tt ->
  fetch remote Bookmarks (watermark s) = Ok remoteBookmarks ->
  upload remote Bookmarks mergedBookmarks = Ok tt ->
  let out := performSync w remote s in
  let n := Vault.clockReads (vault s) in
  let device := device_of w s in
  (exists conflictsP conflictsB,
     fst out = Ok (success (clock w (S (S n)))
                     (mkCounts (List.length mergedPasswords) conflictsP)
                     (mkCounts (List.length mergedBookmarks) conflictsB)))
  /\ requests_since s (snd out)
     = [Fetch Passwords (watermark s);
        Upload Passwords mergedPasswords device (clock w n);
        Fetch Bookmarks (watermark s);
        Upload Bookmarks mergedBookmarks device (clock w (S n))]
  /\ last_sync_timestamp (snd out) = Some (clock w (S (S n)))
  /\ device_id (snd out) = Some device
  /\ isSyncing (snd out) = false.
Proof.
  intros Hs Ht Hu Hq Hd mP mB Hfp Hup Hfb Hub. subst mP mB. cbv zeta.
  destruct s as [sy tok ls qu cr dv vs se]. simpl in Hs, Ht, Hu, Hq.
  subst sy tok qu.
  destruct Hu as [x [c0 [p [Hv Hm]]]].
  destruct vs as [vc mc t sv bk clk ud]. simpl in Hv, Hm. subst vc mc.
  unfold held_passwords, held_bookmarks, to_upload, watermark, device_of,
    Vault.resident_passwords, Vault.resident_bookmarks in *.
  cbn [vault conflictResolution last_sync_timestamp Vault.vaultCache
       device_id Vault.uuidsDrawn Vault.clockReads]
    in Hfp, Hup, Hfb, Hub, Hd.
  cbn [vault conflictResolution last_sync_timestamp Vault.vaultCache
       device_id Vault.uuidsDrawn Vault.clockReads].
  assert (Hid : exists ch rest,
            match dv with
            | Some (String c1 t1) => String c1 t1
            | _ => randomUUID w ud
            end = String ch rest).
  { destruct (match dv with
              | Some (String c1 t1) => String c1 t1
              | _ => randomUUID w ud
              end) as [|ch rest]; [contradiction | eauto]. }
  destruct Hid as [ch [rest Hid]].
  unfold performSync, bind, performSync_enter, read, ret,
    performSync_authenticated, isAuthenticated, set_isSyncing,
    performSync_pass, try_catch, getLastSyncTimestamp, bind, read, ret.
  cbn [isSyncing auth_token negb fst snd last_sync_timestamp
       conflictResolution].
  unfold syncPasswords, syncBookmarks, try_catch, bind, on_vault, fetchItems,
    uploadItems, getDeviceId, LocalStorage.getDeviceId, Vault.now, send,
    bind, read, ret, Vault.getPasswords, Vault.getBookmarks,
    bind, Vault.ensureUnlocked, Vault.resetAutoLockTimer, ret.
  cbn [vault isSyncing auth_token last_sync_timestamp sync_queue
       conflictResolution sent fst snd Vault.vaultCache device_id
       Vault.masterPasswordCache].
  rewrite Hfp.
  cbn -[ConflictResolver.mergeItems].
  destruct dv as [[|c1 t1]|];
    cbn -[ConflictResolver.mergeItems] in Hid |- *;
    rewrite ?Hid; cbn -[ConflictResolver.mergeItems];
    rewrite Hup; cbn -[ConflictResolver.mergeItems];
    rewrite Hfb; cbn -[ConflictResolver.mergeItems];
    rewrite Hub; cbn -[ConflictResolver.mergeItems];
    unfold requests_since; cbn -[ConflictResolver.mergeItems skipn];
    (split; [eexists _, _; reflexivity|]);
    (split; [|repeat split; congruence]);
    rewrite <- !app_assoc; rewrite skipn_app, skipn_all, Nat.sub_diag;
    cbn [skipn app]; rewrite <- ?Hid; reflexivity.
Qed.

(** ** What a pass leaves of the vault *)

(** X23.  Whatever the server returns, and whether the pass succeeds or fails,
    a pass with an empty queue leaves the entries of the vault as they were
    and saves nothing: what it fetched and merged is uploaded, and never
    written to the local vault. *)
Theorem performSync_never_writes_back (s : state) :
  sync_queue s = [] ->
  let after := snd (performSync w remote s) in
  Vault.vaultCache (vault after) = Vault.vaultCache (vault s)
  /\ Vault.secure_vault (vault after) = Vault.secure_vault (vault s)
  /\ Vault.vault_backup (vault after) = Vault.vault_backup (vault s).
Proof.
  intro Hq. cbv zeta.
  destruct s as [sy tok ls qu cr dv vs se]. simpl in Hq. subst qu.
  destruct vs as [vc mc tm sv bk clk ud].
  unfold performSync, bind, performSync_enter, read, ret.
  cbn [isSyncing]. destruct sy; [repeat split|].
  unfold performSync_authenticated, bind, isAuthenticated, read, ret,
    set_isSyncing, throw.
  destruct tok as [[|c t]|]; [repeat split | | repeat split].
  unfold performSync_pass, try_catch, getLastSyncTimestamp, bind, read, ret,
    syncPasswords, syncBookmarks, try_catch, bind, on_vault, fetchItems,
    uploadItems, getDeviceId, LocalStorage.getDeviceId, send, bind, read,
    ret, throw, set_isSyncing,
    Vault.getPasswords, Vault.getBookmarks, bind, Vault.ensureUnlocked,
    Vault.resetAutoLockTimer, ret, processSyncQueue, getSyncQueue, bind,
    read, ret, Vault.now, saveLastSyncTimestamp, set_isSyncing.
  cbn -[ConflictResolver.mergeItems].
  destruct vc as [v|]; [|repeat split].
  destruct mc as [[|c0 p]|]; [repeat split | | repeat split].
  cbn -[ConflictResolver.mergeItems].
  destruct (fetch remote Passwords _) as [rp|e1]; [|repeat split].
  cbn -[ConflictResolver.mergeItems].
  destruct dv as [[|c1 t1]|]; cbn -[ConflictResolver.mergeItems].
  all: destruct (upload remote Passwords _) as [u1|e2]; [|repeat split].
  all: cbn -[ConflictResolver.mergeItems].
  all: destruct (fetch remote Bookmarks _) as [rb|e3]; [|repeat split].
  all: cbn -[ConflictResolver.mergeItems].
  all: try (destruct (randomUUID w ud) as [|c2 t2];
            cbn -[ConflictResolver.mergeItems]).
  all: destruct (upload remote Bookmarks _) as [u2|e4]; repeat split.
Qed.

End Engine.

Lemma performSync_turns_away_witness :
  performSync Vault.example_world empty_remote signed_out_state
  = (Threw (Error "Not authenticated. Please login first."),
     signed_out_state).
Proof.
  apply (performSync_turns_away Vault.example_world empty_remote
           signed_out_state).
  right. left. reflexivity.
Defined.

Lemma idle_unlocked : Vault.unlocked (vault idle).
Proof. eexists _, "c"%char, "orrect horse". split; reflexivity. Qed.

Lemma performSync_succeeds_witness :
  let w := Vault.example_world in
  let s := idle in
  let mergedPasswords :=
    to_upload (held_passwords s) [ConflictResolver.other_item] s in
  let mergedBookmarks := to_upload (held_bookmarks s) [] s in
  let out := performSync w holding_remote s in
  let n := Vault.clockReads (vault s) in
  let device := device_of w s in
  (exists conflictsP conflictsB,
     fst out = Ok (success (clock w (S (S n)))
                     (mkCounts (List.length mergedPasswords) conflictsP)
                     (mkCounts (List.length mergedBookmarks) conflictsB)))
  /\ requests_since s (snd out)
     = [Fetch Passwords (watermark s);
        Upload Passwords mergedPasswords device (clock w n);
        Fetch Bookmarks (watermark s);
        Upload Bookmarks mergedBookmarks device (clock w (S n))]
  /\ last_sync_timestamp (snd out) = Some (clock w (S (S n)))
  /\ device_id (snd out) = Some device
  /\ isSyncing (snd out) = false.
Proof.
  apply (performSync_succeeds Vault.example_world holding_remote idle
           "t" "oken" [ConflictResolver.other_item] []).
  - reflexivity.
  - reflexivity.
  - eexists _, "c"%char, "orrect horse". split; reflexivity.
  - reflexivity.
  - discriminate.
  - reflexivity.
  - reflexivity.
  - reflexivity.
  - reflexivity.
Defined.

Lemma performSync_never_writes_back_witness :
  let after := snd (performSync Vault.example_world holding_remote idle) in
  Vault.vaultCache (vault after) = Vault.vaultCache (vault idle)
  /\ Vault.secure_vault (vault after) = Vault.secure_vault (vault idle)
  /\ Vault.vault_backup (vault after) = Vault.vault_backup (vault idle).
Proof.
  apply (performSync_never_writes_back Vault.example_world holding_remote
           idle).
  reflexivity.
Defined.

End Engine_Facts.

(* ===================================================================== *)
(** * Properties of the password hash and of the base64 helpers           *)
(* ===================================================================== *)

Module PasswordHash_Facts.
Import JS Encoding Encoding_Facts Platform Encryption Encryption_Facts
  PasswordHash Platform_Model Platform_Model_Laws Platform_Model_Records.

(** ** Base64 of buffers *)

Lemma base64_encode_count (l : list Z) :
  List.length (base64_encode l) = (4 * ((List.length l + 2) / 3))%nat.
Proof.
  induction l using list_ind_by_three; try reflexivity.
  change (base64_encode (a :: b :: c :: l))
    with (base64_char (a / 4) :: base64_char (a mod 4 * 16 + b / 16)
            :: base64_char (b mod 16 * 4 + c / 64) :: base64_char (c mod 64)
            :: base64_encode l).
  cbn [List.length]. rewrite IHl.
  replace (S (S (S (List.length l))) + 2)%nat
    with (List.length l + 2 + 1 * 3)%nat by lia.
  rewrite Nat.div_add by lia. lia.
Qed.

(** X24.  What [arrayBufferToBase64] writes for a buffer, which it does for
    every buffer, [base64ToArrayBuffer] reads back as that buffer; the text
    has four characters for every three bytes, the last group filled up. *)
Theorem buffers_survive_base64 (buffer : bytes) :
  exists text,
    arrayBufferToBase64 buffer = Ok text
    /\ base64ToArrayBuffer text = Ok buffer
    /\ List.length text = (4 * ((List.length buffer + 2) / 3))%nat.
Proof.
  exists (base64_encode (map Z_of_byte buffer)).
  split; [apply arrayBufferToBase64_total|].
  split; [apply base64ToArrayBuffer_encode|].
  now rewrite base64_encode_count, length_map.
Qed.

(** ** Hash, then verify *)

Section WithPlatform.
Context {crypto : WebCrypto}.

Lemma encode_injective (x y : bytes) :
  base64_encode (map Z_of_byte x) = base64_encode (map Z_of_byte y) -> x = y.
Proof.
  intro H. pose proof (base64ToArrayBuffer_encode x) as Hx.
  rewrite H, base64ToArrayBuffer_encode in Hx. now inversion Hx.
Qed.

Lemma recompute_record (password other : jsstring) (salt : bytes) :
  salt <> [] ->
  recompute other (hash_record password salt) = Ok (tag64 other salt).
Proof.
  intro Hs. unfold recompute, hash_record.
  replace (member (js "salt") _)
    with (Ok (Some (JStr (base64_encode (map Z_of_byte salt)))))
    by reflexivity.
  cbn [and_then ToString]. rewrite base64ToArrayBuffer_encode.
  cbn [and_then].
  destruct salt as [|b salt]; [contradiction|]. cbn [List.length Nat.eqb].
  cbn [and_then]. apply arrayBufferToBase64_total.
Qed.

Lemma tag64_nonempty (password : jsstring) (salt : bytes) :
  tag64 password salt <> [].
Proof.
  unfold tag64. intro H. apply base64_encode_nil, map_eq_nil in H.
  pose proof (HMAC_SHA512_length salt
                (TextEncoder_encode (password ++ PEPPER))) as Hlen.
  rewrite H in Hlen. discriminate.
Qed.

(** X25.  For a salt that is not empty, [hashPassword] returns the serialized
    record of the salt and of the keyed hash of the peppered password; if
    [JSON.parse] reads that text back as the record, [verifyPassword] answers
    [true] for the password that was hashed, and [false] for any password
    whose keyed hash under that salt is another. *)
Theorem verifyPassword_accepts_hashPassword (password other : jsstring)
  (salt : bytes) :
  salt <> [] ->
  JSON_parse (JSON_stringify (hash_record password salt))
  = Some (hash_record password salt) ->
  HMAC_SHA512 salt (TextEncoder_encode (other ++ PEPPER))
  <> HMAC_SHA512 salt (TextEncoder_encode (password ++ PEPPER)) ->
  hashPassword password salt
  = Ok (JSON_stringify (hash_record password salt))
  /\ verifyPassword password (JSON_stringify (hash_record password salt))
     = Ok true
  /\ verifyPassword other (JSON_stringify (hash_record password salt))
     = Ok false.
Proof.
  intros Hs Hparse Hother. split; [|split].
  - unfold hashPassword.
    destruct salt as [|b salt]; [contradiction|]. cbn [List.length Nat.eqb].
    cbn [and_then]. rewrite !arrayBufferToBase64_total. reflexivity.
  - unfold verifyPassword, verifyPassword_try. rewrite Hparse.
    cbn [lift and_then]. rewrite recompute_record by assumption.
    cbn [and_then].
    replace (member (js "hash") _)
      with (Ok (Some (JStr (tag64 password salt)))) by reflexivity.
    cbn [and_then].
    destruct (constantTimeCompare_any_true (tag64 password salt)
                (Some (JStr (tag64 password salt)))
                (tag64_nonempty password salt)) as [_ H].
    now rewrite H.
  - unfold verifyPassword, verifyPassword_try. rewrite Hparse.
    cbn [lift and_then]. rewrite recompute_record by assumption.
    cbn [and_then].
    replace (member (js "hash") _)
      with (Ok (Some (JStr (tag64 password salt)))) by reflexivity.
    cbn [and_then].
    destruct (constantTimeCompare_any (tag64 other salt)
                (Some (JStr (tag64 password salt)))) as [[|]|e] eqn:E;
      try reflexivity.
    apply (constantTimeCompare_any_true _ _ (tag64_nonempty other salt)) in E.
    inversion E as [E']. unfold tag64 in E'.
    apply encode_injective in E'. congruence.
Qed.
End WithPlatform.

#[export] Instance model_records : WebCrypto := {|
  PBKDF2 := model_PBKDF2;
  SHA256 := model_SHA256;
  AES_GCM_encrypt := model_encrypt;
  AES_GCM_decrypt := model_decrypt;
  HMAC_SHA512 := model_HMAC;
  JSON_parse := records_JSON_parse;
  ToString_other := fun _ => Threw TypeError;
  PBKDF2_derives := model_PBKDF2_derives;
  AES_GCM_opens_sealed := model_opens_sealed;
  HMAC_SHA512_length := fun key data => fit_length 64 (key ++ data)
|}.

Lemma verifyPassword_accepts_hashPassword_witness :
  @hashPassword model_records (js "pw") drawn_salt
  = Ok (JSON_stringify (@hash_record model_records (js "pw") drawn_salt))
  /\ @verifyPassword model_records (js "pw")
       (JSON_stringify (@hash_record model_records (js "pw") drawn_salt))
     = Ok true
  /\ @verifyPassword model_records (js "pW")
       (JSON_stringify (@hash_record model_records (js "pw") drawn_salt))
     = Ok false.
Proof.
  apply (@verifyPassword_accepts_hashPassword model_records
           (js "pw") (js "pW") drawn_salt).
  - discriminate.
  - vm_compute. reflexivity.
  - vm_compute. discriminate.
Defined.

End PasswordHash_Facts.

(* ===================================================================== *)
(** * A soft delete and the server; the device id                         *)
(* ===================================================================== *)

Module Deletion_Facts.
Import JS JS_Facts ConflictResolver ConflictResolver_Facts Merge_Facts
  SyncRoutes SyncRoutes_Facts Vault Vault_Facts Vault_More LocalStorage.
Local Open Scope string_scope.
Local Open Scope list_scope.

Lemma In_assign (n : nat) (x p : item) (items : list item) :
  In p (assign n x items) -> p = x \/ In p items.
Proof.
  revert n. induction items as [|y items IH]; intros [|n] H; simpl in *;
    try tauto.
  - destruct H as [<-|H]; auto.
  - destruct H as [<-|H]; auto. apply IH in H. tauto.
Qed.

Lemma by_id_values_unique (l : list item) :
  NoDup (map item_id l) -> Map_values (by_id l) = l.
Proof.
  intro H. rewrite by_id_unique by assumption.
  unfold Map_values. rewrite map_map. apply map_id.
Qed.

(** X26.  A soft delete does not reach the server. The server holding the
    passwords of the vault, with distinct ids, as they were before
    [deletePassword], the upload of the passwords of the vault after it leaves
    the server with what it held: the entry deleted locally carries the
    [updatedAt] it had, so the stored copy, which is not deleted, is not
    replaced. *)
Theorem soft_delete_is_not_accepted (w : World) (s : Vault.state) (i : value)
  (n : nat) :
  unlocked s -> NoDup (map item_id (resident_passwords s)) ->
  findIndex i (resident_passwords s) = Some n ->
  let before := resident_passwords s in
  let after := resident_passwords (snd (deletePassword w i s)) in
  get "deletedAt" (nth n after []) = VStr (clock w (clockReads s))
  /\ merge_uploaded before after = before.
Proof.
  intros U Hn Hf. cbv zeta.
  destruct (deletePassword_keeps_updatedAt w i s n U Hf)
    as [_ [H2 [H3 H4]]].
  pose proof (findIndex_bound _ _ _ Hf) as Hb.
  rewrite H2. split.
  - now rewrite nth_assign.
  - unfold merge_uploaded.
    rewrite fold_accept_all_settled; [now apply by_id_values_unique|].
    apply Forall_forall. intros p Hp. apply In_assign in Hp.
    destruct Hp as [-> | Hp].
    + exists (nth n (resident_passwords s) []). split.
      * unfold item_id at 1. rewrite get_set_other by discriminate.
        apply (by_id_get_own _ _ Hn). now apply nth_In.
      * unfold updatedAt. rewrite H4. apply gt_irrefl.
    + exists p. split; [now apply by_id_get_own | apply gt_irrefl].
Qed.

Lemma soft_delete_is_not_accepted_witness :
  let s := snd (addPassword example_world captured_entry empty_unlocked) in
  let before := resident_passwords s in
  let after :=
    resident_passwords
      (snd (deletePassword example_world (VStr "from-another-device") s)) in
  get "deletedAt" (nth 0 after []) = VStr (clock example_world (clockReads s))
  /\ merge_uploaded before after = before.
Proof.
  apply (soft_delete_is_not_accepted example_world
           (snd (addPassword example_world captured_entry empty_unlocked))
           (VStr "from-another-device") 0).
  - eexists _, "c"%char, "orrect horse". split; reflexivity.
  - simpl. repeat constructor. simpl. tauto.
  - reflexivity.
Defined.

(** ** The device id *)

(** X27.  [getDeviceId] creates the id once: the identifier drawn not being
    the empty text, the first call stores it and every later call returns the
    same id without drawing another identifier or writing storage. *)
Theorem getDeviceId_is_stable (w : World) (d : device) :
  randomUUID w (identifiersDrawn d) <> EmptyString ->
  exists id,
    fst (getDeviceId w d) = Ok id
    /\ id <> EmptyString
    /\ device_id (snd (getDeviceId w d)) = Some id
    /\ getDeviceId w (snd (getDeviceId w d))
       = (Ok id, snd (getDeviceId w d)).
Proof.
  intro H. destruct d as [[[|c t]|] k]; simpl in *.
  - destruct (randomUUID w k) as [|c t] eqn:E; [contradiction|].
    exists (String c t). unfold getDeviceId, bind, read, ret. simpl.
    repeat split. discriminate.
  - exists (String c t). repeat split. discriminate.
  - destruct (randomUUID w k) as [|c t] eqn:E; [contradiction|].
    exists (String c t). unfold getDeviceId, bind, read, ret. simpl.
    repeat split. discriminate.
Qed.

Lemma getDeviceId_is_stable_witness :
  exists id,
    fst (getDeviceId example_world (mkDevice None 0)) = Ok id
    /\ id <> EmptyString
    /\ device_id (snd (getDeviceId example_world (mkDevice None 0))) = Some id
    /\ getDeviceId example_world
         (snd (getDeviceId example_world (mkDevice None 0)))
       = (Ok id, snd (getDeviceId example_world (mkDevice None 0))).
Proof.
  apply (getDeviceId_is_stable example_world (mkDevice None 0)).
  discriminate.
Defined.

End Deletion_Facts.

(* ===================================================================== *)
(** * Properties of authenticated requests                                *)
(* ===================================================================== *)

Module AuthService_Facts.
Import JS AuthService.
Local Open Scope string_scope.
Local Open Scope list_scope.

Section Service.
Variable network : Network.

(** ** An expired session *)

(** X28.  When the server answers 401 to the request and 401 or 403 to the
    refresh that follows, [authenticatedFetch] throws [Authentication failed.
    Please login again.]; both tokens are removed from storage, and three
    requests were sent: the one asked for, the refresh, and one logout
    carrying the refresh token, whatever the server answers to it. *)
Theorem expired_session_signs_out (s : state) (url : string)
  (c c' : ascii) (t t' : string) (r1 r2 : response) :
  auth_token s = Some (String c t) ->
  refresh_token s = Some (String c' t') ->
  let q1 := mkRequest (Resource url) (Some (String c t)) None in
  let q2 := mkRequest Refresh None (Some (String c' t')) in
  let q3 := mkRequest Logout None (Some (String c' t')) in
  network (sent s) q1 = Ok r1 -> status r1 = 401 ->
  network (sent s ++ [q1]) q2 = Ok r2 -> status r2 = 401 \/ status r2 = 403 ->
  authenticatedFetch network url s
  = (Threw (Error "Authentication failed. Please login again."),
     mkState None None (sent s ++ [q1; q2; q3])).
Proof.
  intros Ha Hr q1 q2 q3 H1 S1 H2 S2. subst q1 q2 q3.
  destruct s as [a r se]. simpl in *. subst a r.
  unfold authenticatedFetch, bind, read, ret, fetch. simpl.
  rewrite H1, S1. simpl.
  unfold try_catch, bind, refreshAccessToken, try_catch, bind, read, ret,
    fetch. simpl. rewrite H2.
  assert (E : Z.eqb (status r2) 401 || Z.eqb (status r2) 403 = true).
  { apply orb_true_iff. destruct S2 as [-> | ->]; auto. }
  rewrite E. unfold logout, try_catch, bind, read, ret, fetch, throw,
    clearAuthTokens. simpl.
  match goal with
  | |- context [network ?l (mkRequest Logout ?b ?r)] =>
      destruct (network l (mkRequest Logout b r)) as [r3|e3]
  end; simpl; rewrite <- !app_assoc; reflexivity.
Qed.

(** ** A refreshed token *)

(** X29.  When the server answers 401 to the request and accepts the refresh,
    the new access token is stored beside the refresh token, the request is
    sent once more with the new token, and what the server answers to that is
    returned as it is, also when it is 401 again: there is no second refresh. *)
Theorem refreshed_token_is_used (s : state) (url : string)
  (c c' : ascii) (t t' : string) (r1 r2 r3 : response) :
  auth_token s = Some (String c t) ->
  refresh_token s = Some (String c' t') ->
  let q1 := mkRequest (Resource url) (Some (String c t)) None in
  let q2 := mkRequest Refresh None (Some (String c' t')) in
  let q3 := mkRequest (Resource url) (Some (accessToken r2)) None in
  network (sent s) q1 = Ok r1 -> status r1 = 401 ->
  network (sent s ++ [q1]) q2 = Ok r2 -> ok r2 = true ->
  network ((sent s ++ [q1]) ++ [q2]) q3 = Ok r3 ->
  authenticatedFetch network url s
  = (Ok r3,
     mkState (Some (accessToken r2)) (Some (String c' t'))
             (sent s ++ [q1; q2; q3])).
Proof.
  intros Ha Hr q1 q2 q3 H1 S1 H2 S2 H3. subst q1 q2 q3.
  destruct s as [a r se]. simpl in *. subst a r.
  unfold authenticatedFetch, bind, read, ret, fetch. simpl.
  rewrite H1, S1. simpl.
  unfold try_catch, bind, refreshAccessToken, try_catch, bind, read, ret,
    fetch. simpl. rewrite H2.
  assert (E : Z.eqb (status r2) 401 || Z.eqb (status r2) 403 = false).
  { unfold ok in S2. apply andb_true_iff in S2. destruct S2 as [A B].
    apply Z.leb_le in A. apply Z.leb_le in B.
    apply orb_false_iff. split; apply Z.eqb_neq; lia. }
  rewrite E, S2. simpl. rewrite H3. rewrite <- !app_assoc. reflexivity.
Qed.

(** ** How much is sent *)

Lemma logout_sends (s : state) :
  exists new,
    sent (snd (logout network s)) = sent s ++ new
    /\ (List.length new <= 1)%nat
    /\ filter to_resource new = []
    /\ refresh_token (snd (logout network s)) = None.
Proof.
  unfold logout, try_catch, bind, read, ret, fetch, clearAuthTokens.
  destruct s as [a [[|c t]|] se]; simpl.
  - exists []. rewrite app_nil_r. auto.
  - exists [mkRequest Logout None (Some (String c t))].
    destruct (network _ _); simpl; auto.
  - exists []. rewrite app_nil_r. auto.
Qed.


(** X30.  Whatever the server answers, one call of [authenticatedFetch] sends
    at most three requests, at most two of them to the url it was given: it
    never tries a third time. Without an access token in storage it sends
    nothing and throws [Not authenticated]. *)
Theorem authenticatedFetch_sends_at_most_three (s : state) (url : string) :
  exists new,
    sent (snd (authenticatedFetch network url s)) = sent s ++ new
    /\ (List.length new <= 3)%nat
    /\ (List.length (filter to_resource new) <= 2)%nat
    /\ match auth_token s with
       | Some (String _ _) => True
       | _ => new = []
              /\ fst (authenticatedFetch network url s)
                 = Threw (Error "Not authenticated")
       end.
Proof.
  destruct s as [a r se].
  unfold authenticatedFetch, refreshAccessToken, logout, saveAuthTokens,
    clearAuthTokens, fetch, try_catch, bind, read, ret, throw.
  cbn [auth_token refresh_token sent fst snd].
  destruct a as [[|c t]|];
    [exists []; rewrite app_nil_r; cbn; auto with arith | |
     exists []; rewrite app_nil_r; cbn; auto with arith].
  destruct r as [[|c' t']|];
    repeat (cbn [auth_token refresh_token sent fst snd];
            match goal with
            | |- context [network ?l ?q] => destruct (network l q)
            | |- context [Z.eqb ?x ?y || Z.eqb ?x ?z] =>
                destruct (Z.eqb x y || Z.eqb x z)
            | |- context [Z.eqb ?x ?y] => destruct (Z.eqb x y)
            | |- context [negb (ok ?x)] => destruct (negb (ok x))
            | |- context [message_includes ?e ?x || message_includes ?e ?y] =>
                destruct (message_includes e x || message_includes e y)
            | |- context [message_includes ?e ?x] =>
                destruct (message_includes e x)
            end);
    cbn [auth_token refresh_token sent fst snd];
    rewrite <- ?app_assoc;
    (eexists; split; [reflexivity | cbn; auto with arith]).
Qed.

End Service.

Lemma expired_session_signs_out_witness :
  authenticatedFetch expired "/sync/passwords" signed_in
  = (Threw (Error "Authentication failed. Please login again."),
     mkState None None
       ([] ++ [mkRequest (Resource "/sync/passwords") (Some "stale") None;
               mkRequest Refresh None (Some "r1");
               mkRequest Logout None (Some "r1")])).
Proof.
  apply (expired_session_signs_out expired signed_in "/sync/passwords"
           "s" "r" "tale" "1" (mkResponse 401 EmptyString)
           (mkResponse 401 EmptyString));
    try reflexivity.
  left. reflexivity.
Defined.

Lemma refreshed_token_is_used_witness :
  authenticatedFetch refreshing "/sync/passwords" signed_in
  = (Ok (mkResponse 200 EmptyString),
     mkState (Some "fresh") (Some "r1")
       ([] ++ [mkRequest (Resource "/sync/passwords") (Some "stale") None;
               mkRequest Refresh None (Some "r1");
               mkRequest (Resource "/sync/passwords") (Some "fresh") None])).
Proof.
  apply (refreshed_token_is_used refreshing signed_in "/sync/passwords"
           "s" "r" "tale" "1" (mkResponse 401 EmptyString)
           (mkResponse 200 "fresh") (mkResponse 200 EmptyString));
    reflexivity.
Defined.
End AuthService_Facts.
